(** * vendor-theia-ide-deps.py: a shallow embedding and its properties

    The script [rpm/vendor-theia-ide-deps.py] assembles the source tarballs of
    the Theia IDE RPM.  This development embeds the parts of it that carry
    behaviour worth stating: the release-number resolver, the downloader with
    checksum verification, the dependency pass, the spec-file updater, the
    reader of the manifests and the option handling of [main].

    Conventions.
    - A Python [str] is a list of Unicode code points ([N]); [lit] turns an
      ASCII literal into one.  [bytes] are lists of byte values.
    - Built-ins follow CPython 3.11: the white space and decimal digits of
      [re] and [int] (Unicode 14), the replacement templates of [re.sub], the
      digit limit of [int], universal newlines in text files.
    - Functions that can raise return a [result]; [try]/[except] is a match on
      it.  [sys.exit] is a result of its own.
    - What lies outside the script (the network, git, the clock, the
      environment) is an explicit argument: a record of what the outside
      world answers.  What the script leaves outside (files, requests made,
      git runs) is a state passed along.
    - The file system is a map from paths to regular files and to the work
      trees of git; a path is the list of its [pathlib] parts; there are no
      links, and names are told apart as Linux file systems do.  What the
      file system may refuse (permissions, a full disk, a regular file where
      a directory is needed, a directory where a file is to be written) is
      not modelled, and the script has no handler for most of it: the
      statements that depend on it say for which paths and states they hold
      ([FetchFacts.separate], [FetchFacts.fits], [FetchFacts.clear_for_clone]).
    - The locale is UTF-8 and the standard streams are open.  Of what is
      printed the model keeps what can make a call raise where a property
      turns on it: the numbers formatted by [get_copr_release_number] and
      the text written and reported by [update_spec_file].  Elsewhere
      standard output is taken to accept what is printed, as it does for
      names and URLs without surrogates ([FetchFacts.is_name],
      [FetchFacts.sound]).
    - Not modelled: signals. *)

From Stdlib Require Import NArith ZArith List Bool String Ascii Lia.
From stdpp Require Import base option list gmap.
From Equations Require Import Equations.
From Stdlib Require DecimalPos.
Import ListNotations.

Local Open Scope N_scope.

(** ** Python values *)

Abbreviation str := (list N).

Definition lit (s : string) : str :=
  map N_of_ascii (list_ascii_of_string s).

Definition nl : N := 10.
Definition cr : N := 13.
Definition backslash : N := 92.

(** Truthiness of a string: [if s:] holds for a non-empty string. *)
Definition truthy (s : str) : bool :=
  match s with [] => false | _ :: _ => true end.

(** Truthiness of [d.get(key)]: the key is there and its value is non-empty. *)
Definition truthy_opt (o : option str) : bool :=
  match o with Some s => truthy s | None => false end.

(** Text the UTF-8 codec takes, for a file or for standard output: no code
    point of it is a surrogate.  A [str] read from JSON may hold one. *)
Definition is_scalar (c : N) : bool :=
  (c <? 55296) || ((57343 <? c) && (c <=? 1114111)).

Definition encodable (s : str) : bool := forallb is_scalar s.

(** The number of bytes of [s] in UTF-8. *)
Definition utf8_length (s : str) : N :=
  fold_right (fun c n => (if c <? 128 then 1 else if c <? 2048 then 2
                          else if c <? 65536 then 3 else 4) + n) 0 s.

(** Exceptions the modelled code meets.  All of them derive from Python's
    [Exception]. *)
Inductive exception : Type :=
| CalledProcessError
| TimeoutExpired
| OSError
| URLError
| UnicodeDecodeError
| UnicodeEncodeError
| ValueError
| TemplateError               (* re.error, or IndexError for an unknown group name *)
| Exception_ (msg : string).

Inductive result (A : Type) : Type :=
| Ok (a : A)
| Raise (e : exception).
Arguments Ok {A} a.
Arguments Raise {A} e.

Definition bind {A B} (r : result A) (k : A -> result B) : result B :=
  match r with Ok a => k a | Raise e => Raise e end.

Notation "'try!' x <- r 'in' k" := (bind r (fun x => k))
  (at level 10, x name, r at level 100, k at level 200).

(** ** Character classes of [re] on [str] patterns *)

Module Re.

(** [\s]: Unicode white space, as [str.isspace]. *)
Definition is_space (c : N) : bool :=
  ((9 <=? c) && (c <=? 13)) || ((28 <=? c) && (c <=? 32))
  || (c =? 133) || (c =? 160) || (c =? 5760)
  || ((8192 <=? c) && (c <=? 8202))
  || (c =? 8232) || (c =? 8233) || (c =? 8239) || (c =? 8287)
  || (c =? 12288).

(** [\S] *)
Definition not_space (c : N) : bool := negb (is_space c).

(** [.] without DOTALL: anything but a newline. *)
Definition dot (c : N) : bool := negb (c =? nl).

(** Code points of the digit zero of every decimal script (category Nd,
    Unicode 14, the table of CPython 3.11); the nine code points after each
    are its digits one to nine. *)
Definition decimal_zeros : list N :=
  [48; 1632; 1776; 1984; 2406; 2534; 2662; 2790; 2918; 3046; 3174; 3302;
   3430; 3558; 3664; 3792; 3872; 4160; 4240; 6112; 6160; 6470; 6608; 6784;
   6800; 6992; 7088; 7232; 7248; 42528; 43216; 43264; 43472; 43504; 43600;
   44016; 65296; 66720; 68912; 69734; 69872; 69942; 70096; 70384; 70736;
   70864; 71248; 71360; 71472; 71904; 72016; 72784; 73040; 73120; 92768;
   92864; 93008; 120782; 120792; 120802; 120812; 120822; 123200; 123632;
   125264; 130032].

(** [unicodedata.decimal]: the value of a decimal digit. *)
Definition decimal_value (c : N) : option N :=
  match find (fun z => (z <=? c) && (c <? z + 10)) decimal_zeros with
  | Some z => Some (c - z)
  | None => None
  end.

(** [\d] *)
Definition is_digit (c : N) : bool :=
  match decimal_value c with Some _ => true | None => false end.

(** The longest prefix whose characters satisfy [p], and what follows it:
    what a greedy [p*] consumes. *)
Fixpoint take_while (p : N -> bool) (s : str) : str :=
  match s with
  | c :: t => if p c then c :: take_while p t else []
  | [] => []
  end.

Fixpoint skip (p : N -> bool) (s : str) : str :=
  match s with
  | c :: t => if p c then skip p t else s
  | [] => []
  end.

(** A literal at the head of the text. *)
Fixpoint strip_prefix (k s : str) : option str :=
  match k, s with
  | [], _ => Some s
  | a :: k', c :: t => if a =? c then strip_prefix k' t else None
  | _ :: _, [] => None
  end.

(** [key\s+] at the head of the text: the white space consumed (all of it,
    the quantifier is greedy) and the rest.  No pattern below can match after
    a shorter run, since what follows [\s+] in each of them either cannot
    start with white space or accepts anything. *)
Definition key_ws (key s : str) : option (str * str) :=
  match strip_prefix key s with
  | Some (c :: t) =>
      if is_space c then Some (take_while is_space (c :: t), skip is_space (c :: t))
      else None
  | _ => None
  end.

(** [key\s+(\S+)] at the head of the text: group 1. *)
Definition field_word (key s : str) : option str :=
  match key_ws key s with
  | Some (_, r) =>
      match take_while not_space r with
      | [] => None
      | g => Some g
      end
  | None => None
  end.

(** [key\s+(\d+)] at the head of the text: group 1. *)
Definition field_digits (key s : str) : option str :=
  match key_ws key s with
  | Some (_, r) =>
      match take_while is_digit r with
      | [] => None
      | g => Some g
      end
  | None => None
  end.

(** [re.search(r'^...', s, re.MULTILINE)] for a pattern [m] anchored with
    [^]: the leftmost position at the start of the text or just after a
    newline where [m] matches.  [bol] says whether the current position is
    such a position. *)
Fixpoint search_from (m : str -> option str) (bol : bool) (s : str) : option str :=
  match s with
  | [] => None
  | c :: t =>
      match (if bol then m s else None) with
      | Some g => Some g
      | None => search_from m (c =? nl) t
      end
  end.

Definition search (m : str -> option str) (s : str) : option str :=
  search_from m true s.

End Re.

(** ** Built-ins on strings *)

(** [str.strip()] *)
Definition py_strip (s : str) : str :=
  rev (Re.skip Re.is_space (rev (Re.skip Re.is_space s))).

(** [str.startswith] *)
Definition startswith (s prefix : str) : bool :=
  match Re.strip_prefix prefix s with Some _ => true | None => false end.

(** [sys.get_int_max_str_digits()] of CPython 3.11 and later. *)
Definition int_max_str_digits : nat := 4300.

(** The digits of an [int] literal: decimal digits of any script, with single
    underscores between them; the value and the number of digits. *)
Fixpoint int_digits (acc : N) (count : nat) (after_digit : bool) (ds : str)
    : result (N * nat) :=
  match ds with
  | [] => if after_digit then Ok (acc, count) else Raise ValueError
  | d :: t =>
      if d =? 95 then                                   (* underscore *)
        if after_digit then int_digits acc count false t else Raise ValueError
      else
        match Re.decimal_value d with
        | Some v => int_digits (10 * acc + v) (S count) true t
        | None => Raise ValueError
        end
  end.

(** [int(s)], base ten: white space around, an optional sign, then the
    digits; [ValueError] otherwise and beyond the digit limit. *)
Definition py_int (s : str) : result Z :=
  let body := py_strip s in
  let '(negative, ds) :=
    match body with
    | c :: t => if c =? 45 then (true, t) else if c =? 43 then (false, t) else (false, body)
    | [] => (false, body)
    end in
  try! r <- int_digits 0 0 false ds in
  let '(n, count) := r in
  if (int_max_str_digits <? count)%nat then Raise ValueError
  else Ok (if negative then (- Z.of_N n)%Z else Z.of_N n).

(** The decimal digits of a positive number. *)
Fixpoint digits_of_uint (d : Decimal.uint) : str :=
  match d with
  | Decimal.Nil => []
  | Decimal.D0 d => 48 :: digits_of_uint d
  | Decimal.D1 d => 49 :: digits_of_uint d
  | Decimal.D2 d => 50 :: digits_of_uint d
  | Decimal.D3 d => 51 :: digits_of_uint d
  | Decimal.D4 d => 52 :: digits_of_uint d
  | Decimal.D5 d => 53 :: digits_of_uint d
  | Decimal.D6 d => 54 :: digits_of_uint d
  | Decimal.D7 d => 55 :: digits_of_uint d
  | Decimal.D8 d => 56 :: digits_of_uint d
  | Decimal.D9 d => 57 :: digits_of_uint d
  end.

(** The decimal representation of an [int]. *)
Definition str_of_int (n : Z) : str :=
  match n with
  | Z0 => [48]
  | Zpos p => digits_of_uint (Pos.to_uint p)
  | Zneg p => 45 :: digits_of_uint (Pos.to_uint p)
  end.

(** The conversion of an [int] to decimal is refused as [int] of a string is:
    beyond [int_max_str_digits] digits. *)
Definition beyond_str_digits (n : Z) : bool :=
  (10 ^ Z.of_nat int_max_str_digits <=? Z.abs n)%Z.

(** [str(n)], and [n] formatted in an f-string. *)
Definition py_str (n : Z) : result str :=
  if beyond_str_digits n then Raise ValueError else Ok (str_of_int n).

(** ** Release-number resolver: [get_copr_release_number] *)

Module Copr.

(** What running [curl -s -f -L url] amounts to: how long it runs, its exit
    status, and its standard output decoded as UTF-8 ([None] when
    [decode('utf-8')] raises).  [CurlSpawnError] is [subprocess.run] failing to
    start the program. *)
Inductive curl_run : Type :=
| CurlRan (seconds : N) (exit_status : N) (stdout : option str)
| CurlSpawnError.

(** What [urlopen(req, timeout=10)] and [response.read()] amount to: the
    longest time a socket operation blocks, and either an error or the body
    decoded as UTF-8. *)
Inductive urlopen_run : Type :=
| UrlAnswered (blocked_seconds : N) (body : option str)
| UrlFailed.

(** The outside world of one call. *)
Record distgit : Type := {
  which_curl : bool;          (* shutil.which('curl') *)
  curl : curl_run;
  urlopen : urlopen_run;
}.

(** Both fetches pass [timeout=10]. *)
Definition timeout : N := 10.

(** [subprocess.run([...], capture_output=True, timeout=10, check=True)]
    followed by [result.stdout.decode('utf-8')]. *)
Definition run_curl (c : curl_run) : result str :=
  match c with
  | CurlSpawnError => Raise OSError
  | CurlRan seconds exit_status stdout =>
      if timeout <? seconds then Raise TimeoutExpired
      else if negb (exit_status =? 0) then Raise CalledProcessError
      else match stdout with
           | Some content => Ok content
           | None => Raise UnicodeDecodeError
           end
  end.

(** The [with urllib.request.urlopen(req, timeout=10)] block. *)
Definition run_urlopen (u : urlopen_run) : result str :=
  match u with
  | UrlFailed => Raise URLError
  | UrlAnswered blocked_seconds body =>
      if timeout <? blocked_seconds then Raise TimeoutExpired
      else match body with
           | None => Raise UnicodeDecodeError
           | Some content =>
               if startswith content (lit "<!doctype html>")
                  || startswith content (lit "<html")
               then Raise (Exception_ "Received HTML (bot protection), install curl for better results")
               else Ok content
           end
  end.

(** The fetch at the head of the [try] block: [curl] when it is installed,
    [urllib] otherwise.  The inner handler turns the two [subprocess]
    exceptions into a plain [Exception]. *)
Definition fetch_spec (w : distgit) : result str :=
  if which_curl w then
    match run_curl (curl w) with
    | Raise CalledProcessError | Raise TimeoutExpired => Raise (Exception_ "curl failed")
    | r => r
    end
  else run_urlopen (urlopen w).

(** [re.search(r'^Version:\s+(\S+)', content, re.MULTILINE)], group 1. *)
Definition version_match (content : str) : option str :=
  Re.search (Re.field_word (lit "Version:")) content.

(** [re.search(r'^Release:\s+(\d+)', content, re.MULTILINE)], group 1. *)
Definition release_match (content : str) : option str :=
  Re.search (Re.field_digits (lit "Release:")) content.

(** The body of the [try] block.  The line printed before [return]
    (lines 442 and 446) formats both release numbers, which raises for a
    number beyond the digit limit. *)
Definition resolve (w : distgit) (version : str) : result Z :=
  try! content <- fetch_spec w in
  match version_match content, release_match content with
  | Some vm, Some rm =>
      let prev_version := py_strip vm in
      try! prev_release <- py_int rm in
      let next_release :=
        if decide (prev_version = version) then (prev_release + 1)%Z else 1%Z in
      try! shown_prev <- py_str prev_release in
      try! shown_next <- py_str next_release in
      Ok next_release
  | _, _ => Ok 1%Z
  end.

(** The function: [except Exception] returns 1. *)
Definition get_copr_release_number (w : distgit) (version : str) : result Z :=
  match resolve w version with
  | Ok n => Ok n
  | Raise _ => Ok 1%Z
  end.

(** *** The contract of section 4.6, in its own words *)

(** The spec file as fetched, when the fetch neither fails nor times out.
    With [curl]: its output, when it ends within the 10 seconds with exit
    status 0 and its output is UTF-8.  Without: the body of the answer, when
    no socket operation takes more than the 10 seconds, the body is UTF-8
    and it is not an HTML page. *)
Definition fetched (w : distgit) : option str :=
  if which_curl w then
    match curl w with
    | CurlRan seconds 0 (Some content) =>
        if seconds <=? 10 then Some content else None
    | _ => None
    end
  else
    match urlopen w with
    | UrlAnswered blocked_seconds (Some content) =>
        if (blocked_seconds <=? 10)
           && negb (startswith content (lit "<!doctype html>"))
           && negb (startswith content (lit "<html"))
        then Some content else None
    | _ => None
    end.

(** The [Version] field parsed from a spec file. *)
Definition parsed_version (content : str) : option str :=
  match version_match content with
  | Some vm => Some (py_strip vm)
  | None => None
  end.

(** The [Release] field parsed from a spec file, as a number. *)
Definition parsed_release (content : str) : option Z :=
  match release_match content with
  | Some rm => match py_int rm with Ok n => Some n | Raise _ => None end
  | None => None
  end.

(** "If both fields are found and the parsed version equals the requested
    version, returns parsedRelease + 1; if versions differ, returns 1; if
    fetch fails, times out, or fields cannot be parsed, returns 1." *)
Definition contract (spec_file : option str) (requested : str) : Z :=
  match spec_file with
  | None => 1%Z
  | Some content =>
      match parsed_version content, parsed_release content with
      | Some v, Some r => if decide (v = requested) then (r + 1)%Z else 1%Z
      | _, _ => 1%Z
      end
  end.

(** The contract as the code keeps it: the parsed release plus 1 when that
    number can still be printed, 1 when it is beyond the digit limit. *)
Definition contract_within_digits (spec_file : option str) (requested : str) : Z :=
  match spec_file with
  | None => 1%Z
  | Some content =>
      match parsed_version content, parsed_release content with
      | Some v, Some r =>
          if decide (v = requested)
          then if beyond_str_digits (r + 1) then 1%Z else (r + 1)%Z
          else 1%Z
      | _, _ => 1%Z
      end
  end.

End Copr.

(** ** The driver: [main] up to the choice of what to build and where *)

Module Driver.

(** The namespace [parser.parse_args()] returns.  An option that was not given
    is [None] (strings) or [false] ([store_true] flags). *)
Record args : Type := {
  version : option str;           (* positional, nargs='?' *)
  version_opt : option str;       (* -v / --version-arg *)
  output : option str;            (* -o / --output *)
  github_latest : bool;
  skip_main_source : bool;
  skip_plugins : bool;
  skip_deps : bool;
  only_main_source : bool;
  only_plugins : bool;
  only_deps : bool;
  copr : bool;
  no_update_spec : bool;
}.

(** What the GitHub tags endpoint answers: a failure of [urlopen] or of
    [json.loads], or the list of tag objects, each reduced to its ['name']
    ([None] when the key is missing). *)
Inductive tags_answer : Type :=
| TagsFailed
| Tags (data : list (option str)).

(** The local [package.json]: missing, unreadable (an exception inside the
    [try]), or parsed, reduced to its ['version']. *)
Inductive manifest : Type :=
| NoManifest
| BadManifest
| Manifest (version_field : option str).

Record world : Type := {
  github_tags : tags_answer;
  package_json : manifest;
  environ : gmap str str;
}.

(** A run either goes on with a value or ends in [sys.exit(status)]. *)
Inductive run (A : Type) : Type :=
| Goes_on (a : A)
| Sys_exit (status : N).
Arguments Goes_on {A} a.
Arguments Sys_exit {A} status.

(** [a or b] on optional strings. *)
Definition py_or (a b : option str) : option str :=
  if truthy_opt a then a else b.

(** [s.lstrip('v')] *)
Definition lstrip_v (s : str) : str := Re.skip (N.eqb 118) s.

Definition get_latest_github_version (w : world) : option str :=
  match github_tags w with
  | TagsFailed => None
  | Tags [] => None
  | Tags (first :: _) =>
      let tag := default [] first in      (* data[0].get('name', '') *)
      if truthy tag then Some (lstrip_v tag) else None
  end.

Definition get_version_from_local (w : world) : option str :=
  match package_json w with
  | Manifest version_field => version_field
  | NoManifest | BadManifest => None
  end.

(** [if not version: ... sys.exit(1)] after a source was asked for one. *)
Definition or_exit (found : option str) : run str :=
  match found with
  | Some v => if truthy v then Goes_on v else Sys_exit 1
  | None => Sys_exit 1
  end.

(** Lines 556-578 of [main]. *)
Definition resolve_version (a : args) (w : world) : run str :=
  let version := py_or (version_opt a) (version a) in
  if negb (truthy_opt version) then
    if github_latest a then or_exit (get_latest_github_version w)
    else or_exit (get_version_from_local w)
  else Goes_on (default [] version).

(** Lines 580-597 of [main]: [(gen_main, gen_plugins, gen_deps)]. *)
Definition generation (a : args) : bool * bool * bool :=
  if only_main_source a then (true, false, false)
  else if only_plugins a then (false, true, false)
  else if only_deps a then (false, false, true)
  else (negb (skip_main_source a), negb (skip_plugins a), negb (skip_deps a)).

(** [os.environ.get(key, default)] *)
Definition environ_get (w : world) (key : str) (dflt : str) : str :=
  default dflt (environ w !! key).

(** Lines 601-608 of [main]: the output directory before [.resolve()]. *)
Definition output_dir (a : args) (w : world) : str :=
  if truthy_opt (output a) then default [] (output a)
  else if copr a then
    environ_get w (lit "COPR_RESULTDIR")
      (environ_get w (lit "resultdir") (lit "/workdir/rpm"))
  else lit ".".

(** *** The contract of section 4.1, in its own words *)

(** The explicitly supplied version, if there is one: the flag's, else the
    positional one. *)
Definition explicit (a : args) : option str :=
  if truthy_opt (version_opt a) then version_opt a
  else if truthy_opt (version a) then version a
  else None.

End Driver.

(** ** [hashlib.sha256] (FIPS 180-4) on byte strings *)

Abbreviation bytes := (list N).

Module SHA256.

Definition mask : N := 0xFFFFFFFF.
Definition add32 (x y : N) : N := N.land (x + y) mask.
Definition rotr (n x : N) : N :=
  N.land (N.lor (N.shiftr x n) (N.shiftl x (32 - n))) mask.
Definition xor3 (x y z : N) : N := N.lxor (N.lxor x y) z.
Definition Ch (x y z : N) : N := N.lxor (N.land x y) (N.land (N.lxor x mask) z).
Definition Maj (x y z : N) : N := xor3 (N.land x y) (N.land x z) (N.land y z).
Definition Sigma0 (x : N) : N := xor3 (rotr 2 x) (rotr 13 x) (rotr 22 x).
Definition Sigma1 (x : N) : N := xor3 (rotr 6 x) (rotr 11 x) (rotr 25 x).
Definition sigma0 (x : N) : N := xor3 (rotr 7 x) (rotr 18 x) (N.shiftr x 3).
Definition sigma1 (x : N) : N := xor3 (rotr 17 x) (rotr 19 x) (N.shiftr x 10).

(** The first 64 primes. *)
Definition primes : list N :=
  [2; 3; 5; 7; 11; 13; 17; 19; 23; 29; 31; 37; 41; 43; 47; 53; 59; 61; 67; 71;
   73; 79; 83; 89; 97; 101; 103; 107; 109; 113; 127; 131; 137; 139; 149; 151;
   157; 163; 167; 173; 179; 181; 191; 193; 197; 199; 211; 223; 227; 229; 233;
   239; 241; 251; 257; 263; 269; 271; 277; 281; 283; 293; 307; 311].

(** The integer cube root, one bit at a time from bit [b - 1] down. *)
Fixpoint cube_root (b : nat) (n r : N) : N :=
  match b with
  | O => r
  | S b' =>
      let r' := r + N.shiftl 1 (N.of_nat b') in
      cube_root b' n (if r' * r' * r' <=? n then r' else r)
  end.

(** The round constants: the first 32 bits of the fractional parts of the
    cube roots of the first 64 primes. *)
Definition K : list N :=
  map (fun p => N.land (cube_root 36 (N.shiftl p 96) 0) mask) primes.

(** The initial hash value: the same of the square roots of the first 8. *)
Definition H0 : list N :=
  map (fun p => N.land (N.sqrt (N.shiftl p 64)) mask) (firstn 8 primes).

(** The message, a one bit, zeros up to 56 modulo 64, the bit length on eight
    bytes. *)
Definition be64 (n : N) : bytes :=
  map (fun i => N.land (N.shiftr n (8 * i)) 0xFF) [7; 6; 5; 4; 3; 2; 1; 0].

Definition pad (msg : bytes) : bytes :=
  let len := N.of_nat (length msg) in
  let zeros := (64 - (len + 9) mod 64) mod 64 in
  msg ++ [0x80] ++ repeat 0 (N.to_nat zeros) ++ be64 (8 * len).

(** Big-endian 32-bit words of a byte string. *)
Fixpoint words (n : nat) (b : bytes) : list N :=
  match n, b with
  | S n', b0 :: b1 :: b2 :: b3 :: t =>
      (N.shiftl b0 24 + N.shiftl b1 16 + N.shiftl b2 8 + b3) :: words n' t
  | _, _ => []
  end.

(** The message schedule, newest word first. *)
Fixpoint schedule (n : nat) (w : list N) : list N :=
  match n with
  | O => w
  | S n' =>
      let x := add32 (add32 (sigma1 (nth 1 w 0)) (nth 6 w 0))
                     (add32 (sigma0 (nth 14 w 0)) (nth 15 w 0)) in
      schedule n' (x :: w)
  end.

Definition round (s : list N) (kw : N * N) : list N :=
  match s with
  | [a; b; c; d; e; f; g; h] =>
      let t1 := add32 (add32 (add32 h (Sigma1 e)) (Ch e f g)) (add32 (fst kw) (snd kw)) in
      let t2 := add32 (Sigma0 a) (Maj a b c) in
      [add32 t1 t2; a; b; c; add32 d t1; e; f; g]
  | _ => s
  end.

Definition compress (h : list N) (block : bytes) : list N :=
  let w := rev (schedule 48 (rev (words 16 block))) in
  let s := fold_left round (combine K w) h in
  map (fun p => add32 (fst p) (snd p)) (combine h s).

Fixpoint blocks (n : nat) (h : list N) (b : bytes) : list N :=
  match n with
  | O => h
  | S n' => blocks n' (compress h (firstn 64 b)) (skipn 64 b)
  end.

Definition digest (msg : bytes) : list N :=
  let p := pad msg in
  blocks (length p / 64) H0 p.

Definition hex_digit (d : N) : N := if d <? 10 then 48 + d else 87 + d.

Definition hex_word (w : N) : str :=
  map (fun i => hex_digit (N.land (N.shiftr w (4 * i)) 15)) [7; 6; 5; 4; 3; 2; 1; 0].

(** [hashlib.sha256(msg).hexdigest()] *)
Definition hexdigest (msg : bytes) : str := concat (map hex_word (digest msg)).

End SHA256.

(** ** Downloads: [verify_sha256], [download_file], [clone_git_repo],
       [download_dependencies] *)

Module Fetch.

(** A [pathlib.Path] by its parts, as [PurePosixPath.parts] gives them: the
    root (["/"], or ["//"] for exactly two leading slashes) when the path is
    absolute, then the names between the slashes; empty names and ["."] are
    dropped, [".."] is kept. *)
Abbreviation path := (list str).

(** [s.split('/')]; [cur] holds the name being read, backwards. *)
Fixpoint split_slash (cur : str) (s : str) : list str :=
  match s with
  | [] => [rev cur]
  | c :: t => if c =? 47 then rev cur :: split_slash [] t else split_slash (c :: cur) t
  end.

(** The names of an operand. *)
Definition names (s : str) : list str :=
  List.filter (fun x => negb (bool_decide (x = [])) && negb (bool_decide (x = lit ".")))
              (split_slash [] s).

(** The root of an operand, if it is absolute. *)
Definition root (s : str) : option str :=
  match s with
  | 47 :: 47 :: 47 :: _ => Some (lit "/")
  | 47 :: 47 :: _ => Some (lit "//")
  | 47 :: _ => Some (lit "/")
  | _ => None
  end.

(** [p / s]: an absolute operand replaces the path, an empty one leaves it
    as it is. *)
Definition join (p : path) (s : str) : path :=
  match root s with
  | Some r => r :: names s
  | None => p ++ names s
  end.

(** A subprocess the script runs on a git destination. *)
Inductive git_cmd : Type :=
| GitClone (url : str) (dest : path)               (* git clone --depth 1 url dest *)
| GitFetch (dest : path) (commit : str)            (* git -C dest fetch --depth 1 origin commit *)
| GitCheckout (dest : path) (commit : str).        (* git -C dest checkout commit *)

(** The part of the machine the downloads read and write.
    - [files]: the regular files and their content;
    - [trees]: the directories git was asked to clone into, with whether
      they hold a [.git] entry; what else a clone puts there is not recorded;
    - [requests]: the URLs given to [urlopen] so far, latest first;
    - [git_runs]: the git subprocesses run so far, latest first.
    A directory is there when a file or a work tree is at or below it; the
    directories [mkdir] makes on the way to a destination are not recorded.
    What the model leaves out is the file system refusing a call: a regular
    file where a directory is needed, a directory where a file is to be
    written, permissions.  The script has no handler for most of these. *)
Record state : Type := {
  files : gmap path bytes;
  trees : gmap path bool;
  requests : list str;
  git_runs : list git_cmd;
}.

(** What one [urlopen(url)] followed by [response.read()] gives. *)
Inductive http_answer : Type :=
| ConnectFailed          (* urlopen raises: no connection, HTTP error, bad URL *)
| ReadFailed             (* the response arrives, read() raises *)
| Body (content : bytes).

(** What one [subprocess.run([git ...], check=True)] gives. *)
Inductive git_answer : Type :=
| GitDone                (* exit status 0 *)
| GitNonZero             (* CalledProcessError *)
| GitSpawnFailed.        (* any other exception, e.g. git is not installed *)

(** The outside world: answers may depend on how many requests (git runs)
    came before, so that a second attempt may meet a different answer. *)
Record net : Type := {
  http : nat -> str -> http_answer;
  git : nat -> git_cmd -> git_answer;
}.

(** [verify_sha256(filepath, expected_sha256)] on the content of the file. *)
Definition verify_sha256 (content : bytes) (expected_sha256 : str) : bool :=
  bool_decide (SHA256.hexdigest content = expected_sha256).

(** [dest_path.unlink()] and [open(dest_path, 'wb')] with a write. *)
Definition unlink (p : path) (st : state) : state :=
  {| files := delete p (files st); trees := trees st;
     requests := requests st; git_runs := git_runs st |}.

Definition write (p : path) (content : bytes) (st : state) : state :=
  {| files := <[p := content]> (files st); trees := trees st;
     requests := requests st; git_runs := git_runs st |}.

Definition log_request (url : str) (st : state) : state :=
  {| files := files st; trees := trees st;
     requests := url :: requests st; git_runs := git_runs st |}.

(** [dest_path.exists()] for a download destination. *)
Definition file_exists (p : path) (st : state) : bool :=
  bool_decide (is_Some (files st !! p)).

(** The handler of [download_file]: [if dest_path.exists(): dest_path.unlink()]. *)
Definition discard (p : path) (st : state) : state :=
  if file_exists p st then unlink p st else st.

(** The [try] block of [download_file] with its handler (lines 111-132). *)
Definition download (w : net) (url : str) (dest_path : path)
    (expected_sha256 : option str) (st : state) : bool * state :=
  let answer := http w (length (requests st)) url in
  let st := log_request url st in
  match answer with
  | ConnectFailed => (false, discard dest_path st)
  | ReadFailed =>
      (* open(dest_path, 'wb') has made the file empty before read() raises *)
      (false, discard dest_path (write dest_path [] st))
  | Body content =>
      let st := write dest_path content st in
      match expected_sha256 with
      | Some sha =>
          if truthy sha then
            if verify_sha256 content sha then (true, st)
            else (false, unlink dest_path st)
          else (true, st)
      | None => (true, st)
      end
  end.

(** [download_file(url, dest_path, expected_sha256=None)].  The [mkdir] of
    the parent directory leaves no trace in the state: directories are
    implicit in [files]. *)
Definition download_file (w : net) (url : str) (dest_path : path)
    (expected_sha256 : option str) (st : state) : bool * state :=
  match files st !! dest_path with
  | Some content =>
      if truthy_opt expected_sha256
         && verify_sha256 content (default [] expected_sha256)
      then (true, st)                                   (* Already downloaded *)
      else if negb (truthy_opt expected_sha256)
      then (true, st)                                   (* Already exists *)
      else download w url dest_path expected_sha256 (unlink dest_path st)
  | None => download w url dest_path expected_sha256 st
  end.

(** [dest_path.exists()] for a directory: something is at [p] or below it. *)
Definition dir_exists (p : path) (st : state) : bool :=
  bool_decide (filter (fun kv => p `prefix_of` kv.1) (files st) <> ∅
               \/ filter (fun kv => p `prefix_of` kv.1) (trees st) <> ∅).

(** [shutil.rmtree(dest_path)]: all that is at [p] or below it goes. *)
Definition rmtree (p : path) (st : state) : state :=
  {| files := filter (fun kv => ~ p `prefix_of` kv.1) (files st);
     trees := filter (fun kv => ~ p `prefix_of` kv.1) (trees st);
     requests := requests st; git_runs := git_runs st |}.

(** [if dest_path.exists(): shutil.rmtree(dest_path)] *)
Definition rmtree_if_exists (p : path) (st : state) : state :=
  if dir_exists p st then rmtree p st else st.

(** One [subprocess.run]: the run is recorded; a successful [git clone]
    leaves a work tree with its [.git]. *)
Definition run_git (w : net) (cmd : git_cmd) (st : state) : git_answer * state :=
  let answer := git w (length (git_runs st)) cmd in
  let trees' :=
    match cmd, answer with
    | GitClone _ dest, GitDone => <[dest := true]> (trees st)
    | _, _ => trees st
    end in
  (answer, {| files := files st; trees := trees';
              requests := requests st; git_runs := cmd :: git_runs st |}).

(** The two handlers of [clone_git_repo]: [CalledProcessError] removes the
    destination, any other exception leaves it. *)
Definition clone_failed (answer : git_answer) (dest_path : path) (st : state) : bool * state :=
  match answer with
  | GitNonZero => (false, rmtree_if_exists dest_path st)
  | _ => (false, st)
  end.

(** [clone_git_repo(url, commit, dest_path)] *)
Definition clone_git_repo (w : net) (url commit : str) (dest_path : path)
    (st : state) : bool * state :=
  match trees st !! dest_path with
  | Some true => (true, st)                              (* Already cloned *)
  | _ =>
      let st := rmtree_if_exists dest_path st in         (* partial clone *)
      let '(a1, st) := run_git w (GitClone url dest_path) st in
      match a1 with
      | GitDone =>
          let '(a2, st) := run_git w (GitFetch dest_path commit) st in
          match a2 with
          | GitDone =>
              let '(a3, st) := run_git w (GitCheckout dest_path commit) st in
              match a3 with
              | GitDone => (true, st)
              | _ => clone_failed a3 dest_path st
              end
          | _ => clone_failed a2 dest_path st
          end
      | _ => clone_failed a1 dest_path st
      end
  end.

(** One entry of the sources JSON: what [source.get(key)] finds for the keys
    the pass reads ([None]: the key is missing). *)
Record source : Type := {
  type_ : option str;
  url : option str;
  commit : option str;
  dest : option str;
  dest_filename : option str;
  sha256 : option str;
  only_arches : option (list str);
}.

(** The four counters of the pass, printed in its summary. *)
Record counters : Type := {
  success_count : nat;
  skip_count : nat;
  fail_count : nat;
  git_count : nat;
}.

Definition no_counts : counters :=
  {| success_count := 0; skip_count := 0; fail_count := 0; git_count := 0 |}.

Definition count_git (c : counters) : counters :=
  {| success_count := S (success_count c); skip_count := skip_count c;
     fail_count := fail_count c; git_count := S (git_count c) |}.
Definition count_success (c : counters) : counters :=
  {| success_count := S (success_count c); skip_count := skip_count c;
     fail_count := fail_count c; git_count := git_count c |}.
Definition count_skip (c : counters) : counters :=
  {| success_count := success_count c; skip_count := S (skip_count c);
     fail_count := fail_count c; git_count := git_count c |}.
Definition count_fail (c : counters) : counters :=
  {| success_count := success_count c; skip_count := skip_count c;
     fail_count := S (fail_count c); git_count := git_count c |}.

(** [arches = ['x86_64', 'aarch64']] *)
Definition arches : list str := [lit "x86_64"; lit "aarch64"].

(** [[arch for arch in arches if arch in only_arches]] *)
Definition matching_arches (only : list str) : list str :=
  filter (fun arch => arch ∈ only) arches.

(** [output_dir / dest] and [output_dir / dest_subdir / dest_filename], the
    missing [dest] of a file entry being [''].  *)
Definition git_dest (output_dir : path) (source : source) : path :=
  join output_dir (default [] (dest source)).

Definition file_dest (output_dir : path) (source : source) : path :=
  join (join output_dir (default [] (dest source)))
       (default [] (dest_filename source)).

(** The body of the [for source in sources] loop (lines 214-262). *)
Definition visit (w : net) (output_dir : path) (acc : counters * state)
    (source : source) : counters * state :=
  let '(c, st) := acc in
  if decide (type_ source = Some (lit "git")) then
    if negb (truthy_opt (url source)) || negb (truthy_opt (commit source))
       || negb (truthy_opt (dest source))
    then (c, st)                                                  (* continue *)
    else
      let '(ok, st) := clone_git_repo w (default [] (url source))
                         (default [] (commit source))
                         (git_dest output_dir source) st in
      if ok then (count_git c, st) else (count_fail c, st)
  else if decide (type_ source = Some (lit "file")) then
    let only := default [] (only_arches source) in
    match only, matching_arches only with
    | _ :: _, [] => (count_skip c, st)                            (* continue *)
    | _, _ =>
        if negb (truthy_opt (url source)) || negb (truthy_opt (dest_filename source))
        then (c, st)                                              (* continue *)
        else
          let '(ok, st) := download_file w (default [] (url source))
                             (file_dest output_dir source) (sha256 source) st in
          if ok then (count_success c, st) else (count_fail c, st)
    end
  else (c, st).

(** The loop from a given point on. *)
Definition visit_all (w : net) (output_dir : path) (sources : list source)
    (acc : counters * state) : counters * state :=
  fold_left (visit w output_dir) sources acc.

(** [download_dependencies(sources_json, output_dir)], on the parsed sources:
    its return value, the counters of its summary and the state it leaves. *)
Definition download_dependencies (w : net) (sources : list source)
    (output_dir : path) (st : state) : bool * counters * state :=
  let '(c, st) := visit_all w output_dir sources (no_counts, st) in
  (if (0 <? fail_count c)%nat then false else true, c, st).

(** *** Section 4.4, in its own words *)

(** A [git] entry with its [url], [commit] and [dest]; a [file] entry with its
    [url] and [dest-filename].  Any other entry is passed over. *)
Definition wellformed_git (d : source) : bool :=
  bool_decide (type_ d = Some (lit "git"))
  && truthy_opt (url d) && truthy_opt (commit d) && truthy_opt (dest d).

Definition wellformed_file (d : source) : bool :=
  bool_decide (type_ d = Some (lit "file"))
  && truthy_opt (url d) && truthy_opt (dest_filename d).

(** A [file] entry that declares [only-arches] and has neither target
    architecture in it. *)
Definition skipped_for_arch (d : source) : bool :=
  bool_decide (type_ d = Some (lit "file"))
  && match only_arches d with
     | Some (a :: l) =>
         bool_decide (lit "x86_64" ∉ a :: l) && bool_decide (lit "aarch64" ∉ a :: l)
     | _ => false
     end.

(** The entries the pass has something to do or to count for. *)
Definition actionable (d : source) : bool :=
  wellformed_git d || skipped_for_arch d || wellformed_file d.




End Fetch.

(** ** Spec-file updater: [update_spec_file] *)

Module SpecFile.

(** *** [re.sub] with a replacement template *)

(** A parsed replacement: literal characters and references to the whole
    match.  The patterns of the script have no group, so [\g<0>] is the only
    reference there can be. *)
Inductive item : Type :=
| Literal (c : N)
| Whole_match.

Definition is_octal (c : N) : bool := (48 <=? c) && (c <=? 55).
Definition is_ascii_digit (c : N) : bool := (48 <=? c) && (c <=? 57).
Definition is_ascii_letter (c : N) : bool :=
  ((65 <=? c) && (c <=? 90)) || ((97 <=? c) && (c <=? 122)).

(** The escapes of a template that stand for one character. *)
Definition escape (c : N) : option N :=
  if c =? 97 then Some 7            (* \a *)
  else if c =? 98 then Some 8       (* \b *)
  else if c =? 102 then Some 12     (* \f *)
  else if c =? 110 then Some 10     (* \n *)
  else if c =? 114 then Some 13     (* \r *)
  else if c =? 116 then Some 9      (* \t *)
  else if c =? 118 then Some 11     (* \v *)
  else if c =? 92 then Some 92      (* \\ *)
  else None.

(** [re._parser.parse_template] for a pattern without groups.  [fuel] bounds
    the number of tokens; the length of the template is enough. *)
Fixpoint parse_template (fuel : nat) (s : str) : result (list item) :=
  match fuel with
  | O => Ok []
  | S fuel =>
      match s with
      | [] => Ok []
      | c :: t =>
          if negb (c =? backslash) then
            try! items <- parse_template fuel t in Ok (Literal c :: items)
          else
            match t with
            | [] => Raise TemplateError                 (* bad escape (end of pattern) *)
            | e :: t1 =>
                if e =? 103 then                        (* \g<name> *)
                  match t1 with
                  | lt :: t2 =>
                      if negb (lt =? 60) then Raise TemplateError      (* missing < *)
                      else
                        let name := Re.take_while (fun x => negb (x =? 62)) t2 in
                        match name, Re.skip (fun x => negb (x =? 62)) t2 with
                        | [], _ => Raise TemplateError                (* missing group name *)
                        | _, [] => Raise TemplateError                (* missing > *)
                        | _, _ :: t3 =>
                            match py_int name with
                            | Ok 0%Z =>
                                try! items <- parse_template fuel t3 in
                                Ok (Whole_match :: items)
                            | _ => Raise TemplateError   (* unknown or invalid group *)
                            end
                        end
                  | [] => Raise TemplateError                         (* missing < *)
                  end
                else if e =? 48 then                    (* \0, \0o, \0oo *)
                  match t1 with
                  | o1 :: t2 =>
                      if is_octal o1 then
                        match t2 with
                        | o2 :: t3 =>
                            if is_octal o2 then
                              try! items <- parse_template fuel t3 in
                              Ok (Literal (N.land (8 * (o1 - 48) + (o2 - 48)) 255) :: items)
                            else
                              try! items <- parse_template fuel t2 in
                              Ok (Literal (o1 - 48) :: items)
                        | [] => Ok [Literal (o1 - 48)]
                        end
                      else
                        try! items <- parse_template fuel t1 in Ok (Literal 0 :: items)
                  | [] => Ok [Literal 0]
                  end
                else if is_ascii_digit e then           (* \1 .. \9, \oo o *)
                  match t1 with
                  | d2 :: d3 :: t3 =>
                      if is_ascii_digit d2 && is_octal e && is_octal d2 && is_octal d3 then
                        let v := 64 * (e - 48) + 8 * (d2 - 48) + (d3 - 48) in
                        if 255 <? v then Raise TemplateError          (* outside 0-0o377 *)
                        else try! items <- parse_template fuel t3 in Ok (Literal v :: items)
                      else Raise TemplateError                        (* invalid group reference *)
                  | _ => Raise TemplateError                          (* invalid group reference *)
                  end
                else
                  match escape e with
                  | Some x => try! items <- parse_template fuel t1 in Ok (Literal x :: items)
                  | None =>
                      if is_ascii_letter e then Raise TemplateError   (* bad escape *)
                      else try! items <- parse_template fuel t1 in
                           Ok (Literal backslash :: Literal e :: items)
                  end
            end
      end
  end.

(** The replacement for one match. *)
Definition expand (t : list item) (m : str) : str :=
  flat_map (fun i => match i with Literal c => [c] | Whole_match => m end) t.

(** [key\s+.*] at the head of the text, for the pattern [^key\s+.*$]: the
    text matched and the rest.  The greedy [.*] stops at a newline or at the
    end of the text, where [$] holds, so the first try of the matcher
    succeeds. *)
Definition line_match (key s : str) : option (str * str) :=
  match Re.key_ws key s with
  | Some (ws, r) => Some (key ++ ws ++ Re.take_while Re.dot r, Re.skip Re.dot r)
  | None => None
  end.

(** Whether [^] holds after a text [m] has been consumed. *)
Definition ends_line (m : str) : bool :=
  match last m with Some c => c =? nl | None => false end.

(** A value together with the fact that it is the value of [a]. *)
Definition inspect {A} (a : A) : {b : A | a = b} := exist _ a eq_refl.

(** The scan of [re.sub(r'^key\s+.*$', template, s, flags=re.MULTILINE)] from
    a position on: at the start of a line where the pattern matches, the
    match is replaced and the scan goes on after it; anywhere else the
    character is kept. *)
Equations sub_from (key : str) (t : list item) (bol : bool) (s : str) : str
  by wf (length s) lt :=
  sub_from key t bol [] := [];
  sub_from key t bol (c :: s') with inspect (if bol then line_match key (c :: s') else None) := {
    | exist _ (Some (m, r)) Heq := expand t m ++ sub_from key t (ends_line m) r;
    | exist _ None _ := c :: sub_from key t (c =? nl) s' }.
Next Obligation.
  destruct bol; [|discriminate].
  assert (Hk : forall k u v, Re.strip_prefix k u = Some v -> (length v <= length u)%nat).
  { induction k as [|a k IH]; intros [|x u] v Hv; simpl in Hv;
      try discriminate; try (injection Hv as <-; simpl; lia).
    destruct (a =? x); [|discriminate]. apply IH in Hv. simpl. lia. }
  assert (Hs : forall p u, (length (Re.skip p u) <= length u)%nat).
  { intros p u. induction u as [|x u IH]; simpl; [lia|]. destruct (p x); simpl; lia. }
  symmetry in Heq. unfold line_match, Re.key_ws in Heq.
  destruct (Re.strip_prefix key (c :: s')) as [[|x u]|] eqn:Hp; try discriminate.
  destruct (Re.is_space x) eqn:Hx; try discriminate.
  apply Hk in Hp.
  pose proof (Hs Re.dot (Re.skip Re.is_space (x :: u))) as H1.
  assert (H2 : (length (Re.skip Re.is_space (x :: u)) <= length u)%nat).
  { simpl. rewrite Hx. apply Hs. }
  assert (Hr : r = Re.skip Re.dot (Re.skip Re.is_space (x :: u))) by congruence.
  rewrite Hr. simpl length in *. lia.
Qed.

(** [re.sub(r'^key\s+.*$', repl, s, flags=re.MULTILINE)] *)
Definition re_sub (key repl s : str) : result str :=
  try! t <- parse_template (length repl) repl in
  Ok (sub_from key t true s).

(** *** The file *)

(** Reading a text file with Python's default newline handling: ["\r\n"] and
    a lone ["\r"] arrive as ["\n"].  [after_cr] says that the last character
    read was a ["\r"]. *)
Fixpoint universal_newlines (after_cr : bool) (s : str) : str :=
  match s with
  | [] => []
  | c :: t =>
      if c =? cr then nl :: universal_newlines true t
      else if after_cr && (c =? nl) then universal_newlines false t
      else c :: universal_newlines false t
  end.

Definition read_text (on_disk : str) : str := universal_newlines false on_disk.

(** The four substitutions (lines 478-511), each on the result of the one
    before. *)
Definition update_content (content version : str)
    (theia_version electron_version : option str) (release : option Z) : result str :=
  try! content <-
    re_sub (lit "Version:") (lit "Version:        " ++ version) content in
  try! content <-
    match release with
    | Some r =>
        try! digits <- py_str r in
        re_sub (lit "Release:")
               (lit "Release:        " ++ digits ++ lit "%{?dist}") content
    | None => Ok content
    end in
  try! content <-
    (if truthy_opt theia_version then
       re_sub (lit "%global theia_version")
              (lit "%global theia_version " ++ default [] theia_version) content
     else Ok content) in
  if truthy_opt electron_version then
    re_sub (lit "%global electron_version")
           (lit "%global electron_version " ++ default [] electron_version) content
  else Ok content.

(** A value that is only used when it is there and not empty can be
    encoded. *)
Definition encodable_if_used (o : option str) : bool :=
  if truthy_opt o then encodable (default [] o) else true.

(** [update_spec_file(spec_file, version, theia_version, electron_version,
    release)].  [spec_file] is the text on disk at that path, [None] when the
    file does not exist; the result is what is on disk when the call ends,
    and the value returned or the exception that leaves the function.  An
    exception of the substitutions comes before anything is written.  Text
    that cannot be encoded makes [f.write] raise when [open(spec_file, 'w')]
    has emptied the file; a value that cannot be encoded makes the [print]
    that reports it raise when the file is written. *)
Definition update_spec_file (spec_file : option str) (version : str)
    (theia_version electron_version : option str) (release : option Z)
    : option str * result bool :=
  match spec_file with
  | None => (None, Ok false)
  | Some on_disk =>
      let original_content := read_text on_disk in
      match update_content original_content version
              theia_version electron_version release with
      | Raise e => (Some on_disk, Raise e)
      | Ok content =>
          if decide (content = original_content) then (Some on_disk, Ok false)
          else if negb (encodable content) then (Some [], Raise UnicodeEncodeError)
          else (Some content,
                if encodable version && encodable_if_used theia_version
                   && encodable_if_used electron_version
                then Ok true else Raise UnicodeEncodeError)
      end
  end.

(** *** Idempotence, and what its proof speaks of *)

(** Applying the updater to [spec_file] and then to what it left leaves the
    second time the file as it is and returns [False]. *)
Definition idempotent_at (spec_file version : str)
    (theia_version electron_version : option str) (release : option Z) : Prop :=
  exists after changed,
    update_spec_file (Some spec_file) version theia_version electron_version release
      = (Some after, Ok changed)
    /\ update_spec_file (Some after) version theia_version electron_version release
      = (Some after, Ok false).

(** A value that a template takes as it stands and that stays on its line: no
    backslash, no newline, no carriage return, and a character that is not
    white space. *)
Definition plain (v : str) : bool :=
  forallb (fun c => negb (c =? nl) && negb (c =? cr) && negb (c =? backslash)) v
  && existsb Re.not_space v.

(** The same for a value that is only used when it is there and not empty. *)
Definition plain_if_used (o : option str) : bool :=
  match o with
  | Some v => if truthy v then plain v else true
  | None => true
  end.

(** A release number, when one is given, that can be written in decimal. *)
Definition within_str_digits (release : option Z) : bool :=
  match release with
  | Some r => negb (beyond_str_digits r)
  | None => true
  end.

(** The pattern [^key\s+.*$] matches at the head of [s], taken as the start
    of a line. *)
Fixpoint starts (key s : str) : bool :=
  match key, s with
  | [], c :: _ => Re.is_space c
  | [], [] => false
  | a :: k, c :: t => (a =? c) && starts k t
  | _ :: _, [] => false
  end.

(** [s] begins with the line [line], and that line ends there. *)
Definition fits (line s : str) : Prop :=
  exists rest, s = line ++ rest /\ (rest = [] \/ exists r, rest = nl :: r).

(** Every line of [s] at which the pattern of [key] matches is [line]. *)
Fixpoint settled (key line : str) (bol : bool) (s : str) : Prop :=
  match s with
  | [] => True
  | c :: t =>
      (bol = true -> starts key s = true -> fits line s)
      /\ settled key line (c =? nl) t
  end.

(** A key and the line that replaces its matches go together: neither holds
    a newline, and the line is matched by the pattern of the key, whole. *)
Definition well_shaped (key line : str) : Prop :=
  forallb Re.dot key = true
  /\ forallb Re.dot line = true
  /\ line <> []
  /\ forall rest, (rest = [] \/ exists r, rest = nl :: r) ->
       line_match key (line ++ rest) = Some (line, rest).

(** Stages in an order in which no later one writes a line that an earlier
    pattern matches. *)
Fixpoint apart (l : list (str * str)) : Prop :=
  match l with
  | [] => True
  | (key, line) :: l' =>
      well_shaped key line
      /\ Forall (fun st' => forall x, starts key (snd st' ++ x) = false) l'
      /\ apart l'
  end.

(** The characters of [str(n)]. *)
Definition sign_or_digit (c : N) : bool := (c =? 45) || ((48 <=? c) && (c <=? 57)).

(** No character [x] in [s]. *)
Definition free_of (x : N) (s : str) : bool :=
  forallb (fun c => negb (c =? x)) s.

(** The substitutions of one call, in order: the key of each pattern and the
    replacement it is given. *)
Definition stages (version : str) (theia_version electron_version : option str)
    (release : option Z) : list (str * str) :=
  [(lit "Version:", lit "Version:        " ++ version)]
  ++ match release with
     | Some r => [(lit "Release:",
                   lit "Release:        " ++ str_of_int r ++ lit "%{?dist}")]
     | None => []
     end
  ++ (if truthy_opt theia_version
      then [(lit "%global theia_version",
             lit "%global theia_version " ++ default [] theia_version)]
      else [])
  ++ (if truthy_opt electron_version
      then [(lit "%global electron_version",
             lit "%global electron_version " ++ default [] electron_version)]
      else []).

(** One [re.sub] after the other. *)
Fixpoint run_stages (l : list (str * str)) (content : str) : result str :=
  match l with
  | [] => Ok content
  | (key, repl) :: l' =>
      try! content <- re_sub key repl content in run_stages l' content
  end.

(** The scans alone, for replacements that are taken literally. *)
Fixpoint scan_stages (l : list (str * str)) (content : str) : str :=
  match l with
  | [] => content
  | (key, line) :: l' =>
      scan_stages l' (sub_from key (map Literal line) true content)
  end.

End SpecFile.

(** ** Concrete runs *)

Module Scenarios.
Import Fetch.

(** *** Release numbers: the dist-git spec file of section 8 *)

Definition previous_spec : str :=
  lit "Name:           theia-ide
Version:        1.67.100
Release:        3%{?dist}
Summary:        Theia IDE
".

Definition curl_answers : Copr.distgit :=
  {| Copr.which_curl := true;
     Copr.curl := Copr.CurlRan 2 0 (Some previous_spec);
     Copr.urlopen := Copr.UrlFailed |}.

Definition curl_fails : Copr.distgit :=
  {| Copr.which_curl := true;
     Copr.curl := Copr.CurlRan 1 22 None;
     Copr.urlopen := Copr.UrlFailed |}.

Definition curl_hangs : Copr.distgit :=
  {| Copr.which_curl := true;
     Copr.curl := Copr.CurlRan 11 0 (Some previous_spec);
     Copr.urlopen := Copr.UrlFailed |}.

(** A previous build whose release number is 4300 nines: the longest number
    [int] reads. *)
Definition spec_of_nines : str :=
  lit "Version:        1.67.100" ++ [nl]
  ++ lit "Release:        " ++ repeat 57 4300 ++ lit "%{?dist}" ++ [nl].

Definition curl_answers_nines : Copr.distgit :=
  {| Copr.which_curl := true;
     Copr.curl := Copr.CurlRan 2 0 (Some spec_of_nines);
     Copr.urlopen := Copr.UrlFailed |}.

Definition bot_page : Copr.distgit :=
  {| Copr.which_curl := false;
     Copr.curl := Copr.CurlSpawnError;
     Copr.urlopen := Copr.UrlAnswered 1 (Some (lit "<html><body>Checking your browser</body></html>")) |}.

(** *** Downloads *)

Definition deps : path := [lit "theia-ide-deps-1.67.100"].

Definition good : bytes := lit "good".
Definition bad : bytes := lit "bad".
Definition sha_of_good : str :=
  lit "770e607624d689265ca6c44884d0807d9b054d23c473c106c72be9de08b7376c".

Definition file_entry (name : string) (sha : option str) (only : option (list str)) : source :=
  {| type_ := Some (lit "file");
     url := Some (lit "https://registry.example/" ++ lit name);
     commit := None;
     dest := Some (lit "flatpak-node/yarn-mirror");
     dest_filename := Some (lit name);
     sha256 := sha;
     only_arches := only |}.

Definition git_entry : source :=
  {| type_ := Some (lit "git");
     url := Some (lit "https://git.example/repo.git");
     commit := Some (lit "0123456789abcdef0123456789abcdef01234567");
     dest := Some (lit "flatpak-node/git-packages/repo");
     dest_filename := None;
     sha256 := None;
     only_arches := None |}.

Definition nothing_yet : state :=
  {| files := ∅; trees := ∅; requests := []; git_runs := [] |}.

(** A server whose first answer is corrupt and whose later answers are
    sound; git works. *)
Definition corrupt_once : net :=
  {| http := fun n _ => match n with O => Body bad | S _ => Body good end;
     git := fun _ _ => GitDone |}.

(** A server that serves [bad] for [b.tgz] and [good] for anything else. *)
Definition one_corrupt : net :=
  {| http := fun _ u =>
       if decide (u = lit "https://registry.example/b.tgz") then Body bad else Body good;
     git := fun _ _ => GitDone |}.

(** A server that is down. *)
Definition offline : net :=
  {| http := fun _ _ => ConnectFailed; git := fun _ _ => GitNonZero |}.

Definition a_tgz : source := file_entry "a.tgz" (Some sha_of_good) None.
Definition b_tgz : source := file_entry "b.tgz" (Some sha_of_good) None.
Definition c_tgz : source := file_entry "c.tgz" (Some sha_of_good) None.
Definition for_i386 : source :=
  file_entry "electron-i386.zip" (Some sha_of_good) (Some [lit "i386"; lit "arm"]).
Definition for_aarch64 : source :=
  file_entry "electron-arm64.zip" (Some sha_of_good) (Some [lit "aarch64"]).

(** A state in which [a.tgz] is already there, sound, and the repository
    already cloned. *)
Definition already_there : state :=
  {| files := {[ file_dest deps a_tgz := good ]};
     trees := {[ git_dest deps git_entry := true ]};
     requests := []; git_runs := [] |}.

(** A state in which [a.tgz] is there with other content. *)
Definition stale : state :=
  {| files := {[ file_dest deps a_tgz := bad ]};
     trees := ∅; requests := []; git_runs := [] |}.

(** *** The spec file *)

Definition theia_spec : str :=
  lit "%global theia_version 1.66.0
%global electron_version 37.2.1
Name:           theia-ide
Version:        1.66.100
Release:        2%{?dist}
Summary:        Theia IDE
".

Definition theia_spec_updated : str :=
  lit "%global theia_version 1.67.0
%global electron_version 38.4.0
Name:           theia-ide
Version:        1.67.100
Release:        4%{?dist}
Summary:        Theia IDE
".

Definition two_lines : str :=
  lit "Version: 1
Name: x
".

(** *** The driver *)

Definition plain_run : Driver.args :=
  {| Driver.version := None; Driver.version_opt := None; Driver.output := None;
     Driver.github_latest := false;
     Driver.skip_main_source := false; Driver.skip_plugins := false;
     Driver.skip_deps := false;
     Driver.only_main_source := false; Driver.only_plugins := false;
     Driver.only_deps := false;
     Driver.copr := false; Driver.no_update_spec := false |}.

Definition with_versions (positional flag : option str) (latest : bool) : Driver.args :=
  {| Driver.version := positional; Driver.version_opt := flag; Driver.output := None;
     Driver.github_latest := latest;
     Driver.skip_main_source := false; Driver.skip_plugins := false;
     Driver.skip_deps := false;
     Driver.only_main_source := false; Driver.only_plugins := false;
     Driver.only_deps := false;
     Driver.copr := false; Driver.no_update_spec := false |}.

Definition with_flags (only_main only_plugins only_deps skip_main skip_plugins skip_deps : bool)
    : Driver.args :=
  {| Driver.version := None; Driver.version_opt := None; Driver.output := None;
     Driver.github_latest := false;
     Driver.skip_main_source := skip_main; Driver.skip_plugins := skip_plugins;
     Driver.skip_deps := skip_deps;
     Driver.only_main_source := only_main; Driver.only_plugins := only_plugins;
     Driver.only_deps := only_deps;
     Driver.copr := false; Driver.no_update_spec := false |}.

Definition copr_run : Driver.args :=
  {| Driver.version := None; Driver.version_opt := None; Driver.output := None;
     Driver.github_latest := false;
     Driver.skip_main_source := false; Driver.skip_plugins := false;
     Driver.skip_deps := false;
     Driver.only_main_source := false; Driver.only_plugins := false;
     Driver.only_deps := false;
     Driver.copr := true; Driver.no_update_spec := false |}.

Definition checkout (env : gmap str str) : Driver.world :=
  {| Driver.github_tags := Driver.Tags [Some (lit "v1.68.0"); Some (lit "v1.67.100")];
     Driver.package_json := Driver.Manifest (Some (lit "1.67.100"));
     Driver.environ := env |}.

Definition no_version_anywhere : Driver.world :=
  {| Driver.github_tags := Driver.TagsFailed;
     Driver.package_json := Driver.Manifest None;
     Driver.environ := ∅ |}.

(** Versions that are not plain. *)
Definition whole_match_reference : str := lit "\g<0>".
Definition two_line_version : str := [49; 10; 50].
Definition version_with_cr : str := [49; 13].

End Scenarios.

(** ** More of the downloads: what the later sections speak of *)

Module FetchFacts.
Import Fetch.

(** A character of a lower-case hexadecimal numeral. *)
Definition is_lower_hex (c : N) : bool :=
  ((48 <=? c) && (c <=? 57)) || ((97 <=? c) && (c <=? 102)).

(** A file entry the pass downloads: well formed and not skipped. *)
Definition downloadable (d : source) : bool :=
  wellformed_file d && negb (skipped_for_arch d).

(** The counters after an entry that did not fail. *)
Definition tally (d : source) (c : counters) : counters :=
  if wellformed_git d then count_git c
  else if skipped_for_arch d then count_skip c
  else if wellformed_file d then count_success c
  else c.

(** What an entry that did not fail leaves: the work tree with its [.git],
    or the file, with the declared checksum when one is declared. *)
Definition kept (output_dir : path) (d : source) (st : state) : Prop :=
  (wellformed_git d = true -> trees st !! git_dest output_dir d = Some true)
  /\ (downloadable d = true ->
      exists content,
        files st !! file_dest output_dir d = Some content
        /\ (truthy_opt (sha256 d) = true ->
            verify_sha256 content (default [] (sha256 d)) = true)).

(** The destinations the pass writes files to, and those it clones into. *)
Definition file_dests (output_dir : path) (sources : list source) : list path :=
  map (file_dest output_dir) (List.filter downloadable sources).

Definition git_dests (output_dir : path) (sources : list source) : list path :=
  map (git_dest output_dir) (List.filter wellformed_git sources).

(** [q] is at [p] or below it; one of the two is at or below the other. *)
Definition is_prefix (p q : path) : bool := bool_decide (p `prefix_of` q).

Definition in_line (p q : path) : bool := is_prefix p q || is_prefix q p.

(** A part that is the name of one directory entry: not empty, not ["."] or
    [".."], without a slash or a NUL, text that can be encoded and printed,
    of at most 255 bytes. *)
Definition is_name (x : str) : bool :=
  negb (bool_decide (x = [])) && negb (bool_decide (47 ∈ x))
  && negb (bool_decide (0 ∈ x))
  && negb (bool_decide (x = lit ".")) && negb (bool_decide (x = lit ".."))
  && encodable x && (utf8_length x <=? 255).

(** A path that names its place in one way only, and one the system takes:
    from the root ["/"] by such names, shorter than 4096 bytes as a whole. *)
Definition plain_path (p : path) : bool :=
  match p with
  | r :: rest =>
      bool_decide (r = lit "/") && forallb is_name rest
      && (fold_right (fun x n => utf8_length x + 1 + n) 0 rest <? 4096)
  | [] => false
  end.

(** Destinations that keep out of each other's way: each names its place in
    one way only; no two file entries to download go to the same file; no
    destination is at or below another one, two git entries for the same
    directory apart; no file goes where the output directory is. *)
Definition separate (output_dir : path) (sources : list source) : bool :=
  let fs := file_dests output_dir sources in
  let gs := git_dests output_dir sources in
  forallb plain_path (output_dir :: fs ++ gs)
  && bool_decide (NoDup fs)
  && forallb (fun f =>
                forallb (fun f' => bool_decide (f = f') || negb (in_line f f')) fs
                && forallb (fun g => negb (in_line f g)) gs
                && negb (is_prefix f output_dir)) fs
  && forallb (fun g =>
                forallb (fun g' => bool_decide (g = g') || negb (in_line g g')) gs) gs.

(** A state the pass can start from without the file system getting in its
    way, which is what the model leaves out: what is there has plain paths
    and is not at the output directory or above it; a file is at, above or
    below a destination only when it is at the destination of a file entry
    to download; a work tree only when it is at the destination of a git
    entry. *)
Definition fits (output_dir : path) (sources : list source) (st : state) : bool :=
  let fs := file_dests output_dir sources in
  let gs := git_dests output_dir sources in
  forallb (fun q =>
             plain_path q
             && negb (is_prefix q output_dir)
             && forallb (fun d => negb (in_line q d)
                                  || (bool_decide (q = d) && bool_decide (d ∈ fs)))
                        (fs ++ gs))
          (map fst (map_to_list (files st)))
  && forallb (fun q =>
                plain_path q
                && negb (is_prefix q output_dir)
                && forallb (fun d => negb (in_line q d)
                                     || (bool_decide (q = d) && bool_decide (d ∈ gs)))
                           (fs ++ gs))
             (map fst (map_to_list (trees st))).

(** A state in which a clone into [dest] meets nothing the model leaves
    out: what is there has plain paths; no file is at [dest] or above it, or
    at or below its [.git]; no other work tree is above or below [dest]. *)
Definition clear_for_clone (dest : path) (st : state) : bool :=
  plain_path dest
  && forallb (fun q => plain_path q && negb (is_prefix q dest)
                       && negb (is_prefix (dest ++ [lit ".git"]) q))
             (map fst (map_to_list (files st)))
  && forallb (fun q => plain_path q
                       && (bool_decide (q = dest) || negb (in_line q dest)))
             (map fst (map_to_list (trees st))).

(** An entry the outside world lets through: the server has content with the
    declared checksum whenever it is asked; the URL and the commit of a git
    entry can be printed, and the three git commands for the entry succeed
    whenever they are run. *)
Definition sound (w : net) (output_dir : path) (d : source) : Prop :=
  (downloadable d = true ->
   forall n, exists content,
     http w n (default [] (url d)) = Body content
     /\ (truthy_opt (sha256 d) = true ->
         verify_sha256 content (default [] (sha256 d)) = true))
  /\ (wellformed_git d = true ->
      encodable (default [] (url d)) = true
      /\ encodable (default [] (commit d)) = true
      /\ forall n,
          git w n (GitClone (default [] (url d)) (git_dest output_dir d)) = GitDone
          /\ git w n (GitFetch (git_dest output_dir d) (default [] (commit d)))
             = GitDone
          /\ git w n (GitCheckout (git_dest output_dir d) (default [] (commit d)))
             = GitDone).

(** [f.read(n)] on what is left of a file: what is read and what is left
    after it. *)
Definition read (n : nat) (rest : bytes) : bytes * bytes := (take n rest, drop n rest).

Definition chunk_size : nat := N.to_nat 8192.

(** The loop of [verify_sha256] (lines 88-89), also at the end of [main]:
    [sha256.update(chunk)] for each chunk read, until [f.read] returns
    [b''].  A hash object is what it was fed so far, its digest being the
    digest of all of it; [fuel] bounds the number of reads. *)
Fixpoint feed (fuel : nat) (fed rest : bytes) : bytes :=
  match fuel with
  | O => fed
  | S fuel =>
      let '(chunk, rest) := read chunk_size rest in
      match chunk with
      | [] => fed
      | _ :: _ => feed fuel (fed ++ chunk) rest
      end
  end.

(** [verify_sha256(filepath, expected_sha256)] as it is written, chunk by
    chunk; one read more than the file has bytes is enough. *)
Definition verify_sha256_by_chunks (content : bytes) (expected_sha256 : str) : bool :=
  bool_decide (SHA256.hexdigest (feed (S (length content)) [] content) = expected_sha256).

End FetchFacts.

(** ** More of the spec file: what the later sections speak of *)

Module SpecFacts.
Import SpecFile.

(** The pattern [^key\s+.*$] matches somewhere in [s]; [bol] says whether the
    current position is the start of a line. *)
Fixpoint mentions (key : str) (bol : bool) (s : str) : bool :=
  match s with
  | [] => false
  | c :: t => (bol && starts key s) || mentions key (c =? nl) t
  end.

(** The four keys the updater looks for. *)
Definition keys : list str :=
  [lit "Version:"; lit "Release:"; lit "%global theia_version";
   lit "%global electron_version"].

(** None of the four patterns matches anywhere in [content]. *)
Definition has_no_field (content : str) : bool :=
  forallb (fun key => negb (mentions key true content)) keys.

(** A text by its lines: the lines that end in a newline, then the last one,
    which does not (empty when the text ends in a newline). *)
Definition text (ls : list str) (tail : str) : str :=
  flat_map (fun l => l ++ [nl]) ls ++ tail.

(** The line is [key] and white space, nothing else. *)
Definition bare (key l : str) : bool :=
  match Re.strip_prefix key l with
  | Some ws => forallb Re.is_space ws
  | None => false
  end.

(** A line the patterns read as one line: no newline in it, and not a field
    left without a value, after which [\s+] would run on into the next
    line. *)
Definition clean (l : str) : bool :=
  forallb Re.dot l && forallb (fun key => negb (bare key l)) keys.

(** [k] and [a] differ at a position both have. *)
Fixpoint differ (k a : str) : bool :=
  match k, a with
  | x :: k', y :: a' => negb (x =? y) || differ k' a'
  | _, _ => false
  end.

(** One substitution seen from one line. *)
Definition step (l : str) (stage : str * str) : str :=
  if starts (fst stage) l then snd stage else l.

(** What the updater makes of one line. *)
Definition new_line (version : str) (theia_version electron_version : option str)
    (release : option Z) (l : str) : str :=
  if starts (lit "Version:") l then lit "Version:        " ++ version
  else
    match release with
    | Some r =>
        if starts (lit "Release:") l
        then lit "Release:        " ++ str_of_int r ++ lit "%{?dist}"
        else if truthy_opt theia_version && starts (lit "%global theia_version") l
        then lit "%global theia_version " ++ default [] theia_version
        else if truthy_opt electron_version && starts (lit "%global electron_version") l
        then lit "%global electron_version " ++ default [] electron_version
        else l
    | None =>
        if truthy_opt theia_version && starts (lit "%global theia_version") l
        then lit "%global theia_version " ++ default [] theia_version
        else if truthy_opt electron_version && starts (lit "%global electron_version") l
        then lit "%global electron_version " ++ default [] electron_version
        else l
    end.

End SpecFacts.

(** ** Versions from the manifests: [get_versions_from_package_json] *)

Module PackageJson.

(** A JSON value as far as the function looks at it: a string, an object
    with its members in the order of the dict ([json.load] keeps each key
    once), or anything else (null, a number, a boolean, an array), of which
    only the truth value is ever asked. *)
#[warnings="-register-all"] Inductive json : Type :=
| JStr (s : str)
| JObj (members : list (str * json))
| JOther (truth_value : bool).

(** A manifest on disk: not there, there but [open] or [json.load] raises,
    or loaded. *)
Inductive manifest_file : Type :=
| Missing
| Unreadable
| Loaded (data : json).

(** [bool(v)] *)
Definition truth (v : json) : bool :=
  match v with
  | JStr s => truthy s
  | JObj [] => false
  | JObj (_ :: _) => true
  | JOther b => b
  end.

(** [None] *)
Definition JNone : json := JOther false.

(** Lookup in a dict. *)
Definition get (key : str) (members : list (str * json)) : option json :=
  match find (fun kv => bool_decide (fst kv = key)) members with
  | Some kv => Some (snd kv)
  | None => None
  end.

(** [x.get(key, dflt)]: [AttributeError] unless [x] is a dict. *)
Definition dict_get (x : json) (key : str) (dflt : json) : result json :=
  match x with
  | JObj members => Ok (default dflt (get key members))
  | _ => Raise (Exception_ "AttributeError")
  end.

(** [d[key] = v]: in place when the key is there, at the end when not. *)
Fixpoint put (key : str) (v : json) (members : list (str * json))
    : list (str * json) :=
  match members with
  | [] => [(key, v)]
  | (k, x) :: rest =>
      if bool_decide (k = key) then (k, v) :: rest else (k, x) :: put key v rest
  end.

(** [{**a, **b}.items()]: [TypeError] unless both are dicts. *)
Definition merged (a b : json) : result (list (str * json)) :=
  match a, b with
  | JObj ma, JObj mb => Ok (fold_left (fun acc kv => put (fst kv) (snd kv) acc) mb ma)
  | _, _ => Raise (Exception_ "TypeError")
  end.

(** [s.lstrip('^~')] *)
Definition in_range_prefix (c : N) : bool := (c =? 94) || (c =? 126).

Definition lstrip_range (s : str) : str := Re.skip in_range_prefix s.

(** [v.lstrip('^~')] on a value: [AttributeError] unless it is a string. *)
Definition lstrip_value (v : json) : result str :=
  match v with
  | JStr s => Ok (lstrip_range s)
  | _ => Raise (Exception_ "AttributeError")
  end.

Definition is_theia (kv : str * json) : bool := startswith (fst kv) (lit "@theia/").

(** The loop of lines 344-348: the first member whose name starts with
    [@theia/] decides. *)
Definition theia_of (items : list (str * json)) : result (option str) :=
  match find is_theia items with
  | Some kv => try! v <- lstrip_value (snd kv) in Ok (Some v)
  | None => Ok None
  end.

(** [dev_deps.get('electron', deps.get('electron'))] and the [if] after it
    (lines 354-356 and 367-369): the version found, if one is. *)
Definition electron_of (deps dev_deps : json) : result (option str) :=
  try! fallback <- dict_get deps (lit "electron") JNone in
  try! electron_dep <- dict_get dev_deps (lit "electron") fallback in
  if truth electron_dep then
    try! v <- lstrip_value electron_dep in Ok (Some v)
  else Ok None.

(** Lines 338-356, on the loaded root manifest. *)
Definition root_versions (data : json) : result (option str * option str) :=
  try! deps <- dict_get data (lit "dependencies") (JObj []) in
  try! dev_deps <- dict_get data (lit "devDependencies") (JObj []) in
  try! items <- merged deps dev_deps in
  try! theia_version <- theia_of items in
  try! electron_version <- electron_of deps dev_deps in
  Ok (theia_version, electron_version).

(** The body of the inner [try] (lines 363-369), on
    [applications/electron/package.json]. *)
Definition nested_electron (electron_pkg : manifest_file) : result (option str) :=
  match electron_pkg with
  | Missing | Unreadable => Raise OSError
  | Loaded electron_data =>
      try! electron_deps <- dict_get electron_data (lit "dependencies") (JObj []) in
      try! electron_dev_deps <-
        dict_get electron_data (lit "devDependencies") (JObj []) in
      electron_of electron_deps electron_dev_deps
  end.

(** [get_versions_from_package_json(package_json_path)], on the manifest at
    that path and the one at [applications/electron/package.json] next to
    it. *)
Definition get_versions_from_package_json (package_json electron_pkg : manifest_file)
    : option str * option str :=
  match package_json with
  | Missing => (None, None)
  | Unreadable => (None, None)
  | Loaded data =>
      match root_versions data with
      | Raise _ => (None, None)
      | Ok (theia_version, electron_version) =>
          if negb (truthy_opt electron_version) then
            match electron_pkg with
            | Missing => (theia_version, electron_version)
            | _ =>
                match nested_electron electron_pkg with
                | Ok (Some v) => (theia_version, Some v)
                | Ok None | Raise _ => (theia_version, electron_version)
                end
            end
          else (theia_version, electron_version)
      end
  end.

End PackageJson.

Module PackageFacts.
Import PackageJson.

(** A version, if there is one, does not begin with [^] or [~]. *)
Definition unprefixed (o : option str) : bool :=
  match o with
  | Some (c :: _) => negb (in_range_prefix c)
  | _ => true
  end.

End PackageFacts.

(** ** More concrete runs *)

Module Cases.
Import Fetch PackageJson Scenarios.

(** A destination where an earlier clone left a directory without [.git]. *)
Definition partial_clone : state :=
  {| files := ∅; trees := {[ git_dest deps git_entry := false ]};
     requests := []; git_runs := [] |}.

(** [git clone] works, nothing after it can be started. *)
Definition git_gone_after_clone : net :=
  {| http := fun _ _ => ConnectFailed;
     git := fun _ cmd => match cmd with GitClone _ _ => GitDone | _ => GitSpawnFailed end |}.

(** [a.tgz] downloaded into an empty directory. *)
Definition a_downloaded : state :=
  {| files := {[ file_dest deps a_tgz := good ]}; trees := ∅;
     requests := [lit "https://registry.example/a.tgz"]; git_runs := [] |}.

(** The directory of the dependencies, under an output directory as [main]
    resolves it. *)
Definition vendor_dir : path :=
  [lit "/"; lit "build"; lit "rpm"; lit "theia-ide-deps-1.67.100"].


(** Entries that all go well with [one_corrupt], and what the pass leaves and
    counts for them. *)
Definition sound_entries : list source := [a_tgz; git_entry; for_i386; c_tgz].

Definition after_sound_entries : state :=
  {| files := {[ file_dest vendor_dir a_tgz := good;
                 file_dest vendor_dir c_tgz := good ]};
     trees := {[ git_dest vendor_dir git_entry := true ]};
     requests := [lit "https://registry.example/c.tgz";
                  lit "https://registry.example/a.tgz"];
     git_runs :=
       [GitCheckout (git_dest vendor_dir git_entry)
          (lit "0123456789abcdef0123456789abcdef01234567");
        GitFetch (git_dest vendor_dir git_entry)
          (lit "0123456789abcdef0123456789abcdef01234567");
        GitClone (lit "https://git.example/repo.git")
          (git_dest vendor_dir git_entry)] |}.

(** [a.tgz] in place, sound, and the repository cloned; [a.tgz] there with
    other content. *)
Definition a_in_place : state :=
  {| files := {[ file_dest vendor_dir a_tgz := good ]};
     trees := {[ git_dest vendor_dir git_entry := true ]};
     requests := []; git_runs := [] |}.

Definition a_stale : state :=
  {| files := {[ file_dest vendor_dir a_tgz := bad ]};
     trees := ∅; requests := []; git_runs := [] |}.

(** What a clone that was cut short left behind, next to [a.tgz]: a
    directory without [.git] and a file in it. *)
Definition readme : path := git_dest vendor_dir git_entry ++ [lit "README"].

Definition leftovers : state :=
  {| files := {[ file_dest vendor_dir a_tgz := good; readme := bad ]};
     trees := {[ git_dest vendor_dir git_entry := false ]};
     requests := []; git_runs := [] |}.

Definition sound_counts : counters :=
  {| success_count := 3; skip_count := 1; fail_count := 0; git_count := 1 |}.

(** The directory of [partial_clone] removed, after a [git clone] that
    failed. *)
Definition clone_failed_once : state :=
  {| files := ∅; trees := ∅; requests := [];
     git_runs := [GitClone (lit "https://git.example/repo.git")
                    (git_dest deps git_entry)] |}.

(** Dist-git serving a given spec file through [curl]. *)
Definition serves (content : str) : Copr.distgit :=
  {| Copr.which_curl := true;
     Copr.curl := Copr.CurlRan 2 0 (Some content);
     Copr.urlopen := Copr.UrlFailed |}.

Definition spec_without_fields : str :=
  lit "Name:           theia-ide
Summary:        Theia IDE
".

(** A spec file with DOS line ends. *)
Definition dos_spec : str :=
  lit "Name: x" ++ [cr; nl] ++ lit "Version: 1" ++ [cr; nl].

Definition dos_spec_updated : str :=
  lit "Name: x
Version:        2
".

(** The lines of [theia_spec]. *)
Definition theia_spec_lines : list str :=
  [lit "%global theia_version 1.66.0";
   lit "%global electron_version 37.2.1";
   lit "Name:           theia-ide";
   lit "Version:        1.66.100";
   lit "Release:        2%{?dist}";
   lit "Summary:        Theia IDE"].

(** A root manifest that declares [@theia/core] twice. *)
Definition runtime_deps : list (str * json) :=
  [(lit "@theia/core", JStr (lit "^1.66.0"));
   (lit "electron", JStr (lit "^37.2.1"))].

Definition build_deps : list (str * json) :=
  [(lit "typescript", JStr (lit "~5.4.5"));
   (lit "@theia/core", JStr (lit "~1.67.0"))].

Definition root_manifest : list (str * json) :=
  [(lit "version", JStr (lit "1.67.100"));
   (lit "dependencies", JObj runtime_deps);
   (lit "devDependencies", JObj build_deps)].

End Cases.

(** * Properties *)

(** ** Release-number resolver *)

Section CoprProperties.
Import Copr.

Lemma resolve_after_fetch w version content :
  fetch_spec w = Ok content ->
  resolve w version =
    match version_match content, release_match content with
    | Some vm, Some rm =>
        try! prev_release <- py_int rm in
        let next_release :=
          if decide (py_strip vm = version) then (prev_release + 1)%Z else 1%Z in
        try! shown_prev <- py_str prev_release in
        try! shown_next <- py_str next_release in
        Ok next_release
    | _, _ => Ok 1%Z
    end.
Proof. intros H. unfold resolve. rewrite H. reflexivity. Qed.

Lemma resolve_fetch_raises w version e :
  fetch_spec w = Raise e -> resolve w version = Raise e.
Proof. intros H. unfold resolve. rewrite H. reflexivity. Qed.

(** The fetch of the code succeeds exactly when section 4.6 has a fetched
    spec file, and with that file. *)
Lemma fetch_spec_fetched w :
  match fetched w with
  | Some content => fetch_spec w = Ok content
  | None => exists e, fetch_spec w = Raise e
  end.
Proof.
  unfold fetched, fetch_spec, run_curl, run_urlopen, timeout.
  destruct (which_curl w).
  - destruct (curl w) as [seconds status out|]; [|eexists; reflexivity].
    rewrite (N.ltb_antisym seconds 10).
    destruct status as [|p]; cbn [N.eqb negb].
    + destruct out as [content|].
      * destruct (seconds <=? 10); cbn [negb]; [reflexivity | eexists; reflexivity].
      * destruct (seconds <=? 10); cbn [negb]; eexists; reflexivity.
    + destruct (seconds <=? 10); cbn [negb]; eexists; reflexivity.
  - destruct (urlopen w) as [blocked body|]; [|eexists; reflexivity].
    rewrite (N.ltb_antisym blocked 10).
    destruct body as [content|].
    + destruct (blocked <=? 10); cbn [negb andb]; [|eexists; reflexivity].
      destruct (startswith content (lit "<!doctype html>")); cbn [negb andb orb];
        [eexists; reflexivity|].
      destruct (startswith content (lit "<html")); cbn [negb];
        [eexists; reflexivity | reflexivity].
    + destruct (blocked <=? 10); cbn [negb andb]; eexists; reflexivity.
Qed.

(** A decimal digit is worth less than ten. *)
Lemma decimal_value_small d v : Re.decimal_value d = Some v -> v < 10.
Proof.
  unfold Re.decimal_value.
  destruct (find _ Re.decimal_zeros) as [z|] eqn:E; [|discriminate].
  apply find_some in E as [_ E]. apply andb_true_iff in E as [E1 E2].
  apply N.leb_le in E1. apply N.ltb_lt in E2.
  intros H. injection H as <-. lia.
Qed.

(** A number read from [count] digits is below the [count]-th power of ten. *)
Lemma int_digits_bound ds acc count after_digit n c :
  int_digits acc count after_digit ds = Ok (n, c) ->
  (Z.of_N acc < 10 ^ Z.of_nat count)%Z ->
  (Z.of_N n < 10 ^ Z.of_nat c)%Z.
Proof.
  revert acc count after_digit.
  induction ds as [|d t IH]; intros acc count after_digit H Hacc.
  - cbn [int_digits] in H. destruct after_digit; [|discriminate].
    injection H as <- <-. exact Hacc.
  - cbn [int_digits] in H. destruct (d =? 95).
    + destruct after_digit; [|discriminate]. exact (IH _ _ _ H Hacc).
    + destruct (Re.decimal_value d) as [v|] eqn:Ev; [|discriminate].
      apply (IH _ _ _ H).
      apply decimal_value_small in Ev.
      rewrite Nat2Z.inj_succ, Z.pow_succ_r by lia. lia.
Qed.

(** What [int] accepts, [str] accepts. *)
Lemma py_int_within s z : py_int s = Ok z -> beyond_str_digits z = false.
Proof.
  unfold py_int.
  destruct (match py_strip s with
            | [] => (false, py_strip s)
            | c :: t => if c =? 45 then (true, t)
                        else if c =? 43 then (false, t) else (false, py_strip s)
            end) as [negative ds].
  destruct (int_digits 0 0 false ds) as [[n c]|] eqn:E; [|discriminate].
  cbn [bind].
  destruct (int_max_str_digits <? c)%nat eqn:Ec; [discriminate|].
  apply Nat.ltb_ge in Ec.
  apply int_digits_bound in E; [|simpl; lia].
  assert (Hp : (10 ^ Z.of_nat c <= 10 ^ Z.of_nat int_max_str_digits)%Z)
    by (apply Z.pow_le_mono_r; lia).
  intros H. injection H as <-.
  unfold beyond_str_digits. apply Z.leb_gt.
  destruct negative; lia.
Qed.

(** C1, as the code has it.  The resolver always returns, and no exception
    reaches the caller.  With the spec file fetched and both fields parsed
    it returns the parsed release plus one when the parsed version is the
    requested one, unless that number is beyond the digit limit of [int],
    where it returns 1; it returns 1 when the versions differ, when the
    fetch failed (also by the 10-second timeout) and when a field could not
    be parsed. *)
Theorem get_copr_release_number_contract (w : distgit) (version : str) :
  get_copr_release_number w version
  = Ok (contract_within_digits (fetched w) version).
Proof.
  unfold get_copr_release_number, contract_within_digits.
  pose proof (fetch_spec_fetched w) as Hf.
  destruct (fetched w) as [content|].
  - rewrite (resolve_after_fetch _ _ _ Hf).
    unfold parsed_version, parsed_release.
    destruct (version_match content) as [vm|]; [|reflexivity].
    destruct (release_match content) as [rm|]; [|reflexivity].
    destruct (py_int rm) as [r|e] eqn:Er; cbn [bind]; [|reflexivity].
    unfold py_str. rewrite (py_int_within _ _ Er). cbn [bind].
    destruct (decide (py_strip vm = version)).
    + destruct (beyond_str_digits (r + 1)); reflexivity.
    + change (beyond_str_digits 1) with false. reflexivity.
  - destruct Hf as [e Hf]. rewrite (resolve_fetch_raises _ _ _ Hf). reflexivity.
Qed.

End CoprProperties.


(** ** The driver *)

Section DriverProperties.
Import Driver.

Lemma explicit_truthy a v : explicit a = Some v -> truthy v = true.
Proof.
  unfold explicit.
  destruct (version_opt a) as [[|x o]|]; destruct (version a) as [[|y p]|];
    simpl; intros H; try discriminate H; injection H as <-; reflexivity.
Qed.

Lemma explicit_or a :
  py_or (version_opt a) (version a) =
    match explicit a with
    | Some v => Some v
    | None => py_or (version_opt a) (version a)
    end.
Proof.
  unfold explicit, py_or.
  destruct (version_opt a) as [[|x o]|]; destruct (version a) as [[|y p]|];
    reflexivity.
Qed.

Lemma explicit_none a :
  explicit a = None -> truthy_opt (py_or (version_opt a) (version a)) = false.
Proof.
  unfold explicit, py_or.
  destruct (version_opt a) as [[|x o]|]; destruct (version a) as [[|y p]|];
    simpl; intros H; try discriminate H; reflexivity.
Qed.

(** C8.  The version is the explicit one when there is one (the flag's before
    the positional one); without it, the latest remote tag when
    [--github-latest] is set and the [version] of the local [package.json]
    when it is not; a chosen source that gives no version ends the run with
    exit status 1. *)
Theorem resolve_version_priority (a : args) (w : world) :
  (forall v, explicit a = Some v -> resolve_version a w = Goes_on v)
  /\ (explicit a = None -> github_latest a = true ->
        resolve_version a w = or_exit (get_latest_github_version w))
  /\ (explicit a = None -> github_latest a = false ->
        resolve_version a w = or_exit (get_version_from_local w))
  /\ (forall found v, found = Some v -> truthy v = true -> or_exit found = Goes_on v)
  /\ (forall found, truthy_opt found = false ->
        exists status, or_exit found = Sys_exit status /\ status <> 0).
Proof.
  repeat split.
  - intros v Hv. unfold resolve_version.
    rewrite explicit_or, Hv. simpl.
    rewrite (explicit_truthy _ _ Hv). reflexivity.
  - intros He Hg. unfold resolve_version.
    rewrite (explicit_none _ He), Hg. reflexivity.
  - intros He Hg. unfold resolve_version.
    rewrite (explicit_none _ He), Hg. reflexivity.
  - intros found v -> Hv. simpl. rewrite Hv. reflexivity.
  - intros [v|] Hf; simpl in *.
    + rewrite Hf. exists 1. split; [reflexivity | lia].
    + exists 1. split; [reflexivity | lia].
Qed.

(** C9.  The first [--only-*] flag in the order main source, plugins, deps
    decides what is generated; when one of them is set the result does not
    depend on the [--skip-*] flags, which decide only when none is set. *)
Theorem generation_first_match (a : args) :
  (only_main_source a = true -> generation a = (true, false, false))
  /\ (only_main_source a = false -> only_plugins a = true ->
        generation a = (false, true, false))
  /\ (only_main_source a = false -> only_plugins a = false -> only_deps a = true ->
        generation a = (false, false, true))
  /\ (only_main_source a = false -> only_plugins a = false -> only_deps a = false ->
        generation a =
          (negb (skip_main_source a), negb (skip_plugins a), negb (skip_deps a)))
  /\ (forall a',
        only_main_source a' = only_main_source a ->
        only_plugins a' = only_plugins a ->
        only_deps a' = only_deps a ->
        only_main_source a || only_plugins a || only_deps a = true ->
        generation a' = generation a).
Proof.
  unfold generation. repeat split.
  - intros ->. reflexivity.
  - intros -> ->. reflexivity.
  - intros -> -> ->. reflexivity.
  - intros -> -> ->. reflexivity.
  - intros a' -> -> ->.
    destruct (only_main_source a), (only_plugins a), (only_deps a);
      simpl; intros H; try reflexivity; discriminate.
Qed.

(** C10.  In COPR mode and without [--output], the output directory is
    [$COPR_RESULTDIR] when that variable is set, else [$resultdir] when that
    one is set, else [/workdir/rpm]. *)
Theorem copr_output_dir (a : args) (w : world) :
  truthy_opt (output a) = false ->
  copr a = true ->
  output_dir a w =
    match environ w !! lit "COPR_RESULTDIR" with
    | Some d => d
    | None =>
        match environ w !! lit "resultdir" with
        | Some d => d
        | None => lit "/workdir/rpm"
        end
    end.
Proof.
  intros Ho Hc. unfold output_dir, environ_get. rewrite Ho, Hc.
  destruct (environ w !! lit "COPR_RESULTDIR"); [reflexivity|].
  destruct (environ w !! lit "resultdir"); reflexivity.
Qed.

End DriverProperties.

(** ** Downloads *)

Section FetchProperties.
Import Fetch.

Lemma unlink_absent p st : files (unlink p st) !! p = None.
Proof. simpl. apply lookup_delete_eq. Qed.

Lemma discard_absent p st : files (discard p st) !! p = None.
Proof.
  unfold discard, file_exists. case_bool_decide as H.
  - apply unlink_absent.
  - apply eq_None_not_Some. exact H.
Qed.

Lemma discard_requests p st : requests (discard p st) = requests st.
Proof. unfold discard. destruct (file_exists p st); reflexivity. Qed.

(** A digest has 64 characters, so an empty checksum verifies nothing. *)
Lemma round_length s kw : length s = 8%nat -> length (SHA256.round s kw) = 8%nat.
Proof.
  intros H. do 9 (destruct s as [|? s]; try discriminate H). reflexivity.
Qed.

Lemma rounds_length kws s :
  length s = 8%nat -> length (fold_left SHA256.round kws s) = 8%nat.
Proof.
  revert s. induction kws as [|kw kws IH]; intros s H; simpl; [exact H|].
  apply IH, round_length, H.
Qed.

Lemma compress_length h block :
  length h = 8%nat -> length (SHA256.compress h block) = 8%nat.
Proof.
  intros H. unfold SHA256.compress.
  rewrite length_map, length_combine, rounds_length, H; [reflexivity | exact H].
Qed.

Lemma blocks_length n h b :
  length h = 8%nat -> length (SHA256.blocks n h b) = 8%nat.
Proof.
  revert h b. induction n as [|n IH]; intros h b H; simpl; [exact H|].
  apply IH, compress_length, H.
Qed.

Lemma hexdigest_truthy msg : truthy (SHA256.hexdigest msg) = true.
Proof.
  unfold SHA256.hexdigest, SHA256.digest.
  pose proof (blocks_length (length (SHA256.pad msg) / 64) SHA256.H0
                (SHA256.pad msg) eq_refl) as H.
  destruct (SHA256.blocks _ _ _) as [|x l]; [discriminate H|]. reflexivity.
Qed.

Lemma verified_truthy content sha :
  verify_sha256 content sha = true -> truthy sha = true.
Proof.
  unfold verify_sha256. intros H. apply bool_decide_eq_true in H as <-.
  apply hexdigest_truthy.
Qed.

(** What the [try] block does to a destination when no verified content comes
    out of it. *)
Lemma download_unverified w url dest_path sha st :
  truthy sha = true ->
  (forall content, http w (length (requests st)) url = Body content ->
                   verify_sha256 content sha = false) ->
  exists st', download w url dest_path (Some sha) st = (false, st')
              /\ files st' !! dest_path = None
              /\ requests st' = url :: requests st.
Proof.
  intros Ht Hbad. unfold download.
  destruct (http w (length (requests st)) url) as [| |content] eqn:Ha.
  - eexists. split; [reflexivity|]. split; [apply discard_absent|].
    rewrite discard_requests. reflexivity.
  - eexists. split; [reflexivity|]. split; [apply discard_absent|].
    rewrite discard_requests. reflexivity.
  - rewrite Ht, (Hbad content eq_refl).
    eexists. split; [reflexivity|]. split; [apply unlink_absent | reflexivity].
Qed.

Lemma download_file_unverified w url dest_path sha st :
  truthy sha = true ->
  (forall old, files st !! dest_path = Some old -> verify_sha256 old sha = false) ->
  (forall content, http w (length (requests st)) url = Body content ->
                   verify_sha256 content sha = false) ->
  exists st', download_file w url dest_path (Some sha) st = (false, st')
              /\ files st' !! dest_path = None
              /\ requests st' = url :: requests st.
Proof.
  intros Ht Hold Hbad. unfold download_file.
  destruct (files st !! dest_path) as [old|] eqn:Hf.
  - simpl. rewrite Ht, (Hold old eq_refl). simpl.
    apply (download_unverified w url dest_path sha (unlink dest_path st) Ht Hbad).
  - apply (download_unverified w url dest_path sha st Ht Hbad).
Qed.

(** C4.  A download whose destination already holds content with the declared
    checksum, and a clone whose destination already holds a [.git], succeed
    and leave the whole state as it was: no request and no git run is added
    to the logs. *)
Theorem present_and_verified_is_a_no_op (w : net) (st : state) :
  (forall url dest_path sha content,
      files st !! dest_path = Some content ->
      verify_sha256 content sha = true ->
      download_file w url dest_path (Some sha) st = (true, st))
  /\ (forall url commit dest_path,
      trees st !! dest_path = Some true ->
      clone_git_repo w url commit dest_path st = (true, st)).
Proof.
  split.
  - intros url dest_path sha content Hf Hv. unfold download_file.
    rewrite Hf. simpl. rewrite (verified_truthy _ _ Hv), Hv. reflexivity.
  - intros url commit dest_path Ht. unfold clone_git_repo. rewrite Ht. reflexivity.
Qed.

(** C5.  With a declared checksum, when the file that is there (if any) fails
    verification and the download brings no content that passes it,
    [download_file] returns [False] and the destination does not exist
    afterwards. *)
Theorem unverified_download_fails_and_leaves_no_file
    (w : net) (url : str) (dest_path : path) (sha : str) (st : state) :
  truthy sha = true ->
  (forall old, files st !! dest_path = Some old -> verify_sha256 old sha = false) ->
  (forall content, http w (length (requests st)) url = Body content ->
                   verify_sha256 content sha = false) ->
  exists st', download_file w url dest_path (Some sha) st = (false, st')
              /\ files st' !! dest_path = None.
Proof.
  intros Ht Hold Hbad.
  destruct (download_file_unverified w url dest_path sha st Ht Hold Hbad)
    as (st' & Hd & Hf & _).
  exists st'. split; assumption.
Qed.

(** The architecture filter of the loop, as the section words it. *)
Lemma matching_arches_nil only :
  matching_arches only = [] <-> (lit "x86_64" ∉ only) /\ (lit "aarch64" ∉ only).
Proof.
  unfold matching_arches, arches. rewrite !filter_cons, filter_nil.
  destruct (decide (lit "x86_64" ∈ only)), (decide (lit "aarch64" ∈ only));
    split; try discriminate; try tauto.
Qed.

Lemma skipped_for_arch_true d :
  skipped_for_arch d = true <->
  type_ d = Some (lit "file") /\
  exists only, only_arches d = Some only /\ only <> [] /\ matching_arches only = [].
Proof.
  unfold skipped_for_arch. rewrite andb_true_iff, bool_decide_eq_true.
  split.
  - intros [Ht H]. split; [exact Ht|].
    destruct (only_arches d) as [[|a l]|]; try discriminate H.
    exists (a :: l). split; [reflexivity|]. split; [discriminate|].
    apply matching_arches_nil.
    apply andb_true_iff in H as [H1 H2].
    apply bool_decide_eq_true in H1, H2. tauto.
  - intros [Ht (only & -> & Hne & Hm)]. split; [exact Ht|].
    destruct only as [|a l]; [congruence|].
    apply matching_arches_nil in Hm as [H1 H2].
    apply andb_true_iff. split; apply bool_decide_eq_true; assumption.
Qed.

(** The loop body, case by case. *)
Lemma visit_skipped w out c st d :
  skipped_for_arch d = true -> visit w out (c, st) d = (count_skip c, st).
Proof.
  intros H. apply skipped_for_arch_true in H as [Ht (only & Ho & Hne & Hm)].
  destruct only as [|a l]; [congruence|].
  unfold visit. rewrite Ht, Ho.
  destruct (decide (Some (lit "file") = Some (lit "git"))) as [E|_]; [discriminate E|].
  destruct (decide (Some (lit "file") = Some (lit "file"))) as [_|E]; [|congruence].
  cbv zeta. change (default [] (Some (a :: l))) with (a :: l).
  cbv beta iota. rewrite Hm. reflexivity.
Qed.

Lemma visit_file w out c st d :
  wellformed_file d = true -> skipped_for_arch d = false ->
  visit w out (c, st) d =
    (let '(ok, st') := download_file w (default [] (url d)) (file_dest out d)
                         (sha256 d) st in
     if ok then (count_success c, st') else (count_fail c, st')).
Proof.
  unfold wellformed_file. rewrite !andb_true_iff, bool_decide_eq_true.
  intros [[Ht Hu] Hn] Hs.
  assert (Hm : forall only, only_arches d = Some only -> only <> [] ->
                            matching_arches only <> []).
  { intros only Ho Hne Hm. rewrite <- not_true_iff_false in Hs. apply Hs.
    apply skipped_for_arch_true. split; [exact Ht|]. exists only. auto. }
  unfold visit. rewrite Ht.
  destruct (decide (Some (lit "file") = Some (lit "git"))) as [E|_]; [discriminate E|].
  destruct (decide (Some (lit "file") = Some (lit "file"))) as [_|E]; [|congruence].
  rewrite Hu, Hn.
  cbv zeta.
  destruct (only_arches d) as [[|a l]|] eqn:Ho; try reflexivity.
  change (default [] (Some (a :: l))) with (a :: l). cbv beta iota.
  destruct (matching_arches (a :: l)) eqn:Hma; [|reflexivity].
  exfalso. exact (Hm (a :: l) eq_refl ltac:(discriminate) Hma).
Qed.

Lemma visit_git w out c st d :
  wellformed_git d = true ->
  visit w out (c, st) d =
    (let '(ok, st') := clone_git_repo w (default [] (url d)) (default [] (commit d))
                         (git_dest out d) st in
     if ok then (count_git c, st') else (count_fail c, st')).
Proof.
  unfold wellformed_git. rewrite !andb_true_iff, bool_decide_eq_true.
  intros [[[Ht Hu] Hc] Hd].
  unfold visit. rewrite Ht.
  destruct (decide (Some (lit "git") = Some (lit "git"))) as [_|E]; [|congruence].
  rewrite Hu, Hc, Hd. reflexivity.
Qed.

Lemma visit_passed_over w out c st d :
  actionable d = false -> visit w out (c, st) d = (c, st).
Proof.
  unfold actionable. rewrite !orb_false_iff. intros [[Hg Hs] Hf].
  unfold visit.
  destruct (decide (type_ d = Some (lit "git"))) as [Ht|Hng].
  - unfold wellformed_git in Hg. rewrite bool_decide_eq_true_2 in Hg by exact Ht.
    simpl in Hg.
    destruct (truthy_opt (url d)), (truthy_opt (commit d)), (truthy_opt (dest d));
      simpl in *; try reflexivity; discriminate Hg.
  - destruct (decide (type_ d = Some (lit "file"))) as [Ht|Hnf]; [|reflexivity].
    unfold wellformed_file in Hf. rewrite bool_decide_eq_true_2 in Hf by exact Ht.
    simpl in Hf.
    assert (Hm : forall only, only_arches d = Some only -> only <> [] ->
                              matching_arches only <> []).
    { intros only Ho Hne Hm. rewrite <- not_true_iff_false in Hs. apply Hs.
      apply skipped_for_arch_true. split; [exact Ht|]. exists only. auto. }
    assert (Hw : negb (truthy_opt (url d)) || negb (truthy_opt (dest_filename d)) = true).
    { destruct (truthy_opt (url d)), (truthy_opt (dest_filename d));
        simpl in *; try reflexivity; discriminate Hf. }
    rewrite Hw.
    cbv zeta.
    destruct (only_arches d) as [[|a l]|] eqn:Ho; try reflexivity.
    change (default [] (Some (a :: l))) with (a :: l). cbv beta iota.
    destruct (matching_arches (a :: l)) eqn:Hma; [|reflexivity].
    exfalso. exact (Hm (a :: l) eq_refl ltac:(discriminate) Hma).
Qed.

Lemma wellformed_exclusive d :
  wellformed_git d = true -> skipped_for_arch d = false /\ wellformed_file d = false.
Proof.
  unfold wellformed_git, skipped_for_arch, wellformed_file.
  rewrite !andb_true_iff, bool_decide_eq_true. intros [[[Ht _] _] _].
  rewrite !bool_decide_eq_false_2 by (rewrite Ht; discriminate). split; reflexivity.
Qed.


(** *** The logs *)





Lemma rmtree_if_exists_requests p st : requests (rmtree_if_exists p st) = requests st.
Proof. unfold rmtree_if_exists. destruct (dir_exists p st); reflexivity. Qed.

Lemma rmtree_if_exists_git_runs p st : git_runs (rmtree_if_exists p st) = git_runs st.
Proof. unfold rmtree_if_exists. destruct (dir_exists p st); reflexivity. Qed.



Lemma visit_all_cons w out d l acc :
  visit_all w out (d :: l) acc = visit_all w out l (visit w out acc d).
Proof. reflexivity. Qed.





Lemma visit_fail_count w out c st d :
  (fail_count c <= fail_count (fst (visit w out (c, st) d)))%nat.
Proof.
  destruct (actionable d) eqn:Ha.
  - unfold actionable in Ha.
    destruct (wellformed_git d) eqn:Hg.
    + rewrite (visit_git _ _ _ _ _ Hg).
      destruct (clone_git_repo _ _ _ _ _) as [[] st']; simpl; lia.
    + destruct (skipped_for_arch d) eqn:Hs.
      * rewrite (visit_skipped _ _ _ _ _ Hs). simpl. lia.
      * simpl in Ha. rewrite (visit_file _ _ _ _ _ Ha Hs).
        destruct (download_file _ _ _ _ _) as [[] st']; simpl; lia.
  - rewrite (visit_passed_over _ _ _ _ _ Ha). simpl. lia.
Qed.

Lemma visit_all_fail_count w out l acc :
  (fail_count (fst acc) <= fail_count (fst (visit_all w out l acc)))%nat.
Proof.
  revert acc. induction l as [|d l IH]; intros [c st]; [simpl; lia|].
  rewrite visit_all_cons.
  pose proof (visit_fail_count w out c st d) as H1.
  pose proof (IH (visit w out (c, st) d)) as H2. simpl in *. lia.
Qed.

(** One entry counted as failed, wherever it stands in the list, fails the
    pass. *)
Lemma one_failure_fails_the_pass w before d after out st :
  (fail_count (fst (visit_all w out before (no_counts, st)))
   < fail_count (fst (visit w out (visit_all w out before (no_counts, st)) d)))%nat ->
  fst (fst (download_dependencies w (before ++ d :: after) out st)) = false.
Proof.
  intros H. unfold download_dependencies.
  destruct (visit_all w out (before ++ d :: after) (no_counts, st)) as [c st'] eqn:Hall.
  unfold visit_all in Hall. rewrite fold_left_app in Hall. simpl in Hall.
  fold (visit_all w out before (no_counts, st)) in Hall.
  fold (visit_all w out after (visit w out (visit_all w out before (no_counts, st)) d))
    in Hall.
  pose proof (visit_all_fail_count w out after
                (visit w out (visit_all w out before (no_counts, st)) d)) as Hm.
  rewrite Hall in Hm. simpl in *.
  destruct (0 <? fail_count c)%nat eqn:E; [reflexivity|].
  apply Nat.ltb_ge in E. lia.
Qed.

(** C3, as the code has it.  A file entry with a declared checksum whose
    destination holds nothing valid and whose download brings content that
    fails verification is counted as failed at once: one request is made, the
    file is removed, nothing is tried again. *)
Theorem mismatch_is_counted_failed_at_once
    (w : net) (output_dir : path) (c : counters) (st : state) (d : source)
    (sha : str) (content : bytes) :
  wellformed_file d = true ->
  skipped_for_arch d = false ->
  sha256 d = Some sha ->
  truthy sha = true ->
  (forall old, files st !! file_dest output_dir d = Some old ->
               verify_sha256 old sha = false) ->
  http w (length (requests st)) (default [] (url d)) = Body content ->
  verify_sha256 content sha = false ->
  exists st', visit w output_dir (c, st) d = (count_fail c, st')
              /\ requests st' = default [] (url d) :: requests st
              /\ files st' !! file_dest output_dir d = None.
Proof.
  intros Hf Hs Hsha Ht Hold Ha Hv.
  rewrite (visit_file _ _ _ _ _ Hf Hs), Hsha.
  destruct (download_file_unverified w (default [] (url d))
              (file_dest output_dir d) sha st Ht Hold) as (st' & Hd & Hn & Hr).
  { intros content' Hc. rewrite Ha in Hc. injection Hc as <-. exact Hv. }
  rewrite Hd. exists st'. auto.
Qed.

(** C6.  A [file] entry whose [only-arches] is not empty and holds neither
    [x86_64] nor [aarch64] moves the skip counter by one and nothing else: no
    request, no file.  An entry without [only-arches], with an empty one, or
    with one that holds a target architecture leaves the skip counter as it
    is. *)
Theorem arch_filter (w : net) (output_dir : path) (c : counters) (st : state)
    (d : source) :
  type_ d = Some (lit "file") ->
  (forall only, only_arches d = Some only -> only <> [] ->
     lit "x86_64" ∉ only -> lit "aarch64" ∉ only ->
     visit w output_dir (c, st) d = (count_skip c, st))
  /\ (only_arches d = None \/ only_arches d = Some []
      \/ (exists only, only_arches d = Some only
                       /\ (lit "x86_64" ∈ only \/ lit "aarch64" ∈ only)) ->
      skip_count (fst (visit w output_dir (c, st) d)) = skip_count c).
Proof.
  intros Ht. split.
  - intros only Ho Hne H1 H2. apply visit_skipped.
    apply skipped_for_arch_true. split; [exact Ht|].
    exists only. split; [exact Ho|]. split; [exact Hne|].
    apply matching_arches_nil. split; assumption.
  - intros H.
    assert (Hs : skipped_for_arch d = false).
    { apply not_true_iff_false. intros Hs.
      apply skipped_for_arch_true in Hs as [_ (only & Ho & Hne & Hm)].
      apply matching_arches_nil in Hm as [H1 H2].
      destruct H as [H|[H|(only' & H & [Hin|Hin])]]; rewrite Ho in H;
        try discriminate H; injection H as E; subst; contradiction. }
    destruct (wellformed_file d) eqn:Hf.
    + rewrite (visit_file _ _ _ _ _ Hf Hs).
      destruct (download_file _ _ _ _ _) as [[] st']; reflexivity.
    + rewrite visit_passed_over; [reflexivity|].
      unfold actionable. rewrite Hs, Hf.
      unfold wellformed_git. rewrite bool_decide_eq_false_2; [reflexivity|].
      rewrite Ht. discriminate.
Qed.

End FetchProperties.

(** ** Spec-file updater *)

Section SpecFileProperties.
Import Re SpecFile.

(** *** Scanning primitives *)

Lemma take_skip p s : take_while p s ++ skip p s = s.
Proof.
  induction s as [|c t IH]; simpl; [reflexivity|].
  destruct (p c); simpl; [rewrite IH|]; reflexivity.
Qed.

Lemma take_while_all p a b :
  forallb p a = true -> take_while p (a ++ b) = a ++ take_while p b.
Proof.
  induction a as [|c a IH]; simpl; [reflexivity|].
  intros H. apply andb_true_iff in H as [-> H]. rewrite (IH H). reflexivity.
Qed.

Lemma skip_all p a b : forallb p a = true -> skip p (a ++ b) = skip p b.
Proof.
  induction a as [|c a IH]; simpl; [reflexivity|].
  intros H. apply andb_true_iff in H as [-> H]. exact (IH H).
Qed.

Lemma take_while_stop p c t : p c = false -> take_while p (c :: t) = [].
Proof. intros H. simpl. rewrite H. reflexivity. Qed.

Lemma skip_stop p c t : p c = false -> skip p (c :: t) = c :: t.
Proof. intros H. simpl. rewrite H. reflexivity. Qed.

Lemma skip_head p s : skip p s = [] \/ exists c t, skip p s = c :: t /\ p c = false.
Proof.
  induction s as [|c t IH]; simpl; [left; reflexivity|].
  destruct (p c) eqn:H; [exact IH|]. right. eauto.
Qed.

Lemma take_while_forallb p s : forallb p (take_while p s) = true.
Proof.
  induction s as [|c t IH]; simpl; [reflexivity|].
  destruct (p c) eqn:H; simpl; [rewrite H; exact IH | reflexivity].
Qed.

Lemma dot_nl c : dot c = false <-> c = nl.
Proof.
  unfold dot. rewrite negb_false_iff. apply N.eqb_eq.
Qed.

Lemma dot_true_eqb c : dot c = true -> (c =? nl) = false.
Proof. unfold dot. destruct (c =? nl); [discriminate | reflexivity]. Qed.

Lemma skip_dot_cases s : skip dot s = [] \/ exists r, skip dot s = nl :: r.
Proof.
  destruct (skip_head dot s) as [H|(c & t & H & Hc)]; [left; exact H|].
  right. apply dot_nl in Hc as ->. eauto.
Qed.

Lemma strip_prefix_app k u : strip_prefix k (k ++ u) = Some u.
Proof.
  induction k as [|a k IH]; simpl; [reflexivity|].
  rewrite N.eqb_refl. exact IH.
Qed.

Lemma strip_prefix_inv k s u : strip_prefix k s = Some u -> s = k ++ u.
Proof.
  revert s. induction k as [|a k IH]; intros s H; simpl in *.
  - congruence.
  - destruct s as [|c t]; [discriminate|].
    destruct (a =? c) eqn:E; [|discriminate].
    apply N.eqb_eq in E as ->. rewrite (IH _ H). reflexivity.
Qed.

Lemma starts_strip key s :
  starts key s =
    match strip_prefix key s with
    | Some (c :: _) => is_space c
    | _ => false
    end.
Proof.
  revert s. induction key as [|a k IH]; intros [|c t]; simpl; try reflexivity.
  destruct (a =? c); simpl; [apply IH | reflexivity].
Qed.

Lemma line_match_starts key s :
  line_match key s = None <-> starts key s = false.
Proof.
  rewrite starts_strip. unfold line_match, key_ws.
  destruct (strip_prefix key s) as [[|c t]|]; try tauto.
  destruct (is_space c); split; intros H; try reflexivity; discriminate.
Qed.

(** The start of a line decides whether the pattern matches there: its first
    line and whether anything follows. *)
Lemma starts_local key s1 s2 :
  forallb dot key = true ->
  take_while dot s1 = take_while dot s2 ->
  (skip dot s1 = [] <-> skip dot s2 = []) ->
  starts key s1 = starts key s2.
Proof.
  revert s1 s2. induction key as [|a k IH]; intros s1 s2 Hk Ht Hs.
  - destruct s1 as [|c1 t1], s2 as [|c2 t2]; simpl in *; try reflexivity.
    + destruct (dot c2) eqn:E; [discriminate Ht|].
      exfalso. assert (H : c2 :: t2 = []) by (apply Hs; reflexivity). discriminate H.
    + destruct (dot c1) eqn:E; [discriminate Ht|].
      exfalso. assert (H : c1 :: t1 = []) by (apply Hs; reflexivity). discriminate H.
    + destruct (dot c1) eqn:E1, (dot c2) eqn:E2; try discriminate Ht.
      * congruence.
      * apply dot_nl in E1, E2. congruence.
  - simpl in Hk. apply andb_true_iff in Hk as [Ha Hk].
    destruct s1 as [|c1 t1], s2 as [|c2 t2]; simpl in *; try reflexivity.
    + destruct (dot c2) eqn:E; [discriminate Ht|].
      apply dot_nl in E as ->.
      destruct (a =? nl) eqn:Ea; [|reflexivity].
      apply N.eqb_eq in Ea as ->. discriminate Ha.
    + destruct (dot c1) eqn:E; [discriminate Ht|].
      apply dot_nl in E as ->.
      destruct (a =? nl) eqn:Ea; [|reflexivity].
      apply N.eqb_eq in Ea as ->. discriminate Ha.
    + destruct (dot c1) eqn:E1, (dot c2) eqn:E2; try discriminate Ht.
      * injection Ht as -> Ht. rewrite (IH t1 t2 Hk Ht Hs). reflexivity.
      * apply dot_nl in E1 as ->. apply dot_nl in E2 as ->.
        destruct (a =? nl) eqn:Ea; [|reflexivity].
        apply N.eqb_eq in Ea as ->. discriminate Ha.
Qed.

Lemma last_forallb p (s : str) c : forallb p s = true -> last s = Some c -> p c = true.
Proof.
  induction s as [|x s IH]; [discriminate|].
  simpl. intros H. apply andb_true_iff in H as [Hx Hs].
  destruct s as [|y s']; [intros [= <-]; exact Hx|]. exact (IH Hs).
Qed.

(** A match is a prefix of the text, stops at the end of a line, and leaves a
    line start behind only at the end of the text. *)
Lemma line_match_split key s m r :
  line_match key s = Some (m, r) ->
  s = m ++ r /\ (r = [] \/ exists r', r = nl :: r') /\ (ends_line m = true -> r = []).
Proof.
  unfold line_match, key_ws. intros H.
  destruct (strip_prefix key s) as [[|c t]|] eqn:Hp; try discriminate H.
  destruct (is_space c) eqn:Hc; [|discriminate H].
  apply strip_prefix_inv in Hp.
  simpl in H. rewrite Hc in H. injection H as <- <-.
  split; [|split].
  - rewrite <- app_assoc. simpl. rewrite <- app_assoc, take_skip, take_skip. exact Hp.
  - apply skip_dot_cases.
  - unfold ends_line. intros He.
    destruct (take_while dot (skip is_space t)) as [|b body] eqn:Hb.
    + destruct (skip_head is_space t) as [Hs|(x & v & Hs & Hx)]; rewrite Hs in *;
        [reflexivity|].
      simpl in Hb. destruct (dot x) eqn:Hd; [discriminate Hb|].
      apply dot_nl in Hd as ->. discriminate Hx.
    + exfalso.
      change (key ++ c :: take_while is_space t ++ b :: body)
        with (key ++ (c :: take_while is_space t) ++ b :: body) in He.
      rewrite app_assoc, last_app_cons in He.
      destruct (last (b :: body)) as [z|] eqn:Hl; [|discriminate He].
      pose proof (take_while_forallb dot (skip is_space t)) as Hall.
      rewrite Hb in Hall.
      pose proof (last_forallb dot _ _ Hall Hl) as Hz.
      apply N.eqb_eq in He as ->. discriminate Hz.
Qed.

Lemma line_match_nonempty key s m r : line_match key s = Some (m, r) -> m <> [].
Proof.
  unfold line_match, key_ws. intros H.
  destruct (strip_prefix key s) as [[|y u]|]; try discriminate H.
  destruct (is_space y) eqn:Hy; [|discriminate H].
  injection H as <- _. simpl. rewrite Hy. destruct key; discriminate.
Qed.

(** *** The scan, one step at a time *)

Lemma sub_from_clause (key : str) (t : list item) (bol : bool) (c : N) (s' : str)
    (x : option (str * str)%type)
    (e : (if bol then line_match key (c :: s') else None) = x) :
  sub_from_unfold_clause_2 key t bol c s' (exist _ x e) =
    match x with
    | Some (m, r) => expand t m ++ sub_from key t (ends_line m) r
    | None => c :: sub_from key t (c =? nl) s'
    end.
Proof. destruct x as [[m r]|]; simp sub_from; reflexivity. Qed.

Lemma sub_from_cons key t bol c s' :
  sub_from key t bol (c :: s') =
    match (if bol then line_match key (c :: s') else None) with
    | Some (m, r) => expand t m ++ sub_from key t (ends_line m) r
    | None => c :: sub_from key t (c =? nl) s'
    end.
Proof. simp sub_from. unfold inspect. apply sub_from_clause. Qed.

Lemma sub_from_keep key t c s' :
  sub_from key t false (c :: s') = c :: sub_from key t (c =? nl) s'.
Proof. rewrite sub_from_cons. reflexivity. Qed.

Lemma sub_from_no_match key t c s' :
  starts key (c :: s') = false ->
  sub_from key t true (c :: s') = c :: sub_from key t (c =? nl) s'.
Proof.
  intros H. apply line_match_starts in H. rewrite sub_from_cons, H. reflexivity.
Qed.

Lemma sub_from_match key t c s' m r :
  line_match key (c :: s') = Some (m, r) ->
  sub_from key t true (c :: s') = expand t m ++ sub_from key t (ends_line m) r.
Proof. intros H. rewrite sub_from_cons, H. reflexivity. Qed.

Lemma expand_literal line m : expand (map Literal line) m = line.
Proof.
  unfold expand. induction line as [|c l IH]; simpl; [reflexivity|].
  rewrite IH. reflexivity.
Qed.

(** Within a line the scan copies. *)
Lemma sub_from_within key t a x :
  forallb dot a = true ->
  sub_from key t false (a ++ x) = a ++ sub_from key t false x.
Proof.
  induction a as [|c a IH]; simpl; [reflexivity|].
  intros H. apply andb_true_iff in H as [Hc Ha].
  rewrite sub_from_keep.
  rewrite (dot_true_eqb _ Hc).
  rewrite (IH Ha). reflexivity.
Qed.

Lemma sub_from_line_end key t x :
  (x = [] \/ exists r, x = nl :: r) ->
  sub_from key t false x = [] \/ exists r, sub_from key t false x = nl :: r.
Proof.
  intros [->|(r & ->)].
  - left. rewrite sub_from_equation_1. reflexivity.
  - right. rewrite sub_from_keep. eauto.
Qed.

(** The scan keeps the first line, and whether anything follows it. *)
Lemma sub_from_first_line key t s :
  take_while dot (sub_from key t false s) = take_while dot s
  /\ (skip dot (sub_from key t false s) = [] <-> skip dot s = []).
Proof.
  induction s as [|c s IH].
  - rewrite sub_from_equation_1. tauto.
  - rewrite sub_from_keep. simpl.
    destruct (dot c) eqn:Hc.
    + rewrite (dot_true_eqb _ Hc). destruct IH as [-> IH]. tauto.
    + split; [reflexivity|]. split; discriminate.
Qed.

Lemma starts_after_scan key key' t c s :
  forallb dot key = true ->
  starts key (c :: sub_from key' t (c =? nl) s) = starts key (c :: s).
Proof.
  intros Hk. apply starts_local; [exact Hk| |]; simpl.
  - destruct (dot c) eqn:Hc; [|reflexivity].
    rewrite (dot_true_eqb _ Hc), (proj1 (sub_from_first_line key' t s)). reflexivity.
  - destruct (dot c) eqn:Hc; [|split; discriminate].
    rewrite (dot_true_eqb _ Hc). apply sub_from_first_line.
Qed.

(** *** Settled texts *)

Lemma settled_after key line bol (a b : str) :
  settled key line bol (a ++ b) ->
  settled key line (match last a with Some c => c =? nl | None => bol end) b.
Proof.
  revert bol. induction a as [|c a IH]; intros bol H; [exact H|].
  destruct H as [_ H]. apply IH in H.
  destruct a as [|x a']; [exact H|].
  rewrite last_cons_cons.
  destruct (last (x :: a')) eqn:E; [exact H|].
  apply last_None in E. discriminate E.
Qed.

Lemma settled_within key line (a x : str) :
  forallb dot a = true -> settled key line false x -> settled key line false (a ++ x).
Proof.
  induction a as [|c a IH]; [intros _ H; exact H|].
  simpl. intros Ha H. apply andb_true_iff in Ha as [Hc Ha].
  split; [discriminate|]. rewrite (dot_true_eqb _ Hc). exact (IH Ha H).
Qed.

Lemma settled_line key line bol (l x : str) :
  forallb dot l = true -> l <> [] ->
  (bol = true -> starts key (l ++ x) = true -> fits line (l ++ x)) ->
  settled key line false x ->
  settled key line bol (l ++ x).
Proof.
  intros Hl Hne Hfit Hx. destruct l as [|c l]; [congruence|].
  simpl in Hl. apply andb_true_iff in Hl as [Hc Hl].
  split; [exact Hfit|]. rewrite (dot_true_eqb _ Hc).
  apply settled_within; assumption.
Qed.

Lemma settled_line_end key line (x : str) :
  (x = [] \/ exists r, x = nl :: r /\ settled key line true r) ->
  settled key line false x.
Proof.
  intros [->|(r & -> & H)]; simpl; [exact I|].
  split; [discriminate | exact H].
Qed.

Lemma ends_line_false (l : str) : forallb dot l = true -> ends_line l = false.
Proof.
  intros H. unfold ends_line. destruct (last l) as [c|] eqn:E; [|reflexivity].
  apply dot_true_eqb. exact (last_forallb dot l c H E).
Qed.

Lemma fits_self line rest :
  (rest = [] \/ exists r, rest = nl :: r) -> fits line (line ++ rest).
Proof. intros H. exists rest. split; [reflexivity | exact H]. Qed.

(** *** One substitution *)

Section OneStage.
Variables key line : str.
Hypothesis shape : well_shaped key line.

Let scan := sub_from key (map Literal line).

(** A settled text is left as it is. *)
Lemma scan_settled bol s : settled key line bol s -> scan bol s = s.
Proof.
  destruct shape as (Hk & Hl & Hne & Hmatch).
  remember (length s) as n eqn:Hn. revert bol s Hn.
  induction n as [n IH] using lt_wf_ind. intros bol [|c t] Hn Hs.
  - unfold scan. rewrite sub_from_equation_1. reflexivity.
  - unfold scan. destruct bol; [|].
    + destruct (starts key (c :: t)) eqn:Hst.
      * destruct Hs as [Hfit Hs]. destruct (Hfit eq_refl Hst) as (rest & Heq & Hrest).
        pose proof (Hmatch rest Hrest) as Hm. rewrite <- Heq in Hm.
        rewrite (sub_from_match _ _ _ _ _ _ Hm), expand_literal.
        rewrite (ends_line_false _ Hl).
        assert (Hlen : (length rest < n)%nat).
        { subst n. rewrite Heq, length_app. destruct line; [congruence|]. simpl. lia. }
        assert (Hsr : settled key line false rest).
        { pose proof (settled_after key line true line rest) as H.
          rewrite <- Heq in H. specialize (H (conj Hfit Hs)).
          pose proof (ends_line_false _ Hl) as He. unfold ends_line in He.
          destruct (last line) as [z|] eqn:El; [rewrite He in H; exact H|].
          apply last_None in El. congruence. }
        fold scan. rewrite (IH _ Hlen false rest eq_refl Hsr). symmetry. exact Heq.
      * rewrite (sub_from_no_match _ _ _ _ Hst). fold scan.
        destruct Hs as [_ Hs]. f_equal.
        apply (IH (length t)); [subst n; simpl; lia | reflexivity | exact Hs].
    + rewrite sub_from_keep. fold scan. destruct Hs as [_ Hs]. f_equal.
      apply (IH (length t)); [subst n; simpl; lia | reflexivity | exact Hs].
Qed.

(** The substitution settles any text. *)
Lemma scan_settles bol s : settled key line bol (scan bol s).
Proof.
  destruct shape as (Hk & Hl & Hne & Hmatch).
  remember (length s) as n eqn:Hn. revert bol s Hn.
  induction n as [n IH] using lt_wf_ind. intros bol [|c t] Hn.
  - unfold scan. rewrite sub_from_equation_1. exact I.
  - unfold scan. destruct bol.
    + destruct (line_match key (c :: t)) as [[m r]|] eqn:Hm.
      * rewrite (sub_from_match _ _ _ _ _ _ Hm), expand_literal. fold scan.
        destruct (line_match_split _ _ _ _ Hm) as (Heq & Hr & He).
        assert (Hlen : forall r', r = nl :: r' -> (length r' < n)%nat).
        { intros r' ->. subst n. rewrite Heq, length_app. simpl. lia. }
        apply settled_line; [exact Hl | exact Hne | |].
        -- intros _ _. apply fits_self.
           destruct Hr as [->|(r' & ->)].
           ++ left. unfold scan. rewrite sub_from_equation_1. reflexivity.
           ++ right. destruct (ends_line m) eqn:Em; [discriminate (He eq_refl)|].
              unfold scan. rewrite sub_from_keep. eauto.
        -- destruct Hr as [->|(r' & ->)].
           ++ unfold scan. rewrite sub_from_equation_1. exact I.
           ++ destruct (ends_line m) eqn:Em; [discriminate (He eq_refl)|].
              unfold scan. rewrite sub_from_keep. fold scan.
              split; [discriminate|]. rewrite N.eqb_refl.
              apply (IH (length r')); [apply Hlen; reflexivity | reflexivity].
      * apply line_match_starts in Hm.
        rewrite (sub_from_no_match _ _ _ _ Hm). fold scan.
        split.
        -- intros _ Hst. unfold scan in Hst.
           rewrite (starts_after_scan key key _ c t Hk), Hm in Hst. discriminate Hst.
        -- apply (IH (length t)); [subst n; simpl; lia | reflexivity].
    + rewrite sub_from_keep. fold scan. split; [discriminate|].
      apply (IH (length t)); [subst n; simpl; lia | reflexivity].
Qed.

(** Another substitution keeps the text settled, when the line it writes is
    not one the pattern of [key] matches. *)
Lemma other_scan_keeps_settled key' line' bol s :
  well_shaped key' line' ->
  (forall x, starts key (line' ++ x) = false) ->
  settled key line bol s ->
  settled key line bol (sub_from key' (map Literal line') bol s).
Proof.
  destruct shape as (Hk & Hl & Hne & Hmatch).
  intros (Hk' & Hl' & Hne' & Hmatch') Hcross.
  remember (length s) as n eqn:Hn. revert bol s Hn.
  induction n as [n IH] using lt_wf_ind. intros bol [|c t] Hn Hs.
  - rewrite sub_from_equation_1. exact I.
  - destruct bol.
    + destruct (line_match key' (c :: t)) as [[m r]|] eqn:Hm.
      * rewrite (sub_from_match _ _ _ _ _ _ Hm), expand_literal.
        destruct (line_match_split _ _ _ _ Hm) as (Heq & Hr & He).
        apply settled_line; [exact Hl' | exact Hne' | |].
        -- intros _ Hst. rewrite Hcross in Hst. discriminate Hst.
        -- destruct Hr as [->|(r' & ->)].
           ++ rewrite sub_from_equation_1. exact I.
           ++ destruct (ends_line m) eqn:Em; [discriminate (He eq_refl)|].
              rewrite sub_from_keep. split; [discriminate|]. rewrite N.eqb_refl.
              apply (IH (length r')); [subst n; rewrite Heq, length_app; simpl; lia
                                     | reflexivity |].
              pose proof (settled_after key line true m (nl :: r')) as H.
              rewrite <- Heq in H. specialize (H Hs).
              destruct H as [_ H]. rewrite N.eqb_refl in H. exact H.
      * apply line_match_starts in Hm.
        rewrite (sub_from_no_match _ _ _ _ Hm).
        destruct Hs as [Hfit Hs].
        split.
        -- intros _ Hst. rewrite (starts_after_scan key key' _ c t Hk) in Hst.
           destruct (Hfit eq_refl Hst) as (rest & Heq & Hrest).
           destruct line as [|c0 l0] eqn:El; [congruence|].
           injection Heq as <- ->.
           simpl in Hl. apply andb_true_iff in Hl as [Hc Hl0].
           rewrite (dot_true_eqb _ Hc), (sub_from_within _ _ _ _ Hl0).
           exists (sub_from key' (map Literal line') false rest).
           split; [reflexivity|]. apply sub_from_line_end. exact Hrest.
        -- apply (IH (length t)); [subst n; simpl; lia | reflexivity | exact Hs].
    + rewrite sub_from_keep. destruct Hs as [_ Hs]. split; [discriminate|].
      apply (IH (length t)); [subst n; simpl; lia | reflexivity | exact Hs].
Qed.

End OneStage.

(** *** Several substitutions *)

Lemma scan_stages_keep key line (l : list (str * str)) content :
  well_shaped key line ->
  Forall (fun st' => well_shaped (fst st') (snd st')
                     /\ forall x, starts key (snd st' ++ x) = false) l ->
  settled key line true content ->
  settled key line true (scan_stages l content).
Proof.
  intros Hshape Hl. revert content.
  induction Hl as [|[key' line'] l [Hs' Hc] _ IH]; intros content H; [exact H|].
  simpl. apply IH. apply other_scan_keeps_settled; assumption.
Qed.

Lemma apart_shapes l : apart l -> Forall (fun st => well_shaped (fst st) (snd st)) l.
Proof.
  induction l as [|[key line] l IH]; [constructor|].
  intros (H1 & _ & H3). constructor; [exact H1 | exact (IH H3)].
Qed.

Lemma scan_stages_settle l content :
  apart l ->
  Forall (fun st => settled (fst st) (snd st) true (scan_stages l content)) l.
Proof.
  revert content. induction l as [|[key line] l IH]; intros content Hl; [constructor|].
  destruct Hl as (Hshape & Hcross & Hl). constructor.
  - simpl. apply scan_stages_keep; [exact Hshape | | apply scan_settles; exact Hshape].
    pose proof (apart_shapes l Hl) as Hs.
    clear -Hs Hcross. induction Hs as [|x l Hx Hs IH]; [constructor|].
    apply Forall_cons in Hcross as [Hc Hcross]. constructor; [split; assumption|].
    apply IH. exact Hcross.
  - apply IH. exact Hl.
Qed.

Lemma scan_stages_fixed l content :
  apart l ->
  Forall (fun st => settled (fst st) (snd st) true content) l ->
  scan_stages l content = content.
Proof.
  induction l as [|[key line] l IH]; [reflexivity|].
  intros (Hshape & _ & Hl) H. apply Forall_cons in H as [H1 H2].
  simpl. rewrite (scan_settled key line Hshape true content H1).
  exact (IH Hl H2).
Qed.

(** Stages that are apart make an idempotent pass. *)
Lemma scan_stages_idempotent l content :
  apart l -> scan_stages l (scan_stages l content) = scan_stages l content.
Proof.
  intros Hl. apply scan_stages_fixed; [exact Hl|].
  apply scan_stages_settle. exact Hl.
Qed.

(** *** Templates without a backslash *)

Lemma parse_template_literal s n :
  free_of backslash s = true -> (length s <= n)%nat ->
  parse_template n s = Ok (map Literal s).
Proof.
  revert n. induction s as [|c s IH]; intros n Hs Hn.
  - destruct n; reflexivity.
  - destruct n as [|n]; [simpl in Hn; lia|].
    simpl in Hs. apply andb_true_iff in Hs as [Hc Hs].
    cbn [parse_template]. rewrite Hc.
    rewrite (IH n Hs ltac:(simpl in Hn; lia)). reflexivity.
Qed.

Lemma re_sub_literal key line s :
  free_of backslash line = true ->
  re_sub key line s = Ok (sub_from key (map Literal line) true s).
Proof.
  intros H. unfold re_sub.
  rewrite (parse_template_literal line (length line) H (Nat.le_refl _)).
  reflexivity.
Qed.

Lemma run_stages_literal l content :
  Forall (fun st => free_of backslash (snd st) = true) l ->
  run_stages l content = Ok (scan_stages l content).
Proof.
  intros Hl. revert content.
  induction Hl as [|[key line] l H _ IH]; intros content; [reflexivity|].
  simpl. rewrite (re_sub_literal key line content H). simpl. apply IH.
Qed.

Lemma bind_ok {A} (r : result A) : (try! x <- r in Ok x) = r.
Proof. destruct r; reflexivity. Qed.

Lemma update_content_stages content version tv ev release :
  update_content content version tv ev release =
    if within_str_digits release
    then run_stages (stages version tv ev release) content
    else try! content <-
           re_sub (lit "Version:") (lit "Version:        " ++ version) content in
         Raise ValueError.
Proof.
  unfold update_content, stages, within_str_digits, py_str.
  destruct release as [r|]; [destruct (beyond_str_digits r)|]; cbn [negb bind];
    [reflexivity | |];
    destruct (truthy_opt tv); destruct (truthy_opt ev);
    cbn [app run_stages];
    repeat (match goal with
            | |- context [re_sub ?k ?l ?c] =>
                destruct (re_sub k l c); cbn [bind]; try reflexivity
            end).
Qed.

(** *** The lines the updater writes *)

Lemma first_not_space v :
  existsb not_space v = true ->
  exists v1 x v2, v = v1 ++ x :: v2 /\ forallb is_space v1 = true /\ is_space x = false.
Proof.
  induction v as [|c v IH]; [discriminate|].
  simpl. destruct (is_space c) eqn:Hc.
  - unfold not_space at 1. rewrite Hc. simpl. intros H.
    destruct (IH H) as (v1 & x & v2 & -> & H1 & H2).
    exists (c :: v1), x, v2. simpl. rewrite Hc. auto.
  - intros _. exists [], c, v. auto.
Qed.

Lemma well_shaped_intro key pad v :
  forallb dot key = true ->
  pad <> [] -> forallb is_space pad = true -> forallb dot pad = true ->
  forallb dot v = true -> existsb not_space v = true ->
  well_shaped key (key ++ pad ++ v).
Proof.
  intros Hk Hne Hsp Hpd Hv Hex. split; [exact Hk|]. split; [|split].
  - rewrite !forallb_app, Hk, Hpd, Hv. reflexivity.
  - destruct key; [destruct pad; [congruence | discriminate] | discriminate].
  - intros rest Hrest.
    destruct (first_not_space v Hex) as (v1 & x & v2 & -> & H1 & H2).
    rewrite forallb_app in Hv. apply andb_true_iff in Hv as [_ Hv2].
    unfold line_match, key_ws.
    rewrite <- !app_assoc, strip_prefix_app.
    destruct pad as [|p pad]; [congruence|].
    simpl in Hsp. apply andb_true_iff in Hsp as [Hp Hsp].
    cbn [app]. rewrite Hp.
    assert (Hws : forallb is_space ((p :: pad) ++ v1) = true).
    { rewrite forallb_app, H1. simpl. rewrite Hp, Hsp. reflexivity. }
    replace (p :: pad ++ v1 ++ x :: v2 ++ rest)
      with (((p :: pad) ++ v1) ++ x :: v2 ++ rest)
      by (rewrite <- app_assoc; reflexivity).
    rewrite (take_while_all _ _ _ Hws), (skip_all _ _ _ Hws).
    rewrite (take_while_stop is_space x _ H2), (skip_stop is_space x _ H2).
    change (x :: v2 ++ rest) with ((x :: v2) ++ rest).
    rewrite (take_while_all _ _ _ Hv2), (skip_all _ _ _ Hv2).
    assert (Hr : take_while dot rest = [] /\ skip dot rest = rest).
    { destruct Hrest as [->|(r & ->)]; split; reflexivity. }
    destruct Hr as [-> ->].
    rewrite !app_nil_r, <- !app_assoc. reflexivity.
Qed.

Lemma forallb_imp (p q : N -> bool) (s : str) :
  (forall c, p c = true -> q c = true) -> forallb p s = true -> forallb q s = true.
Proof.
  intros H. induction s as [|c s IH]; [reflexivity|].
  simpl. intros Hs. apply andb_true_iff in Hs as [Hc Hs].
  rewrite (H c Hc), (IH Hs). reflexivity.
Qed.

Lemma plain_parts v :
  plain v = true ->
  forallb dot v = true /\ free_of cr v = true /\ free_of backslash v = true
  /\ existsb not_space v = true.
Proof.
  unfold plain. intros H. apply andb_true_iff in H as [H He].
  repeat split; try exact He; unfold free_of;
    (eapply forallb_imp; [|exact H]); intros c Hc;
    apply andb_true_iff in Hc as [Hc H3]; apply andb_true_iff in Hc as [H1 H2];
    assumption.
Qed.

Lemma digits_of_uint_chars d : forallb sign_or_digit (digits_of_uint d) = true.
Proof. induction d; simpl; try rewrite IHd; reflexivity. Qed.

Lemma str_of_int_chars n : forallb sign_or_digit (str_of_int n) = true.
Proof.
  destruct n; simpl; try rewrite digits_of_uint_chars; reflexivity.
Qed.

Lemma sign_or_digit_not x :
  sign_or_digit x = false -> forall c, sign_or_digit c = true -> negb (c =? x) = true.
Proof.
  intros Hx c Hc. destruct (c =? x) eqn:E; [|reflexivity].
  apply N.eqb_eq in E as ->. congruence.
Qed.

Lemma release_value_parts n :
  let v := str_of_int n ++ lit "%{?dist}" in
  forallb dot v = true /\ free_of cr v = true /\ free_of backslash v = true
  /\ existsb not_space v = true.
Proof.
  cbv zeta. unfold free_of. rewrite !forallb_app, existsb_app.
  pose proof (str_of_int_chars n) as H.
  rewrite (forallb_imp _ dot _ (sign_or_digit_not nl eq_refl) H).
  rewrite (forallb_imp _ _ _ (sign_or_digit_not cr eq_refl) H).
  rewrite (forallb_imp _ _ _ (sign_or_digit_not backslash eq_refl) H).
  repeat split; try reflexivity. apply orb_true_iff. right. reflexivity.
Qed.

Lemma free_of_app x (a b : str) : free_of x (a ++ b) = free_of x a && free_of x b.
Proof. apply forallb_app. Qed.

(** A stage whose value keeps to its line. *)
Lemma stage_ok key pad v :
  forallb dot key = true -> free_of cr key = true -> free_of backslash key = true ->
  pad <> [] -> forallb is_space pad = true -> forallb dot pad = true ->
  free_of cr pad = true -> free_of backslash pad = true ->
  forallb dot v = true /\ free_of cr v = true /\ free_of backslash v = true
  /\ existsb not_space v = true ->
  well_shaped key (key ++ pad ++ v)
  /\ free_of backslash (key ++ pad ++ v) = true
  /\ free_of cr (key ++ pad ++ v) = true.
Proof.
  intros K1 K2 K3 P0 P1 P2 P3 P4 (V1 & V2 & V3 & V4).
  split; [apply well_shaped_intro; assumption|].
  rewrite !free_of_app, K2, K3, P3, P4, V2, V3. split; reflexivity.
Qed.

Lemma stage_version_ok v :
  plain v = true ->
  well_shaped (lit "Version:") (lit "Version:        " ++ v)
  /\ free_of backslash (lit "Version:        " ++ v) = true
  /\ free_of cr (lit "Version:        " ++ v) = true.
Proof.
  intros H. apply plain_parts in H.
  exact (stage_ok (lit "Version:") (lit "        ") v eq_refl eq_refl eq_refl
           ltac:(discriminate) eq_refl eq_refl eq_refl eq_refl H).
Qed.

Lemma stage_release_ok n :
  well_shaped (lit "Release:") (lit "Release:        " ++ str_of_int n ++ lit "%{?dist}")
  /\ free_of backslash (lit "Release:        " ++ str_of_int n ++ lit "%{?dist}") = true
  /\ free_of cr (lit "Release:        " ++ str_of_int n ++ lit "%{?dist}") = true.
Proof.
  exact (stage_ok (lit "Release:") (lit "        ") _ eq_refl eq_refl eq_refl
           ltac:(discriminate) eq_refl eq_refl eq_refl eq_refl (release_value_parts n)).
Qed.

Lemma stage_theia_ok v :
  plain v = true ->
  well_shaped (lit "%global theia_version") (lit "%global theia_version " ++ v)
  /\ free_of backslash (lit "%global theia_version " ++ v) = true
  /\ free_of cr (lit "%global theia_version " ++ v) = true.
Proof.
  intros H. apply plain_parts in H.
  exact (stage_ok (lit "%global theia_version") (lit " ") v eq_refl eq_refl eq_refl
           ltac:(discriminate) eq_refl eq_refl eq_refl eq_refl H).
Qed.

Lemma stage_electron_ok v :
  plain v = true ->
  well_shaped (lit "%global electron_version") (lit "%global electron_version " ++ v)
  /\ free_of backslash (lit "%global electron_version " ++ v) = true
  /\ free_of cr (lit "%global electron_version " ++ v) = true.
Proof.
  intros H. apply plain_parts in H.
  exact (stage_ok (lit "%global electron_version") (lit " ") v eq_refl eq_refl eq_refl
           ltac:(discriminate) eq_refl eq_refl eq_refl eq_refl H).
Qed.

Lemma used_plain o :
  plain_if_used o = true -> truthy_opt o = true -> plain (default [] o) = true.
Proof.
  destruct o as [[|c v]|]; simpl; try discriminate. intros H _. exact H.
Qed.

(** The stages of a call with plain values are apart, and their lines hold
    neither a backslash nor a carriage return. *)
Lemma stages_ok version tv ev release :
  plain version = true -> plain_if_used tv = true -> plain_if_used ev = true ->
  apart (stages version tv ev release)
  /\ Forall (fun st => free_of backslash (snd st) = true /\ free_of cr (snd st) = true)
       (stages version tv ev release).
Proof.
  intros Hv Htv Hev.
  destruct (stage_version_ok version Hv) as (V1 & V2 & V3).
  unfold stages.
  destruct release as [n|];
    [destruct (stage_release_ok n) as (R1 & R2 & R3)|];
    (destruct (truthy_opt tv) eqn:Et;
       [destruct (stage_theia_ok _ (used_plain tv Htv Et)) as (T1 & T2 & T3)|]);
    (destruct (truthy_opt ev) eqn:Ee;
       [destruct (stage_electron_ok _ (used_plain ev Hev Ee)) as (E1 & E2 & E3)|]);
    cbn [app apart snd];
    (split;
     [ repeat (split; [assumption || exact I
                       || (repeat constructor; intros x; cbn [snd];
                           vm_compute; reflexivity) |]);
       try exact I
     | repeat constructor; assumption ]).
Qed.

(** *** Carriage returns and the file *)

Lemma sub_from_free_of x key line bol s :
  free_of x line = true -> free_of x s = true ->
  free_of x (sub_from key (map Literal line) bol s) = true.
Proof.
  intros Hline.
  remember (length s) as n eqn:Hn. revert bol s Hn.
  induction n as [n IH] using lt_wf_ind. intros bol [|c t] Hn Hs.
  - rewrite sub_from_equation_1. reflexivity.
  - rewrite sub_from_cons.
    destruct (if bol then line_match key (c :: t) else None) as [[m r]|] eqn:Hm.
    + destruct bol; [|discriminate Hm].
      destruct (line_match_split _ _ _ _ Hm) as (Heq & _ & _).
      rewrite expand_literal, free_of_app, Hline. simpl.
      pose proof (line_match_nonempty _ _ _ _ Hm) as Hne.
      apply (IH (length r)).
      * subst n. rewrite Heq, length_app. destruct m; [congruence|]. simpl. lia.
      * reflexivity.
      * rewrite Heq, free_of_app in Hs. apply andb_true_iff in Hs as [_ Hs]. exact Hs.
    + simpl in Hs. apply andb_true_iff in Hs as [Hc Hs].
      change (free_of x (c :: sub_from key (map Literal line) (c =? nl) t))
        with (negb (c =? x) && free_of x (sub_from key (map Literal line) (c =? nl) t)).
      rewrite Hc. simpl.
      apply (IH (length t)); [subst n; simpl; lia | reflexivity | exact Hs].
Qed.

Lemma scan_stages_free_of x l content :
  Forall (fun st => free_of x (snd st) = true) l ->
  free_of x content = true ->
  free_of x (scan_stages l content) = true.
Proof.
  intros Hl. revert content.
  induction Hl as [|[key line] l H _ IH]; intros content Hc; [exact Hc|].
  simpl. apply IH. apply sub_from_free_of; assumption.
Qed.

Lemma universal_newlines_free after_cr s :
  free_of cr (universal_newlines after_cr s) = true.
Proof.
  revert after_cr. induction s as [|c s IH]; intros after_cr; [reflexivity|].
  simpl. destruct (c =? cr) eqn:Hc; [exact (IH true)|].
  destruct (after_cr && (c =? nl)); [exact (IH false)|].
  change (negb (c =? cr) && free_of cr (universal_newlines false s) = true).
  rewrite Hc, IH. reflexivity.
Qed.

Lemma universal_newlines_id s : free_of cr s = true -> universal_newlines false s = s.
Proof.
  induction s as [|c s IH]; [reflexivity|].
  simpl. intros H. apply andb_true_iff in H as [Hc Hs].
  apply negb_true_iff in Hc. rewrite Hc, (IH Hs). reflexivity.
Qed.

(** With plain values the four substitutions come down to the scans. *)
Lemma update_content_plain content version tv ev release :
  plain version = true -> plain_if_used tv = true -> plain_if_used ev = true ->
  update_content content version tv ev release =
    if within_str_digits release
    then Ok (scan_stages (stages version tv ev release) content)
    else Raise ValueError.
Proof.
  intros Hv Htv Hev.
  destruct (stages_ok version tv ev release Hv Htv Hev) as [_ Hl].
  rewrite update_content_stages. destruct (within_str_digits release).
  - apply run_stages_literal.
    eapply Forall_impl; [exact Hl|]. intros st [H _]. exact H.
  - rewrite (re_sub_literal (lit "Version:") (lit "Version:        " ++ version) content);
      [reflexivity|].
    apply Forall_inv in Hl. exact (proj1 Hl).
Qed.

(** *** Text that can be written *)

Lemma sub_from_forallb (P : N -> bool) key line bol s :
  forallb P line = true -> forallb P s = true ->
  forallb P (sub_from key (map Literal line) bol s) = true.
Proof.
  intros Hline.
  remember (length s) as n eqn:Hn. revert bol s Hn.
  induction n as [n IH] using lt_wf_ind. intros bol [|c t] Hn Hs.
  - rewrite sub_from_equation_1. reflexivity.
  - rewrite sub_from_cons.
    destruct (if bol then line_match key (c :: t) else None) as [[m r]|] eqn:Hm.
    + destruct bol; [|discriminate Hm].
      destruct (line_match_split _ _ _ _ Hm) as (Heq & _ & _).
      rewrite expand_literal, forallb_app, Hline. cbn [andb].
      pose proof (line_match_nonempty _ _ _ _ Hm) as Hne.
      apply (IH (length r)).
      * subst n. rewrite Heq, length_app. destruct m; [congruence|]. simpl. lia.
      * reflexivity.
      * rewrite Heq, forallb_app in Hs. apply andb_true_iff in Hs as [_ Hs]. exact Hs.
    + cbn [forallb] in Hs |- *. apply andb_true_iff in Hs as [Hc Hs].
      rewrite Hc. cbn [andb].
      apply (IH (length t)); [subst n; simpl; lia | reflexivity | exact Hs].
Qed.

Lemma scan_stages_forallb (P : N -> bool) l content :
  Forall (fun st => forallb P (snd st) = true) l ->
  forallb P content = true ->
  forallb P (scan_stages l content) = true.
Proof.
  intros Hl. revert content.
  induction Hl as [|[key line] l H _ IH]; intros content Hc; [exact Hc|].
  simpl. apply IH. apply sub_from_forallb; assumption.
Qed.

Lemma universal_newlines_forallb (P : N -> bool) after_cr s :
  P nl = true -> forallb P s = true ->
  forallb P (universal_newlines after_cr s) = true.
Proof.
  intros Hnl. revert after_cr. induction s as [|c s IH]; intros after_cr H; [reflexivity|].
  cbn [forallb] in H. apply andb_true_iff in H as [Hc Hs].
  cbn [universal_newlines].
  destruct (c =? cr); [cbn [forallb]; rewrite Hnl; exact (IH true Hs)|].
  destruct (after_cr && (c =? nl)); [exact (IH false Hs)|].
  cbn [forallb]. rewrite Hc. exact (IH false Hs).
Qed.

Lemma str_of_int_encodable n : encodable (str_of_int n) = true.
Proof.
  unfold encodable. eapply forallb_imp; [|apply str_of_int_chars].
  intros c Hc. unfold sign_or_digit in Hc. unfold is_scalar.
  apply orb_true_iff. left. apply N.ltb_lt.
  apply orb_true_iff in Hc as [Hc|Hc].
  - apply N.eqb_eq in Hc. lia.
  - apply andb_true_iff in Hc as [_ Hc]. apply N.leb_le in Hc. lia.
Qed.

Lemma used_encodable o :
  encodable_if_used o = true -> truthy_opt o = true -> encodable (default [] o) = true.
Proof. unfold encodable_if_used. intros H Ht. rewrite Ht in H. exact H. Qed.

(** The lines the updater writes can be encoded when the values can. *)
Lemma stages_encodable version tv ev release :
  encodable version = true -> encodable_if_used tv = true ->
  encodable_if_used ev = true ->
  Forall (fun st => encodable (snd st) = true) (stages version tv ev release).
Proof.
  intros Hv Htv Hev. unfold stages.
  repeat apply Forall_app_2.
  - constructor; [|constructor]. cbn [snd]. unfold encodable in *.
    rewrite forallb_app, Hv. reflexivity.
  - destruct release as [r|]; [|constructor].
    constructor; [|constructor]. cbn [snd].
    pose proof (str_of_int_encodable r) as Hr. unfold encodable in *.
    rewrite !forallb_app, Hr. reflexivity.
  - destruct (truthy_opt tv) eqn:Et; [|constructor].
    constructor; [|constructor]. cbn [snd].
    pose proof (used_encodable _ Htv Et) as Ht. unfold encodable in *.
    rewrite forallb_app, Ht. reflexivity.
  - destruct (truthy_opt ev) eqn:Et; [|constructor].
    constructor; [|constructor]. cbn [snd].
    pose proof (used_encodable _ Hev Et) as Ht. unfold encodable in *.
    rewrite forallb_app, Ht. reflexivity.
Qed.

(** What the updater computes from text that can be encoded, with values
    that can, can be written. *)
Lemma scan_stages_encodable spec_file version tv ev release :
  encodable spec_file = true ->
  encodable version = true -> encodable_if_used tv = true ->
  encodable_if_used ev = true ->
  encodable (scan_stages (stages version tv ev release) (read_text spec_file)) = true.
Proof.
  intros Hs Hv Htv Hev.
  apply (scan_stages_forallb is_scalar).
  - apply stages_encodable; assumption.
  - apply universal_newlines_forallb; [reflexivity | exact Hs].
Qed.

(** C7, as the code has it.  Take version strings that are plain (no
    backslash, no newline or carriage return, at least one character that is
    not white space; the optional two only when they are used), a spec file
    and version strings that can be encoded, and a release number within the
    digit limit of [int].  Then the updater returns both times, and run on
    what it left it computes the same content again: it rewrites nothing and
    returns [False]. *)
Theorem update_spec_file_idempotent
    (spec_file version : str) (theia_version electron_version : option str)
    (release : option Z) :
  plain version = true ->
  plain_if_used theia_version = true ->
  plain_if_used electron_version = true ->
  encodable spec_file = true ->
  encodable version = true ->
  encodable_if_used theia_version = true ->
  encodable_if_used electron_version = true ->
  within_str_digits release = true ->
  idempotent_at spec_file version theia_version electron_version release.
Proof.
  intros Hv Htv Hev Es Ev Etv Eev Hr. unfold idempotent_at, update_spec_file.
  destruct (stages_ok version theia_version electron_version release Hv Htv Hev)
    as [Hapart Hl].
  pose proof (scan_stages_encodable spec_file version theia_version electron_version
                release Es Ev Etv Eev) as Henc.
  set (l := stages version theia_version electron_version release) in *.
  rewrite (update_content_plain _ _ _ _ release Hv Htv Hev), Hr. fold l.
  destruct (decide (scan_stages l (read_text spec_file) = read_text spec_file))
    as [Hsame|Hdiff].
  - exists spec_file, false. split; [reflexivity|].
    rewrite (update_content_plain _ _ _ _ release Hv Htv Hev), Hr. fold l.
    destruct (decide (scan_stages l (read_text spec_file) = read_text spec_file));
      [reflexivity | contradiction].
  - exists (scan_stages l (read_text spec_file)), true.
    rewrite Henc, Ev, Etv, Eev. cbn [negb andb]. split; [reflexivity|].
    assert (Hcr : free_of cr (scan_stages l (read_text spec_file)) = true).
    { apply scan_stages_free_of; [|apply universal_newlines_free].
      eapply Forall_impl; [exact Hl|]. intros st [_ H]. exact H. }
    assert (Hread : read_text (scan_stages l (read_text spec_file))
                    = scan_stages l (read_text spec_file))
      by (apply universal_newlines_id; exact Hcr).
    rewrite Hread.
    rewrite (update_content_plain _ _ _ _ release Hv Htv Hev), Hr. fold l.
    rewrite (scan_stages_idempotent l _ Hapart).
    destruct (decide (scan_stages l (read_text spec_file)
                      = scan_stages l (read_text spec_file)));
      [reflexivity | contradiction].
Qed.

End SpecFileProperties.

(** * Concrete runs *)

Section Runs.
Import Scenarios.

(** ** Release numbers (section 8) *)

Example release_same_version :
  Copr.get_copr_release_number curl_answers (lit "1.67.100") = Ok 4%Z.
Proof. vm_compute. reflexivity. Qed.

Example release_new_version :
  Copr.get_copr_release_number curl_answers (lit "1.68.0") = Ok 1%Z.
Proof. vm_compute. reflexivity. Qed.

Example release_fetch_failure :
  Copr.get_copr_release_number curl_fails (lit "1.67.100") = Ok 1%Z
  /\ Copr.get_copr_release_number curl_hangs (lit "1.67.100") = Ok 1%Z
  /\ Copr.get_copr_release_number bot_page (lit "1.67.100") = Ok 1%Z.
Proof. vm_compute. split; [|split]; reflexivity. Qed.

(** The fetched spec file of section 4.6 is what the fetch of the code
    gives in each of these worlds. *)
Example fetched_in_the_scenarios :
  Copr.fetched curl_answers = Some previous_spec
  /\ Copr.fetched curl_fails = None
  /\ Copr.fetched curl_hangs = None
  /\ Copr.fetched bot_page = None.
Proof. vm_compute. split; [|split; [|split]]; reflexivity. Qed.

(** C1 as the spec states it fails here.  The spec file is fetched, both
    fields are parsed (the release is 4300 nines, which [int] reads) and the
    parsed version is the requested one; the parsed release plus 1 has 4301
    digits, the line that reports it cannot be formatted, and the handler
    returns 1. *)
Lemma release_after_4300_nines_is_1 :
  Copr.parsed_version spec_of_nines = Some (lit "1.67.100")
  /\ Copr.parsed_release spec_of_nines = Some (10 ^ 4300 - 1)%Z
  /\ Copr.contract (Copr.fetched curl_answers_nines) (lit "1.67.100")
     = (10 ^ 4300)%Z
  /\ Copr.get_copr_release_number curl_answers_nines (lit "1.67.100") = Ok 1%Z
  /\ Copr.get_copr_release_number curl_answers_nines (lit "1.67.100")
     <> Ok (Copr.contract (Copr.fetched curl_answers_nines) (lit "1.67.100")).
Proof.
  assert (H3 : Copr.contract (Copr.fetched curl_answers_nines) (lit "1.67.100")
               = (10 ^ 4300)%Z) by (vm_compute; reflexivity).
  assert (H4 : Copr.get_copr_release_number curl_answers_nines (lit "1.67.100")
               = Ok 1%Z) by (vm_compute; reflexivity).
  split; [vm_compute; reflexivity|]. split; [vm_compute; reflexivity|].
  split; [exact H3|]. split; [exact H4|].
  rewrite H4, H3. intros H.
  apply (f_equal (fun r => match r with Ok n => n | Raise _ => 0%Z end)) in H.
  pose proof (proj1 (Z.pow_gt_1 10 4300 eq_refl) eq_refl) as Hp.
  rewrite <- H in Hp. exact (Z.lt_irrefl _ Hp).
Qed.

(** ** The driver *)

Lemma resolve_version_priority_witness :
  Driver.resolve_version
    (with_versions (Some (lit "1.0.0")) (Some (lit "2.0.0")) true) (checkout ∅)
    = Driver.Goes_on (lit "2.0.0")
  /\ Driver.resolve_version (with_versions (Some (lit "1.0.0")) None true) (checkout ∅)
    = Driver.Goes_on (lit "1.0.0")
  /\ Driver.resolve_version (with_versions None None true) (checkout ∅)
    = Driver.Goes_on (lit "1.68.0")
  /\ Driver.resolve_version (with_versions None None false) (checkout ∅)
    = Driver.Goes_on (lit "1.67.100")
  /\ Driver.resolve_version (with_versions None None true) no_version_anywhere
    = Driver.Sys_exit 1
  /\ Driver.resolve_version (with_versions None None false) no_version_anywhere
    = Driver.Sys_exit 1.
Proof.
  split; [|split; [|split; [|split; [|split]]]].
  - apply (proj1 (resolve_version_priority _ _)). reflexivity.
  - apply (proj1 (resolve_version_priority _ _)). reflexivity.
  - rewrite (proj1 (proj2 (resolve_version_priority _ _))); reflexivity.
  - rewrite (proj1 (proj2 (proj2 (resolve_version_priority _ _)))); reflexivity.
  - rewrite (proj1 (proj2 (resolve_version_priority _ _))); reflexivity.
  - rewrite (proj1 (proj2 (proj2 (resolve_version_priority _ _)))); reflexivity.
Defined.

Lemma generation_first_match_witness :
  Driver.generation (with_flags true true true true true true) = (true, false, false)
  /\ Driver.generation (with_flags false true true true true true) = (false, true, false)
  /\ Driver.generation (with_flags false false true true true true) = (false, false, true)
  /\ Driver.generation (with_flags false false false true false true) = (false, true, false).
Proof.
  split; [|split; [|split]].
  - apply (proj1 (generation_first_match _)). reflexivity.
  - apply (proj1 (proj2 (generation_first_match _))); reflexivity.
  - apply (proj1 (proj2 (proj2 (generation_first_match _)))); reflexivity.
  - rewrite (proj1 (proj2 (proj2 (proj2 (generation_first_match
               (with_flags false false false true false true)))))
               eq_refl eq_refl eq_refl).
    reflexivity.
Defined.

Lemma copr_output_dir_witness :
  Driver.output_dir copr_run
    (checkout {[ lit "COPR_RESULTDIR" := lit "/results"; lit "resultdir" := lit "/old" ]})
    = lit "/results"
  /\ Driver.output_dir copr_run (checkout {[ lit "resultdir" := lit "/old" ]})
    = lit "/old"
  /\ Driver.output_dir copr_run (checkout ∅) = lit "/workdir/rpm".
Proof.
  split; [|split].
  - rewrite (copr_output_dir copr_run _ eq_refl eq_refl). vm_compute. reflexivity.
  - rewrite (copr_output_dir copr_run _ eq_refl eq_refl). vm_compute. reflexivity.
  - rewrite (copr_output_dir copr_run _ eq_refl eq_refl). vm_compute. reflexivity.
Defined.

(** ** Checksums *)

(** The digest of ["abc"], as FIPS 180-4 gives it. *)
Example sha256_abc :
  SHA256.hexdigest (lit "abc")
  = lit "ba7816bf8f01cfea414140de5dae2223b00361a396177a9cb410ff61f20015ad".
Proof. vm_compute. reflexivity. Qed.

Example sha256_two_blocks :
  SHA256.hexdigest (repeat 97 56)
  = lit "b35439a4ac6f0948b6d6f9e3c6af0f5f590ce20f1bde7090ef7970686ec6738a".
Proof. vm_compute. reflexivity. Qed.

(** ** Downloads *)

(** Section 8, end to end: of two sound files, a corrupt one, a repository
    and a file for another architecture, the pass downloads the sound ones,
    clones, skips, counts one failure and fails. *)
Example one_wrong_checksum_fails_the_pass :
  let '(ok, c, st') :=
    Fetch.download_dependencies one_corrupt
      [a_tgz; b_tgz; git_entry; for_i386; c_tgz] deps nothing_yet in
  ok = false
  /\ c = {| Fetch.success_count := 3; Fetch.skip_count := 1;
            Fetch.fail_count := 1; Fetch.git_count := 1 |}
  /\ Fetch.files st' !! Fetch.file_dest deps a_tgz = Some good
  /\ Fetch.files st' !! Fetch.file_dest deps b_tgz = None
  /\ Fetch.files st' !! Fetch.file_dest deps c_tgz = Some good
  /\ Fetch.files st' !! Fetch.file_dest deps for_i386 = None
  /\ Fetch.trees st' !! Fetch.git_dest deps git_entry = Some true.
Proof. vm_compute. split; [|split; [|split; [|split; [|split; [|split]]]]]; reflexivity. Qed.

(** C3 as the spec states it fails here: the first answer for [a.tgz] does
    not have the declared checksum and the second one would; the pass makes
    one request, removes the file and counts the entry as failed. *)
Lemma a_mismatch_is_not_retried :
  let '(ok, c, st') :=
    Fetch.download_dependencies corrupt_once [a_tgz] deps nothing_yet in
  ok = false
  /\ Fetch.fail_count c = 1%nat
  /\ Fetch.requests st' = [lit "https://registry.example/a.tgz"]
  /\ Fetch.files st' !! Fetch.file_dest deps a_tgz = None
  /\ Fetch.http corrupt_once 1 (lit "https://registry.example/a.tgz") = Fetch.Body good
  /\ Fetch.verify_sha256 good sha_of_good = true.
Proof. vm_compute. split; [|split; [|split; [|split; [|split]]]]; reflexivity. Qed.

Lemma mismatch_is_counted_failed_at_once_witness :
  exists st',
    Fetch.visit corrupt_once deps (Fetch.no_counts, nothing_yet) a_tgz
      = (Fetch.count_fail Fetch.no_counts, st')
    /\ Fetch.requests st' = default [] (Fetch.url a_tgz) :: Fetch.requests nothing_yet
    /\ Fetch.files st' !! Fetch.file_dest deps a_tgz = None.
Proof.
  apply (mismatch_is_counted_failed_at_once corrupt_once deps Fetch.no_counts
           nothing_yet a_tgz sha_of_good bad).
  - vm_compute; reflexivity.
  - vm_compute; reflexivity.
  - reflexivity.
  - reflexivity.
  - intros old H. vm_compute in H. discriminate H.
  - reflexivity.
  - vm_compute; reflexivity.
Defined.

Lemma present_and_verified_is_a_no_op_witness :
  Fetch.download_file offline (lit "https://registry.example/a.tgz")
    (Fetch.file_dest deps a_tgz) (Some sha_of_good) already_there
    = (true, already_there)
  /\ Fetch.clone_git_repo offline (lit "https://git.example/repo.git")
       (lit "0123456789abcdef0123456789abcdef01234567")
       (Fetch.git_dest deps git_entry) already_there
    = (true, already_there).
Proof.
  split.
  - apply (proj1 (present_and_verified_is_a_no_op offline already_there)
             _ _ _ good); vm_compute; reflexivity.
  - apply (proj2 (present_and_verified_is_a_no_op offline already_there));
      vm_compute; reflexivity.
Defined.

Lemma unverified_download_fails_and_leaves_no_file_witness :
  Fetch.files stale !! Fetch.file_dest deps a_tgz = Some bad
  /\ Fetch.verify_sha256 bad sha_of_good = false
  /\ exists st',
       Fetch.download_file corrupt_once (lit "https://registry.example/a.tgz")
         (Fetch.file_dest deps a_tgz) (Some sha_of_good) stale = (false, st')
       /\ Fetch.files st' !! Fetch.file_dest deps a_tgz = None.
Proof.
  split; [vm_compute; reflexivity|]. split; [vm_compute; reflexivity|].
  apply (unverified_download_fails_and_leaves_no_file corrupt_once
           (lit "https://registry.example/a.tgz") (Fetch.file_dest deps a_tgz)
           sha_of_good stale).
  - vm_compute; reflexivity.
  - intros old H. vm_compute in H. injection H as <-. vm_compute. reflexivity.
  - intros content H. vm_compute in H. injection H as <-. vm_compute. reflexivity.
Defined.

Lemma arch_filter_witness :
  Fetch.visit offline deps (Fetch.no_counts, nothing_yet) for_i386
    = (Fetch.count_skip Fetch.no_counts, nothing_yet)
  /\ Fetch.skip_count (fst (Fetch.visit offline deps (Fetch.no_counts, nothing_yet)
                              for_aarch64)) = 0%nat.
Proof.
  split.
  - apply (proj1 (arch_filter offline deps Fetch.no_counts nothing_yet for_i386 eq_refl)
             [lit "i386"; lit "arm"] eq_refl).
    + discriminate.
    + refine (bool_decide_unpack _ _). vm_compute. exact I.
    + refine (bool_decide_unpack _ _). vm_compute. exact I.
  - apply (proj2 (arch_filter offline deps Fetch.no_counts nothing_yet for_aarch64 eq_refl)).
    right. right. exists [lit "aarch64"]. split; [reflexivity|].
    right. apply list_elem_of_here.
Defined.

(** ** The spec file *)

Example update_writes_the_four_fields :
  SpecFile.update_spec_file (Some theia_spec) (lit "1.67.100")
    (Some (lit "1.67.0")) (Some (lit "38.4.0")) (Some 4%Z)
    = (Some theia_spec_updated, Ok true)
  /\ SpecFile.update_spec_file (Some theia_spec_updated) (lit "1.67.100")
    (Some (lit "1.67.0")) (Some (lit "38.4.0")) (Some 4%Z)
    = (Some theia_spec_updated, Ok false).
Proof. vm_compute. split; reflexivity. Qed.

(** A release number of 4301 digits cannot be formatted: the call raises
    [ValueError] and the file stays as it was.  A version with a lone
    surrogate cannot be written: the call raises [UnicodeEncodeError] and
    the file is left empty. *)
Example values_the_updater_cannot_write :
  SpecFile.update_spec_file (Some theia_spec) (lit "1.67.100") None None
    (Some (10 ^ 4300)%Z)
  = (Some theia_spec, Raise ValueError)
  /\ SpecFile.plain [55296] = true
  /\ SpecFile.update_spec_file (Some theia_spec) [55296] None None None
     = (Some [], Raise UnicodeEncodeError).
Proof. vm_compute. split; [|split]; reflexivity. Qed.

Lemma update_spec_file_idempotent_witness :
  SpecFile.plain (lit "1.67.100") = true
  /\ SpecFile.plain_if_used (Some (lit "1.67.0")) = true
  /\ SpecFile.plain_if_used (Some (lit "38.4.0")) = true
  /\ encodable theia_spec = true
  /\ SpecFile.within_str_digits (Some 4%Z) = true
  /\ SpecFile.idempotent_at theia_spec (lit "1.67.100")
       (Some (lit "1.67.0")) (Some (lit "38.4.0")) (Some 4%Z).
Proof.
  split; [vm_compute; reflexivity|]. split; [vm_compute; reflexivity|].
  split; [vm_compute; reflexivity|]. split; [vm_compute; reflexivity|].
  split; [vm_compute; reflexivity|].
  apply update_spec_file_idempotent; vm_compute; reflexivity.
Defined.

(** C7 as the spec states it fails here: with a version of one space, the
    line the first run writes is white space after the key, so the second
    run matches it together with the line below and removes that line. *)
Lemma blank_version_is_not_idempotent :
  ~ SpecFile.idempotent_at two_lines (lit " ") None None None.
Proof.
  intros (after & changed & H1 & H2).
  vm_compute in H1. injection H1 as <- <-.
  vm_compute in H2. discriminate H2.
Qed.

(** The other three conditions of a plain version are needed as well: a
    reference to the whole match grows the line at each run, a newline in
    the version adds a line at each run, and a carriage return comes back
    from the file as a newline, so that the next run rewrites the line. *)
Example other_versions_that_are_not_idempotent :
  ~ SpecFile.idempotent_at two_lines whole_match_reference None None None
  /\ ~ SpecFile.idempotent_at two_lines two_line_version None None None
  /\ ~ SpecFile.idempotent_at two_lines version_with_cr None None None.
Proof.
  split; [|split]; intros (after & changed & H1 & H2);
    vm_compute in H1; injection H1 as <- <-;
    vm_compute in H2; discriminate H2.
Qed.

End Runs.

(** * Further properties *)

(** ** Checksums and single downloads *)

Section FetchFactsProperties.
Import Fetch FetchFacts.

Lemma hex_digit_lower d : d < 16 -> is_lower_hex (SHA256.hex_digit d) = true.
Proof.
  intros H. unfold SHA256.hex_digit, is_lower_hex.
  destruct (d <? 10) eqn:E.
  - apply N.ltb_lt in E. apply orb_true_iff. left.
    apply andb_true_iff. split; [apply N.leb_le | apply N.leb_le]; lia.
  - apply N.ltb_ge in E. apply orb_true_iff. right.
    apply andb_true_iff. split; [apply N.leb_le | apply N.leb_le]; lia.
Qed.

Lemma nibble_small x : N.land x 15 < 16.
Proof.
  change 15 with (N.ones 4). rewrite N.land_ones.
  apply N.mod_lt. discriminate.
Qed.

Lemma hex_word_shape w :
  length (SHA256.hex_word w) = 8%nat /\ forallb is_lower_hex (SHA256.hex_word w) = true.
Proof.
  unfold SHA256.hex_word. split; [reflexivity|].
  cbn [map forallb]. rewrite !hex_digit_lower by apply nibble_small. reflexivity.
Qed.

Lemma hex_words_shape ws :
  length (concat (map SHA256.hex_word ws)) = (8 * length ws)%nat
  /\ forallb is_lower_hex (concat (map SHA256.hex_word ws)) = true.
Proof.
  induction ws as [|w ws [IH1 IH2]]; [split; reflexivity|].
  destruct (hex_word_shape w) as [H1 H2].
  cbn [map concat]. rewrite length_app, forallb_app, H1, H2, IH1, IH2.
  split; [simpl; lia | reflexivity].
Qed.

(** X1.  Only a string of 64 lower-case hexadecimal digits verifies: a
    checksum written in upper case, shortened or padded never matches. *)
Theorem checksum_is_64_lower_hex (content : bytes) (expected : str) :
  verify_sha256 content expected = true ->
  length expected = 64%nat /\ forallb is_lower_hex expected = true.
Proof.
  unfold verify_sha256. intros H. apply bool_decide_eq_true in H as <-.
  unfold SHA256.hexdigest.
  destruct (hex_words_shape (SHA256.digest content)) as [H1 H2].
  split; [|exact H2]. rewrite H1.
  unfold SHA256.digest.
  rewrite (blocks_length _ SHA256.H0 _ eq_refl). reflexivity.
Qed.


(** *** Reading by chunks *)

Lemma chunk_size_positive : exists n, chunk_size = S n.
Proof.
  exists (pred chunk_size). unfold chunk_size.
  assert (0 < N.to_nat 8192)%nat by lia. lia.
Qed.

Lemma feed_all fuel fed rest :
  (length rest < fuel)%nat -> feed fuel fed rest = fed ++ rest.
Proof.
  destruct chunk_size_positive as [n Hn].
  revert fed rest. induction fuel as [|fuel IH]; intros fed rest H; [lia|].
  cbn [feed read]. rewrite Hn.
  destruct rest as [|b rest]; cbn [take drop].
  - rewrite app_nil_r. reflexivity.
  - rewrite IH.
    + rewrite <- app_assoc. cbn [app]. rewrite take_drop. reflexivity.
    + rewrite length_drop. simpl in H. lia.
Qed.

(** X2.  Hashing a file 8192 bytes at a time, as the script does, hashes
    all of it and nothing else, whatever its length (empty, or a multiple of
    the chunk size): the result is that of hashing the content at once. *)
Theorem reading_by_chunks_hashes_the_whole_file (content : bytes) (expected : str) :
  verify_sha256_by_chunks content expected = verify_sha256 content expected.
Proof.
  unfold verify_sha256_by_chunks, verify_sha256.
  rewrite (feed_all (S (length content)) [] content) by lia. reflexivity.
Qed.

(** *** One download *)

Lemma discard_files p q st : p <> q -> files (discard p st) !! q = files st !! q.
Proof.
  intros H. unfold discard. destruct (file_exists p st); [|reflexivity].
  simpl. apply lookup_delete_ne. exact H.
Qed.

Lemma discard_trees p st : trees (discard p st) = trees st.
Proof. unfold discard. destruct (file_exists p st); reflexivity. Qed.

Lemma discard_git_runs p st : git_runs (discard p st) = git_runs st.
Proof. unfold discard. destruct (file_exists p st); reflexivity. Qed.

(** What the [try] block leaves, by its return value. *)
Lemma download_effect w url dest sha st ok st' :
  download w url dest sha st = (ok, st') ->
  (forall p, dest <> p -> files st' !! p = files st !! p)
  /\ trees st' = trees st /\ git_runs st' = git_runs st
  /\ requests st' = url :: requests st
  /\ (ok = true -> exists content,
        files st' !! dest = Some content
        /\ (truthy_opt sha = true -> verify_sha256 content (default [] sha) = true))
  /\ (ok = false -> files st' !! dest = None).
Proof.
  unfold download.
  destruct (http w (length (requests st)) url) as [| |content].
  - intros H. injection H as <- <-.
    split; [intros p Hp; rewrite discard_files by exact Hp; reflexivity|].
    rewrite discard_trees, discard_git_runs, discard_requests.
    repeat (split; [reflexivity|]).
    split; [discriminate | intros _; apply discard_absent].
  - intros H. injection H as <- <-.
    split; [intros p Hp; rewrite discard_files by exact Hp; simpl;
            apply lookup_insert_ne; exact Hp|].
    rewrite discard_trees, discard_git_runs, discard_requests.
    repeat (split; [reflexivity|]).
    split; [discriminate | intros _; apply discard_absent].
  - assert (Hkeep : forall p, dest <> p ->
              files (write dest content (log_request url st)) !! p = files st !! p).
    { intros p Hp. simpl. apply lookup_insert_ne. exact Hp. }
    assert (Hthere : files (write dest content (log_request url st)) !! dest
                     = Some content).
    { simpl. apply lookup_insert_eq. }
    destruct sha as [sha|]; [destruct (truthy sha) eqn:Ht|].
    + destruct (verify_sha256 content sha) eqn:Hv; intros H; injection H as <- <-.
      * repeat (split; [first [exact Hkeep | reflexivity]|]).
        split; [|discriminate]. intros _. exists content. split; [exact Hthere|].
        intros _. exact Hv.
      * split; [intros p Hp; simpl; rewrite lookup_delete_ne by exact Hp;
                apply lookup_insert_ne; exact Hp|].
        repeat (split; [reflexivity|]).
        split; [discriminate | intros _; apply unlink_absent].
    + intros H; injection H as <- <-.
      repeat (split; [first [exact Hkeep | reflexivity]|]).
      split; [|discriminate]. intros _. exists content. split; [exact Hthere|].
      simpl. rewrite Ht. discriminate.
    + intros H; injection H as <- <-.
      repeat (split; [first [exact Hkeep | reflexivity]|]).
      split; [|discriminate]. intros _. exists content. split; [exact Hthere|].
      discriminate.
Qed.

(** The same for the whole function: the request is made at most once. *)
Lemma download_file_effect w url dest sha st ok st' :
  download_file w url dest sha st = (ok, st') ->
  (forall p, dest <> p -> files st' !! p = files st !! p)
  /\ trees st' = trees st /\ git_runs st' = git_runs st
  /\ (requests st' = requests st \/ requests st' = url :: requests st)
  /\ (ok = true -> exists content,
        files st' !! dest = Some content
        /\ (truthy_opt sha = true -> verify_sha256 content (default [] sha) = true))
  /\ (ok = false -> files st' !! dest = None).
Proof.
  unfold download_file.
  destruct (files st !! dest) as [old|] eqn:Hf.
  - destruct (truthy_opt sha && verify_sha256 old (default [] sha)) eqn:Hv.
    { intros H. injection H as <- <-.
      apply andb_true_iff in Hv as [_ Hv].
      repeat (split; [first [reflexivity | left; reflexivity]|]).
      split; [|discriminate]. intros _. exists old. split; [exact Hf|].
      intros _. exact Hv. }
    destruct (truthy_opt sha) eqn:Ht; simpl.
    + intros H. apply download_effect in H as (H1 & H2 & H3 & H4 & H5 & H6).
      split; [intros p Hp; rewrite (H1 p Hp); simpl; apply lookup_delete_ne; exact Hp|].
      split; [exact H2|]. split; [exact H3|]. split; [right; exact H4|].
      rewrite Ht in H5. split; assumption.
    + intros H. injection H as <- <-.
      repeat (split; [first [reflexivity | left; reflexivity]|]).
      split; [|discriminate]. intros _. exists old. split; [exact Hf|].
      discriminate.
  - intros H. apply download_effect in H as (H1 & H2 & H3 & H4 & H5 & H6).
    split; [exact H1|]. split; [exact H2|]. split; [exact H3|].
    split; [right; exact H4|]. split; assumption.
Qed.

(** A destination that holds what the entry declares is left alone. *)
Lemma download_file_settled w url dest sha st content :
  files st !! dest = Some content ->
  (truthy_opt sha = true -> verify_sha256 content (default [] sha) = true) ->
  download_file w url dest sha st = (true, st).
Proof.
  intros Hf Hv. unfold download_file. rewrite Hf.
  destruct (truthy_opt sha); simpl; [rewrite (Hv eq_refl)|]; reflexivity.
Qed.

(** X3.  Whatever the server answers, [download_file] returns [True] only
    with the destination in place, holding content that has the declared
    checksum when one is declared, and [False] only with no file at the
    destination: no partial or unverified file is left behind. *)
Theorem download_file_outcome
    (w : net) (url : str) (dest_path : path) (sha : option str) (st : state) :
  let '(ok, st') := download_file w url dest_path sha st in
  (ok = true ->
     exists content,
       files st' !! dest_path = Some content
       /\ (truthy_opt sha = true -> verify_sha256 content (default [] sha) = true))
  /\ (ok = false -> files st' !! dest_path = None).
Proof.
  destruct (download_file w url dest_path sha st) as [ok st'] eqn:H.
  apply download_file_effect in H as (_ & _ & _ & _ & H5 & H6).
  split; assumption.
Qed.

(** X4.  [download_file] touches nothing but its destination (and the
    directories above it, which are implicit here): every other file, the
    work trees and the git log are as before, and at most one request is
    made, for the URL given. *)
Theorem download_file_touches_only_its_destination
    (w : net) (url : str) (dest_path : path) (sha : option str) (st : state) :
  let st' := snd (download_file w url dest_path sha st) in
  (forall p, p <> dest_path -> files st' !! p = files st !! p)
  /\ trees st' = trees st
  /\ git_runs st' = git_runs st
  /\ (requests st' = requests st \/ requests st' = url :: requests st).
Proof.
  destruct (download_file w url dest_path sha st) as [ok st'] eqn:H.
  apply download_file_effect in H as (H1 & H2 & H3 & H4 & _).
  simpl. split; [intros p Hp; apply H1; congruence|].
  split; [exact H2|]. split; [exact H3 | exact H4].
Qed.

(** X5.  A download that succeeded is not made again: the same call on the
    state it left returns [True] and changes nothing, whatever the server
    would answer by then. *)
Theorem download_file_again_is_a_no_op
    (w : net) (url : str) (dest_path : path) (sha : option str) (st st' : state) :
  download_file w url dest_path sha st = (true, st') ->
  forall w', download_file w' url dest_path sha st' = (true, st').
Proof.
  intros H w'. apply download_file_effect in H as (_ & _ & _ & _ & H5 & _).
  destruct (H5 eq_refl) as (content & Hf & Hv).
  exact (download_file_settled w' url dest_path sha st' content Hf Hv).
Qed.

(** *** One clone *)

Lemma rmtree_files p q st :
  files (rmtree p st) !! q = if decide (p `prefix_of` q) then None else files st !! q.
Proof.
  unfold rmtree; cbn [files]. destruct (decide (p `prefix_of` q)) as [H|H].
  - apply map_lookup_filter_None. right. intros x _ Hn. exact (Hn H).
  - destruct (files st !! q) as [v|] eqn:E.
    + apply map_lookup_filter_Some. split; [exact E | exact H].
    + apply map_lookup_filter_None. left. exact E.
Qed.

Lemma rmtree_trees p q st :
  trees (rmtree p st) !! q = if decide (p `prefix_of` q) then None else trees st !! q.
Proof.
  unfold rmtree; cbn [trees]. destruct (decide (p `prefix_of` q)) as [H|H].
  - apply map_lookup_filter_None. right. intros x _ Hn. exact (Hn H).
  - destruct (trees st !! q) as [v|] eqn:E.
    + apply map_lookup_filter_Some. split; [exact E | exact H].
    + apply map_lookup_filter_None. left. exact E.
Qed.

(** Removing a directory that is not there changes nothing. *)
Lemma rmtree_if_exists_eq p st : rmtree_if_exists p st = rmtree p st.
Proof.
  unfold rmtree_if_exists, dir_exists. case_bool_decide as H; [reflexivity|].
  assert (Hf : filter (fun kv : path * bytes => p `prefix_of` kv.1) (files st) = ∅).
  { destruct (decide (filter (fun kv : path * bytes => p `prefix_of` kv.1) (files st) = ∅))
      as [E|E]; [exact E|]. exfalso. apply H. left. exact E. }
  assert (Ht : filter (fun kv : path * bool => p `prefix_of` kv.1) (trees st) = ∅).
  { destruct (decide (filter (fun kv : path * bool => p `prefix_of` kv.1) (trees st) = ∅))
      as [E|E]; [exact E|]. exfalso. apply H. right. exact E. }
  destruct st as [f t r g]. unfold rmtree. cbn [files trees requests git_runs] in *.
  f_equal; symmetry; apply map_filter_id; intros i x Hi.
  - intros Hp. exact (map_filter_empty_not_lookup _ _ _ _ Hf Hp Hi).
  - intros Hp. exact (map_filter_empty_not_lookup _ _ _ _ Ht Hp Hi).
Qed.

Lemma rmtree_if_exists_absent p st : trees (rmtree_if_exists p st) !! p = None.
Proof.
  rewrite rmtree_if_exists_eq, rmtree_trees.
  destruct (decide (p `prefix_of` p)) as [_|H]; [reflexivity|].
  exfalso. apply H. reflexivity.
Qed.

Lemma rmtree_if_exists_trees p q st :
  ~ p `prefix_of` q -> trees (rmtree_if_exists p st) !! q = trees st !! q.
Proof.
  intros H. rewrite rmtree_if_exists_eq, rmtree_trees.
  destruct (decide (p `prefix_of` q)); [contradiction | reflexivity].
Qed.

Lemma rmtree_if_exists_files p q st :
  ~ p `prefix_of` q -> files (rmtree_if_exists p st) !! q = files st !! q.
Proof.
  intros H. rewrite rmtree_if_exists_eq, rmtree_files.
  destruct (decide (p `prefix_of` q)); [contradiction | reflexivity].
Qed.

Lemma not_under_other (p q : path) : ~ p `prefix_of` q -> p <> q.
Proof. intros H ->. apply H. reflexivity. Qed.

Lemma run_git_effect w cmd st :
  files (snd (run_git w cmd st)) = files st
  /\ requests (snd (run_git w cmd st)) = requests st
  /\ git_runs (snd (run_git w cmd st)) = cmd :: git_runs st
  /\ fst (run_git w cmd st) = git w (length (git_runs st)) cmd.
Proof. repeat split. Qed.

Lemma run_git_trees w cmd st p :
  trees (snd (run_git w cmd st)) !! p =
    match cmd, fst (run_git w cmd st) with
    | GitClone _ dest, GitDone => if decide (dest = p) then Some true else trees st !! p
    | _, _ => trees st !! p
    end.
Proof.
  unfold run_git. simpl.
  destruct cmd as [u dest|dest c|dest c]; try reflexivity.
  destruct (git w (length (git_runs st)) (GitClone u dest)); try reflexivity.
  destruct (decide (dest = p)) as [->|Hne].
  - apply lookup_insert_eq.
  - apply lookup_insert_ne. exact Hne.
Qed.

Lemma clone_failed_effect a dest st ok st' :
  clone_failed a dest st = (ok, st') ->
  ok = false
  /\ requests st' = requests st /\ git_runs st' = git_runs st
  /\ (forall q, ~ dest `prefix_of` q ->
        files st' !! q = files st !! q /\ trees st' !! q = trees st !! q)
  /\ (a = GitNonZero -> trees st' !! dest = None)
  /\ (a <> GitNonZero -> st' = st).
Proof.
  unfold clone_failed. intros H.
  destruct a; injection H as <- <-.
  - repeat (split; [reflexivity|]). split; [auto|]. split; [discriminate|].
    intros _. reflexivity.
  - split; [reflexivity|]. split; [apply rmtree_if_exists_requests|].
    split; [apply rmtree_if_exists_git_runs|].
    split; [intros q Hq; split;
            [apply rmtree_if_exists_files | apply rmtree_if_exists_trees]; exact Hq|].
    split; [intros _; apply rmtree_if_exists_absent | congruence].
  - repeat (split; [reflexivity|]). split; [auto|]. split; [discriminate|].
    intros _. reflexivity.
Qed.

(** What a clone leaves, by its return value.  All it may touch is at the
    destination or below it. *)
Lemma clone_git_repo_effect w url commit dest st ok st' :
  clone_git_repo w url commit dest st = (ok, st') ->
  requests st' = requests st
  /\ (forall q, ~ dest `prefix_of` q ->
        files st' !! q = files st !! q /\ trees st' !! q = trees st !! q)
  /\ (ok = true -> trees st' !! dest = Some true)
  /\ (ok = false -> (forall n cmd, git w n cmd <> GitSpawnFailed) ->
      trees st' !! dest = None).
Proof.
  unfold clone_git_repo.
  destruct (trees st !! dest) as [[|]|] eqn:Ht.
  { intros H. injection H as <- <-.
    split; [reflexivity|]. split; [auto|]. split; [intros _; exact Ht | discriminate]. }
  all: pose proof (rmtree_if_exists_requests dest st) as R2;
    pose proof (rmtree_if_exists_absent dest st) as R4;
    pose proof (fun q => rmtree_if_exists_trees dest q st) as R5;
    pose proof (fun q => rmtree_if_exists_files dest q st) as R1;
    destruct (rmtree_if_exists dest st) as [f0 t0 r0 g0];
    cbn [files trees requests git_runs] in R1, R2, R4, R5;
    unfold run_git, clone_failed; cbn [files trees requests git_runs fst snd length].
  all: destruct (git w (length g0) (GitClone url dest)) eqn:E1;
    [destruct (git w (S (length g0)) (GitFetch dest commit)) eqn:E2;
     [destruct (git w (S (S (length g0))) (GitCheckout dest commit)) eqn:E3| |]| |].
  all: intros Hr; injection Hr as <- <-.
  all: split; [rewrite ?rmtree_if_exists_requests; exact R2|].
  all: split;
    [intros q Hq;
     rewrite ?rmtree_if_exists_files, ?rmtree_if_exists_trees by exact Hq;
     cbn [files trees];
     rewrite ?lookup_insert_ne by exact (not_under_other _ _ Hq);
     split; [apply R1 | apply R5]; exact Hq|].
  all: split; [intros Hok; try discriminate Hok; cbn [trees]; apply lookup_insert_eq|].
  all: intros Hok Hs; try discriminate Hok.
  all: try (exfalso; eapply Hs; eassumption).
  all: try apply rmtree_if_exists_absent.
Qed.

(** A destination that holds a [.git] is left alone. *)
Lemma clone_git_repo_settled w url commit dest st :
  trees st !! dest = Some true -> clone_git_repo w url commit dest st = (true, st).
Proof. intros H. unfold clone_git_repo. rewrite H. reflexivity. Qed.

(** X6.  [clone_git_repo] returns [True] only with a work tree that has its
    [.git] at the destination.  It makes no request, and all it writes or
    removes is at the destination or below it: a file or a work tree
    anywhere else is as before.  A destination without a [.git] is cleared
    first: when the call leaves no work tree there, nothing is left at the
    destination or below it, neither a file nor a work tree. *)
Theorem clone_git_repo_outcome
    (w : net) (url commit : str) (dest_path : path) (st : state) :
  clear_for_clone dest_path st = true ->
  let '(ok, st') := clone_git_repo w url commit dest_path st in
  (ok = true -> trees st' !! dest_path = Some true)
  /\ requests st' = requests st
  /\ (forall p, ~ dest_path `prefix_of` p ->
        files st' !! p = files st !! p /\ trees st' !! p = trees st !! p)
  /\ (trees st !! dest_path <> Some true -> trees st' !! dest_path = None ->
      forall p, dest_path `prefix_of` p ->
        files st' !! p = None /\ trees st' !! p = None).
Proof.
  intros _.
  destruct (clone_git_repo w url commit dest_path st) as [ok st'] eqn:H.
  pose proof H as H'.
  apply clone_git_repo_effect in H as (H1 & H2 & H3 & _).
  split; [exact H3|]. split; [exact H1|]. split; [exact H2|].
  intros Hn Hgone p Hp. revert H' Hgone. unfold clone_git_repo.
  destruct (trees st !! dest_path) as [[|]|]; [congruence| |].
  all: assert (R1 : files (rmtree_if_exists dest_path st) !! p = None)
    by (rewrite rmtree_if_exists_eq, rmtree_files;
        destruct (decide (dest_path `prefix_of` p)); [reflexivity | contradiction]).
  all: assert (R2 : trees (rmtree_if_exists dest_path st) !! p = None)
    by (rewrite rmtree_if_exists_eq, rmtree_trees;
        destruct (decide (dest_path `prefix_of` p)); [reflexivity | contradiction]).
  all: unfold run_git, clone_failed; cbn [files trees requests git_runs fst snd length].
  all: repeat (match goal with
               | |- context [git ?a ?n ?c] => destruct (git a n c)
               end; cbn [files trees requests git_runs fst snd]).
  all: intros Hr; injection Hr as _ <-.
  all: try (cbn [trees]; rewrite lookup_insert_eq; discriminate).
  all: intros _; split;
    first [exact R1 | exact R2
          | rewrite rmtree_if_exists_eq, rmtree_files;
            destruct (decide (dest_path `prefix_of` p)); [reflexivity | contradiction]
          | rewrite rmtree_if_exists_eq, rmtree_trees;
            destruct (decide (dest_path `prefix_of` p)); [reflexivity | contradiction]].
Qed.

(** X7.  When git can be run at all, a clone that fails leaves nothing at the
    destination, not even the directory a partial clone had left before: the
    next attempt starts from scratch. *)
Theorem failed_clone_leaves_no_tree
    (w : net) (url commit : str) (dest_path : path) (st st' : state) :
  (forall n cmd, git w n cmd <> GitSpawnFailed) ->
  clone_git_repo w url commit dest_path st = (false, st') ->
  trees st' !! dest_path = None.
Proof.
  intros Hs H. apply clone_git_repo_effect in H as (_ & _ & _ & H5).
  exact (H5 eq_refl Hs).
Qed.

(** X8.  The handler for exceptions other than [CalledProcessError] removes
    nothing.  When [git clone] has succeeded and the fetch of the commit then
    ends in such an exception, the call returns [False] and leaves the work
    tree with its [.git]; every later call for that destination, for any
    commit, finds it "already cloned" and returns [True] without running
    git. *)
Theorem clone_cut_short_is_taken_for_complete
    (w : net) (url commit : str) (dest_path : path) (st : state) :
  trees st !! dest_path <> Some true ->
  git w (length (git_runs st)) (GitClone url dest_path) = GitDone ->
  git w (S (length (git_runs st))) (GitFetch dest_path commit) = GitSpawnFailed ->
  exists st',
    clone_git_repo w url commit dest_path st = (false, st')
    /\ git_runs st' = GitFetch dest_path commit :: GitClone url dest_path :: git_runs st
    /\ forall w' url' commit',
         clone_git_repo w' url' commit' dest_path st' = (true, st').
Proof.
  intros Hn H1 H2.
  pose proof (rmtree_if_exists_git_runs dest_path st) as R3.
  assert (Hgo : clone_git_repo w url commit dest_path st =
                (false, snd (run_git w (GitFetch dest_path commit)
                          (snd (run_git w (GitClone url dest_path)
                             (rmtree_if_exists dest_path st)))))).
  { unfold clone_git_repo.
    destruct (trees st !! dest_path) as [[|]|]; [congruence| |];
      unfold run_git; simpl; rewrite R3, H1, H2; reflexivity. }
  eexists. split; [exact Hgo|]. split; [simpl; rewrite R3; reflexivity|].
  intros w' url' commit'. apply clone_git_repo_settled.
  rewrite run_git_trees. cbn [fst run_git].
  rewrite run_git_trees. cbn [fst run_git]. rewrite R3, H1.
  destruct (decide (dest_path = dest_path)); [reflexivity | congruence].
Qed.

(** *** The pass *)

(** The loop body, in the four cases of an entry. *)
Lemma downloadable_true d :
  downloadable d = true <-> wellformed_file d = true /\ skipped_for_arch d = false.
Proof.
  unfold downloadable. rewrite andb_true_iff, negb_true_iff. reflexivity.
Qed.

Lemma visit_cases w out c st d :
  (wellformed_git d = true /\ downloadable d = false
   /\ exists ok st',
        clone_git_repo w (default [] (url d)) (default [] (commit d))
          (git_dest out d) st = (ok, st')
        /\ visit w out (c, st) d = (if ok then count_git c else count_fail c, st'))
  \/ (wellformed_git d = false /\ skipped_for_arch d = true
      /\ visit w out (c, st) d = (count_skip c, st))
  \/ (wellformed_git d = false /\ downloadable d = true
      /\ exists ok st',
           download_file w (default [] (url d)) (file_dest out d) (sha256 d) st
             = (ok, st')
           /\ visit w out (c, st) d = (if ok then count_success c else count_fail c, st'))
  \/ (wellformed_git d = false /\ downloadable d = false
      /\ skipped_for_arch d = false /\ wellformed_file d = false
      /\ visit w out (c, st) d = (c, st)).
Proof.
  destruct (wellformed_git d) eqn:Hg.
  - left. destruct (wellformed_exclusive d Hg) as [Hs Hf].
    split; [reflexivity|]. split; [unfold downloadable; rewrite Hf; reflexivity|].
    rewrite (visit_git _ _ _ _ _ Hg).
    destruct (clone_git_repo _ _ _ _ _) as [ok st']. exists ok, st'.
    split; [reflexivity|]. destruct ok; reflexivity.
  - right. destruct (skipped_for_arch d) eqn:Hs.
    + left. split; [reflexivity|]. split; [reflexivity|]. apply visit_skipped, Hs.
    + right. destruct (wellformed_file d) eqn:Hf.
      * left. split; [reflexivity|].
        split; [unfold downloadable; rewrite Hf, Hs; reflexivity|].
        rewrite (visit_file _ _ _ _ _ Hf Hs).
        destruct (download_file _ _ _ _ _) as [ok st']. exists ok, st'.
        split; [reflexivity|]. destruct ok; reflexivity.
      * right. split; [reflexivity|].
        split; [unfold downloadable; rewrite Hf; reflexivity|].
        split; [reflexivity|]. split; [reflexivity|].
        apply visit_passed_over. unfold actionable. rewrite Hg, Hs, Hf. reflexivity.
Qed.


(** What one turn of the loop may touch: the destination of a file entry it
    downloads, and what is at or below the destination of a git entry. *)
Lemma visit_frame w out c st d c' st' :
  visit w out (c, st) d = (c', st') ->
  (forall p, (downloadable d = true -> file_dest out d <> p) ->
             (wellformed_git d = true -> ~ git_dest out d `prefix_of` p) ->
     files st' !! p = files st !! p)
  /\ (forall p, (wellformed_git d = true -> ~ git_dest out d `prefix_of` p) ->
     trees st' !! p = trees st !! p)
  /\ (forall p, trees st !! p = Some true ->
       (wellformed_git d = true -> git_dest out d `prefix_of` p -> git_dest out d = p) ->
     trees st' !! p = Some true).
Proof.
  intros H.
  destruct (visit_cases w out c st d)
    as [(Hg & Hd & ok & s & Hc & Hv) | [(Hg & Hs & Hv) | [(Hg & Hd & ok & s & Hc & Hv)
       | (Hg & Hd & _ & _ & Hv)]]];
    rewrite Hv in H; injection H as _ <-; try (repeat split; intros; reflexivity || assumption).
  - pose proof Hc as Hc'.
    apply clone_git_repo_effect in Hc as (_ & H2 & _).
    split; [intros p _ Hp; apply (H2 p); auto|].
    split; [intros p Hp; apply (H2 p); auto|].
    intros p Hp Hq.
    destruct (decide (git_dest out d `prefix_of` p)) as [Hin|Hout].
    + rewrite <- (Hq Hg Hin) in Hp |- *.
      rewrite (clone_git_repo_settled _ _ _ _ _ Hp) in Hc'. injection Hc' as _ <-.
      exact Hp.
    + rewrite (proj2 (H2 p Hout)). exact Hp.
  - apply download_file_effect in Hc as (H1 & H2 & _).
    split; [intros p Hp _; apply H1; auto|].
    rewrite H2. split; intros; reflexivity || assumption.
Qed.

Lemma visit_all_frame w out l c st c' st' :
  visit_all w out l (c, st) = (c', st') ->
  (forall p, (forall d, d ∈ l -> downloadable d = true -> file_dest out d <> p) ->
             (forall d, d ∈ l -> wellformed_git d = true ->
                        ~ git_dest out d `prefix_of` p) ->
     files st' !! p = files st !! p)
  /\ (forall p, (forall d, d ∈ l -> wellformed_git d = true ->
                           ~ git_dest out d `prefix_of` p) ->
     trees st' !! p = trees st !! p)
  /\ (forall p, trees st !! p = Some true ->
       (forall d, d ∈ l -> wellformed_git d = true ->
                  git_dest out d `prefix_of` p -> git_dest out d = p) ->
     trees st' !! p = Some true).
Proof.
  revert c st. induction l as [|d l IH]; intros c st H.
  - injection H as _ <-. repeat split; intros; reflexivity || assumption.
  - rewrite visit_all_cons in H.
    destruct (visit w out (c, st) d) as [c1 st1] eqn:Hv.
    apply visit_frame in Hv as (V1 & V2 & V3).
    apply IH in H as (A1 & A2 & A3).
    split; [|split].
    + intros p Hp Hq. rewrite A1, V1; [reflexivity | | | |].
      * apply Hp. apply list_elem_of_here.
      * apply Hq. apply list_elem_of_here.
      * intros e He. apply Hp. apply list_elem_of_further, He.
      * intros e He. apply Hq. apply list_elem_of_further, He.
    + intros p Hp. rewrite A2, V2; [reflexivity | |].
      * apply Hp. apply list_elem_of_here.
      * intros e He. apply Hp. apply list_elem_of_further, He.
    + intros p Hp Hq. apply A3; [apply V3; [exact Hp|]|].
      * apply Hq. apply list_elem_of_here.
      * intros e He. apply Hq. apply list_elem_of_further, He.
Qed.

Lemma downloadable_dest_in out l d :
  d ∈ l -> downloadable d = true -> file_dest out d ∈ file_dests out l.
Proof.
  intros Hin Hd. apply list_elem_of_In, in_map, filter_In.
  split; [apply list_elem_of_In, Hin | exact Hd].
Qed.

Lemma git_dest_in out l d :
  d ∈ l -> wellformed_git d = true -> git_dest out d ∈ git_dests out l.
Proof.
  intros Hin Hd. apply list_elem_of_In, in_map, filter_In.
  split; [apply list_elem_of_In, Hin | exact Hd].
Qed.

(** X9.  On destinations that keep out of each other's way, the pass writes
    or removes files only at the destinations of the file entries it
    downloads and, with a directory cleared for a clone, at or below the
    destinations of its git entries; it creates or removes work trees only
    there; and it never removes a work tree of the list that has its
    [.git]. *)
Theorem pass_touches_only_its_destinations
    (w : net) (sources : list source) (output_dir : path) (st : state) :
  separate output_dir sources = true ->
  fits output_dir sources st = true ->
  let st' := snd (download_dependencies w sources output_dir st) in
  (forall p, p ∉ file_dests output_dir sources ->
             (forall g, g ∈ git_dests output_dir sources -> ~ g `prefix_of` p) ->
     files st' !! p = files st !! p)
  /\ (forall p, (forall g, g ∈ git_dests output_dir sources -> ~ g `prefix_of` p) ->
     trees st' !! p = trees st !! p)
  /\ (forall p, trees st !! p = Some true ->
       (forall g, g ∈ git_dests output_dir sources -> g `prefix_of` p -> g = p) ->
     trees st' !! p = Some true).
Proof.
  intros _ _. unfold download_dependencies.
  destruct (visit_all w output_dir sources (no_counts, st)) as [c st'] eqn:H.
  apply visit_all_frame in H as (F1 & F2 & F3). cbn [snd].
  split; [|split].
  - intros p Hp Hq. apply F1.
    + intros d Hin Hd <-. apply Hp. apply downloadable_dest_in; assumption.
    + intros d Hin Hd. apply Hq. apply git_dest_in; assumption.
  - intros p Hq. apply F2.
    intros d Hin Hd. apply Hq. apply git_dest_in; assumption.
  - intros p Hp Hq. apply F3; [exact Hp|].
    intros d Hin Hd. apply Hq. apply git_dest_in; assumption.
Qed.

(** The counters, entry by entry. *)
Lemma visit_counts w out c st d :
  let c' := fst (visit w out (c, st) d) in
  skip_count c' = (skip_count c + (if skipped_for_arch d then 1 else 0))%nat
  /\ (git_count c' - git_count c <= success_count c' - success_count c)%nat
  /\ (git_count c <= git_count c')%nat
  /\ (success_count c <= success_count c')%nat
  /\ (fail_count c' = fail_count c -> c' = tally d c).
Proof.
  destruct (visit_cases w out c st d)
    as [(Hg & Hd & ok & s & Hc & Hv) | [(Hg & Hs & Hv) | [(Hg & Hd & ok & s & Hc & Hv)
       | (Hg & Hd & Hs & Hf & Hv)]]];
    rewrite Hv; unfold tally; rewrite Hg; cbn [fst].
  - destruct (wellformed_exclusive d Hg) as [-> _].
    destruct ok; simpl; repeat split; lia.
  - rewrite Hs. simpl. repeat split; lia.
  - apply downloadable_true in Hd as [-> ->].
    destruct ok; simpl; repeat split; lia.
  - rewrite Hs, Hf. repeat split; lia.
Qed.

Lemma tally_counts d c :
  skip_count (tally d c) = (skip_count c + (if skipped_for_arch d then 1 else 0))%nat
  /\ git_count (tally d c) = (git_count c + (if wellformed_git d then 1 else 0))%nat
  /\ success_count (tally d c) =
       (success_count c + (if wellformed_git d then 1 else 0)
        + (if downloadable d then 1 else 0))%nat
  /\ fail_count (tally d c) = fail_count c.
Proof.
  unfold tally, downloadable.
  destruct (wellformed_git d) eqn:Hg.
  - destruct (wellformed_exclusive d Hg) as [-> ->]. simpl. repeat split; lia.
  - destruct (skipped_for_arch d), (wellformed_file d); simpl; repeat split; lia.
Qed.

Lemma visit_all_counts w out l c st :
  let c' := fst (visit_all w out l (c, st)) in
  skip_count c' = (skip_count c + length (List.filter skipped_for_arch l))%nat
  /\ (git_count c' - git_count c <= success_count c' - success_count c)%nat
  /\ (git_count c <= git_count c')%nat
  /\ (success_count c <= success_count c')%nat
  /\ (fail_count c' = fail_count c ->
      git_count c' = (git_count c + length (List.filter wellformed_git l))%nat
      /\ success_count c' =
           (success_count c + length (List.filter wellformed_git l)
            + length (List.filter downloadable l))%nat).
Proof.
  revert c st. induction l as [|d l IH]; intros c st.
  - simpl. repeat split; lia.
  - rewrite visit_all_cons.
    pose proof (visit_counts w out c st d) as V.
    pose proof (visit_fail_count w out c st d) as F.
    destruct (visit w out (c, st) d) as [c1 st1].
    pose proof (visit_all_fail_count w out l (c1, st1)) as F'.
    specialize (IH c1 st1). cbv zeta in *. cbn [fst] in *.
    destruct V as (V1 & V2 & V3 & V4 & V5).
    destruct IH as (I1 & I2 & I3 & I4 & I5).
    cbn [List.filter].
    split; [destruct (skipped_for_arch d); simpl; lia|].
    split; [lia|]. split; [lia|]. split; [lia|].
    intros E.
    assert (E1 : fail_count c1 = fail_count c) by lia.
    destruct (I5 ltac:(lia)) as [J1 J2].
    destruct (tally_counts d c) as (_ & T2 & T3 & _).
    rewrite <- (V5 E1) in T2, T3.
    destruct (wellformed_git d) eqn:Hg.
    + destruct (wellformed_exclusive d Hg) as [Hs Hf].
      unfold downloadable in *. rewrite Hf in *. simpl in *. lia.
    + destruct (downloadable d); simpl in *; lia.
Qed.

(** X10.  The summary: the count of entries skipped for their architecture is
    exactly the number of such entries; the clones are counted among the
    successes, so that "success minus git" is the number of files; and when
    the pass returns [True] every git entry and every file entry to download
    was counted as a success. *)
Theorem summary_counts
    (w : net) (sources : list source) (output_dir : path) (st : state) :
  let '(ok, c, _) := download_dependencies w sources output_dir st in
  skip_count c = length (List.filter skipped_for_arch sources)
  /\ (git_count c <= success_count c)%nat
  /\ (ok = true ->
      fail_count c = 0%nat
      /\ git_count c = length (List.filter wellformed_git sources)
      /\ (success_count c - git_count c)%nat
         = length (List.filter downloadable sources)).
Proof.
  unfold download_dependencies.
  pose proof (visit_all_counts w output_dir sources no_counts st) as H.
  destruct (visit_all w output_dir sources (no_counts, st)) as [c st'].
  cbv zeta in H. cbn [fst] in H. simpl in H.
  destruct H as (H1 & H2 & _ & _ & H5).
  split; [exact H1|]. split; [lia|].
  destruct (0 <? fail_count c)%nat eqn:E; [discriminate|].
  apply Nat.ltb_ge in E. intros _.
  destruct (H5 ltac:(lia)) as [J1 J2]. lia.
Qed.

(** X11.  Entries the pass has nothing to do for (another type, or a key it
    needs missing or empty) might as well not be in the list: the return
    value, the counters and the state are those of the list without them. *)
Theorem entries_passed_over_do_not_matter
    (w : net) (sources : list source) (output_dir : path) (st : state) :
  download_dependencies w (List.filter actionable sources) output_dir st
  = download_dependencies w sources output_dir st.
Proof.
  unfold download_dependencies.
  assert (H : forall acc, visit_all w output_dir (List.filter actionable sources) acc
                          = visit_all w output_dir sources acc).
  { induction sources as [|d l IH]; intros [c s]; [reflexivity|].
    cbn [List.filter]. destruct (actionable d) eqn:Ha.
    - rewrite !visit_all_cons. apply IH.
    - rewrite visit_all_cons, (visit_passed_over _ _ _ _ _ Ha). apply IH. }
  rewrite H. reflexivity.
Qed.


(** *** Running the pass again *)

Lemma git_not_downloadable d : wellformed_git d = true -> downloadable d = false.
Proof.
  intros H. destruct (wellformed_exclusive d H) as [_ Hf].
  unfold downloadable. rewrite Hf. reflexivity.
Qed.

Lemma skipped_not_downloadable d : skipped_for_arch d = true -> downloadable d = false.
Proof. intros H. unfold downloadable. rewrite H. apply andb_false_r. Qed.

(** An entry whose result is in place costs nothing: no request, no git run,
    no change. *)
Lemma visit_kept w out c st d :
  kept out d st -> visit w out (c, st) d = (tally d c, st).
Proof.
  intros [Kg Kf]. unfold tally.
  destruct (visit_cases w out c st d)
    as [(Hg & Hd & ok & s & Hc & Hv) | [(Hg & Hs & Hv) | [(Hg & Hd & ok & s & Hc & Hv)
       | (Hg & Hd & Hs & Hf & Hv)]]];
    rewrite Hv, Hg.
  - rewrite (clone_git_repo_settled _ _ _ _ _ (Kg Hg)) in Hc.
    injection Hc as <- <-. reflexivity.
  - rewrite Hs. reflexivity.
  - destruct (Kf Hd) as (content & Hthere & Hsha).
    rewrite (download_file_settled _ _ _ _ _ _ Hthere Hsha) in Hc.
    injection Hc as <- <-.
    apply downloadable_true in Hd as [-> ->]. reflexivity.
  - rewrite Hs, Hf. reflexivity.
Qed.

(** An entry that was not counted as failed has its result in place. *)
Lemma visit_leaves_kept w out c st d c' st' :
  visit w out (c, st) d = (c', st') -> fail_count c' = fail_count c ->
  kept out d st'.
Proof.
  intros H E.
  destruct (visit_cases w out c st d)
    as [(Hg & Hd & ok & s & Hc & Hv) | [(Hg & Hs & Hv) | [(Hg & Hd & ok & s & Hc & Hv)
       | (Hg & Hd & Hs & Hf & Hv)]]];
    rewrite Hv in H; injection H as <- <-.
  - destruct ok; [|simpl in E; lia].
    apply clone_git_repo_effect in Hc as (_ & _ & H4 & _).
    split; [intros _; exact (H4 eq_refl) | rewrite Hd; discriminate].
  - split; [rewrite Hg; discriminate|].
    rewrite (skipped_not_downloadable d Hs). discriminate.
  - destruct ok; [|simpl in E; lia].
    apply download_file_effect in Hc as (_ & _ & _ & _ & H5 & _).
    split; [rewrite Hg; discriminate | intros _; exact (H5 eq_refl)].
  - split; [rewrite Hg; discriminate | rewrite Hd; discriminate].
Qed.

Lemma visit_all_kept w out l c st :
  Forall (fun d => kept out d st) l ->
  visit_all w out l (c, st) = (fold_left (fun c d => tally d c) l c, st).
Proof.
  revert c. induction l as [|d l IH]; intros c H; [reflexivity|].
  apply Forall_cons in H as [Hd Hl].
  rewrite visit_all_cons, (visit_kept _ _ _ _ _ Hd). apply IH, Hl.
Qed.

(** What separate destinations give. *)
Lemma separate_facts out l :
  separate out l = true ->
  NoDup (file_dests out l)
  /\ (forall f g, f ∈ file_dests out l -> g ∈ git_dests out l -> ~ g `prefix_of` f)
  /\ (forall g g', g ∈ git_dests out l -> g' ∈ git_dests out l ->
                   g `prefix_of` g' -> g = g').
Proof.
  unfold separate. intros H.
  apply andb_true_iff in H as [H HD]. apply andb_true_iff in H as [H HC].
  apply andb_true_iff in H as [_ HB]. apply bool_decide_eq_true in HB.
  split; [exact HB|]. split.
  - intros f g Hf Hg Hp.
    pose proof (proj1 (forallb_forall _ _) HC f (proj1 (list_elem_of_In _ _) Hf)) as K.
    apply andb_true_iff in K as [K _]. apply andb_true_iff in K as [_ K].
    pose proof (proj1 (forallb_forall _ _) K g (proj1 (list_elem_of_In _ _) Hg)) as J.
    apply negb_true_iff in J. unfold in_line in J.
    apply orb_false_iff in J as [_ J]. unfold is_prefix in J.
    apply bool_decide_eq_false in J. exact (J Hp).
  - intros g g' Hg Hg' Hp.
    pose proof (proj1 (forallb_forall _ _) HD g (proj1 (list_elem_of_In _ _) Hg)) as K.
    pose proof (proj1 (forallb_forall _ _) K g' (proj1 (list_elem_of_In _ _) Hg')) as J.
    apply orb_true_iff in J as [J|J]; [apply bool_decide_eq_true in J; exact J|].
    apply negb_true_iff in J. unfold in_line in J.
    apply orb_false_iff in J as [J _]. unfold is_prefix in J.
    apply bool_decide_eq_false in J. contradiction.
Qed.

Lemma same_dest_same_entry out l d e :
  NoDup (file_dests out l) ->
  d ∈ l -> e ∈ l -> downloadable d = true -> downloadable e = true ->
  file_dest out d = file_dest out e -> d = e.
Proof.
  unfold file_dests.
  induction l as [|x l IH]; intros Hnd Hd He Dd De Heq; [inversion Hd|].
  cbn [List.filter] in Hnd.
  assert (Hfresh : forall y, y ∈ l -> downloadable y = true -> downloadable x = true ->
                             file_dest out x <> file_dest out y).
  { intros y Hy Dy Dx E. rewrite Dx in Hnd. cbn [map] in Hnd.
    apply NoDup_cons in Hnd as [Hn _]. apply Hn. rewrite E.
    apply downloadable_dest_in; assumption. }
  assert (Hnd' : NoDup (map (file_dest out) (List.filter downloadable l))).
  { destruct (downloadable x); [|exact Hnd].
    cbn [map] in Hnd. apply NoDup_cons in Hnd as [_ Hnd]. exact Hnd. }
  apply elem_of_cons in Hd as [->|Hd], He as [->|He].
  - reflexivity.
  - exfalso. exact (Hfresh e He De Dd Heq).
  - exfalso. exact (Hfresh d Hd Dd De (eq_sym Heq)).
  - exact (IH Hnd' Hd He Dd De Heq).
Qed.

(** A result in place stays in place over the turn of an entry whose
    destination keeps out of its way. *)
Lemma visit_keeps_kept w out c st d c' st' e :
  visit w out (c, st) d = (c', st') ->
  (downloadable d = true -> downloadable e = true ->
   file_dest out d = file_dest out e -> d = e) ->
  (wellformed_git d = true -> downloadable e = true ->
   ~ git_dest out d `prefix_of` file_dest out e) ->
  (wellformed_git d = true -> wellformed_git e = true ->
   git_dest out d `prefix_of` git_dest out e -> git_dest out d = git_dest out e) ->
  kept out e st -> kept out e st'.
Proof.
  intros H Hsame Hfg Hgg K.
  destruct (downloadable d && downloadable e
            && bool_decide (file_dest out d = file_dest out e)) eqn:Hcase.
  - apply andb_true_iff in Hcase as [Hcase Heq].
    apply andb_true_iff in Hcase as [Hd He]. apply bool_decide_eq_true in Heq.
    rewrite (Hsame Hd He Heq), (visit_kept _ _ _ _ _ K) in H.
    injection H as _ <-. exact K.
  - destruct K as [Kg Kf]. apply visit_frame in H as (F1 & _ & F3). split.
    + intros Hg. apply F3; [exact (Kg Hg)|]. intros Hd. exact (Hgg Hd Hg).
    + intros He. destruct (Kf He) as (content & Hthere & Hsha).
      exists content. split; [|exact Hsha]. rewrite F1; [exact Hthere | |].
      * intros Hd Heq. rewrite Hd, He in Hcase.
        rewrite bool_decide_eq_true_2 in Hcase by exact Heq. discriminate Hcase.
      * intros Hd. exact (Hfg Hd He).
Qed.

(** On separate destinations, the result of an entry of the list stays in
    place while the loop works on other entries of the list. *)
Lemma visit_all_keeps_kept w out sources l c st c' st' e :
  separate out sources = true ->
  (forall d, d ∈ l -> d ∈ sources) -> e ∈ sources ->
  visit_all w out l (c, st) = (c', st') ->
  kept out e st -> kept out e st'.
Proof.
  intros Hsep Hsub He. apply separate_facts in Hsep as (S1 & S2 & S3).
  revert c st. induction l as [|d l IH]; intros c st H K.
  - injection H as _ <-. exact K.
  - rewrite visit_all_cons in H.
    destruct (visit w out (c, st) d) as [c1 st1] eqn:Hv.
    assert (Hd : d ∈ sources) by (apply Hsub, list_elem_of_here).
    apply (IH (fun x Hx => Hsub x (list_elem_of_further _ _ _ Hx)) c1 st1 H).
    apply (visit_keeps_kept _ _ _ _ _ _ _ _ Hv); [| | |exact K].
    + intros Dd De Heq. exact (same_dest_same_entry _ _ _ _ S1 Hd He Dd De Heq).
    + intros Gd De. apply S2; [apply downloadable_dest_in | apply git_dest_in]; assumption.
    + intros Gd Ge. apply S3; apply git_dest_in; assumption.
Qed.

(** A stretch of the pass without a failure leaves every entry of it in
    place and counts each as done. *)
Lemma visit_all_leaves_kept w out sources l c st c' st' :
  separate out sources = true ->
  (forall d, d ∈ l -> d ∈ sources) ->
  visit_all w out l (c, st) = (c', st') -> fail_count c' = fail_count c ->
  Forall (fun d => kept out d st') l
  /\ c' = fold_left (fun c d => tally d c) l c.
Proof.
  intros Hsep. revert c st. induction l as [|d l IH]; intros c st Hsub H E.
  - injection H as <- <-. split; [constructor | reflexivity].
  - rewrite visit_all_cons in H.
    pose proof (visit_fail_count w out c st d) as F.
    pose proof (proj2 (proj2 (proj2 (proj2 (visit_counts w out c st d))))) as T.
    destruct (visit w out (c, st) d) as [c1 st1] eqn:Hv.
    pose proof (visit_all_fail_count w out l (c1, st1)) as F'.
    rewrite H in F'. cbn [fst] in *.
    assert (E1 : fail_count c1 = fail_count c) by lia.
    assert (Hsub' : forall x, x ∈ l -> x ∈ sources)
      by (intros x Hx; apply Hsub, list_elem_of_further, Hx).
    destruct (IH c1 st1 Hsub' H ltac:(lia)) as [IH1 IH2].
    split.
    + constructor; [|exact IH1].
      apply (visit_all_keeps_kept _ _ _ _ _ _ _ _ _ Hsep Hsub'
               (Hsub d (list_elem_of_here _ _)) H).
      exact (visit_leaves_kept _ _ _ _ _ _ _ Hv E1).
    + rewrite IH2, (T E1). reflexivity.
Qed.

(** X12.  A pass that returned [True] has nothing left to do.  On
    destinations that keep out of each other's way, running the pass again
    on the state it left returns [True] with the same counters and changes
    nothing, no request and no git run included, whatever the network would
    answer by then. *)
Theorem successful_pass_again_is_a_no_op
    (w : net) (sources : list source) (output_dir : path) (st st' : state)
    (c : counters) :
  separate output_dir sources = true ->
  fits output_dir sources st = true ->
  download_dependencies w sources output_dir st = (true, c, st') ->
  forall w', download_dependencies w' sources output_dir st' = (true, c, st').
Proof.
  intros Hsep _ H w'. unfold download_dependencies in *.
  destruct (visit_all w output_dir sources (no_counts, st)) as [c1 st1] eqn:Hall.
  destruct (0 <? fail_count c1)%nat eqn:E; [discriminate H|].
  injection H as <- <-. apply Nat.ltb_ge in E.
  destruct (visit_all_leaves_kept _ _ _ _ _ _ _ _ Hsep (fun d Hd => Hd) Hall
              ltac:(simpl; lia)) as [K T].
  rewrite (visit_all_kept w' output_dir sources no_counts st1 K), <- T.
  destruct (0 <? fail_count c1)%nat eqn:E'; [|reflexivity].
  apply Nat.ltb_lt in E'. lia.
Qed.

(** X13.  What [True] promises.  On destinations that keep out of each
    other's way, when the pass returns [True] every git entry has its work
    tree with a [.git] and every file entry to download has its file, with
    the declared checksum when one is declared. *)
Theorem success_means_everything_is_in_place
    (w : net) (sources : list source) (output_dir : path) (st st' : state)
    (c : counters) :
  separate output_dir sources = true ->
  fits output_dir sources st = true ->
  download_dependencies w sources output_dir st = (true, c, st') ->
  Forall (fun d => kept output_dir d st') sources.
Proof.
  intros Hsep _ H. unfold download_dependencies in H.
  destruct (visit_all w output_dir sources (no_counts, st)) as [c1 st1] eqn:Hall.
  destruct (0 <? fail_count c1)%nat eqn:E; [discriminate H|].
  injection H as <- <-. apply Nat.ltb_ge in E.
  exact (proj1 (visit_all_leaves_kept _ _ _ _ _ _ _ _ Hsep (fun d Hd => Hd) Hall
                  ltac:(simpl; lia))).
Qed.

(** *** Resuming, and a sound network *)

(** X14.  Nothing in place is lost, so a pass can be resumed.  On
    destinations that keep out of each other's way, an entry of the list
    whose result is in place before the pass (the clone with its [.git], the
    file with its declared checksum) has it in place after the pass,
    whatever happens to the other entries. *)
Theorem what_is_in_place_stays
    (w : net) (sources : list source) (output_dir : path) (st : state) (d : source) :
  separate output_dir sources = true ->
  fits output_dir sources st = true ->
  d ∈ sources ->
  kept output_dir d st ->
  kept output_dir d (snd (download_dependencies w sources output_dir st)).
Proof.
  intros Hsep _ Hin K. unfold download_dependencies.
  destruct (visit_all w output_dir sources (no_counts, st)) as [c st'] eqn:Hall.
  exact (visit_all_keeps_kept _ _ _ _ _ _ _ _ _ Hsep (fun x Hx => Hx) Hin Hall K).
Qed.

Lemma download_sound w url dest sha st content :
  http w (length (requests st)) url = Body content ->
  (truthy_opt sha = true -> verify_sha256 content (default [] sha) = true) ->
  fst (download w url dest sha st) = true.
Proof.
  intros Ha Hv. unfold download. rewrite Ha.
  destruct sha as [s|]; [|reflexivity].
  destruct (truthy s) eqn:Ht; [|reflexivity].
  simpl in Hv. rewrite (Hv Ht). reflexivity.
Qed.

Lemma download_file_sound w url dest sha st :
  (forall n, exists content,
      http w n url = Body content
      /\ (truthy_opt sha = true -> verify_sha256 content (default [] sha) = true)) ->
  fst (download_file w url dest sha st) = true.
Proof.
  intros Hw. unfold download_file.
  destruct (files st !! dest) as [old|].
  - destruct (truthy_opt sha && verify_sha256 old (default [] sha)); [reflexivity|].
    destruct (negb (truthy_opt sha)); [reflexivity|].
    destruct (Hw (length (requests (unlink dest st)))) as (content & Ha & Hv).
    exact (download_sound _ _ _ _ _ _ Ha Hv).
  - destruct (Hw (length (requests st))) as (content & Ha & Hv).
    exact (download_sound _ _ _ _ _ _ Ha Hv).
Qed.

Lemma clone_git_repo_sound w url commit dest st :
  (forall n, git w n (GitClone url dest) = GitDone
             /\ git w n (GitFetch dest commit) = GitDone
             /\ git w n (GitCheckout dest commit) = GitDone) ->
  fst (clone_git_repo w url commit dest st) = true.
Proof.
  intros Hw. unfold clone_git_repo.
  destruct (trees st !! dest) as [[|]|]; try reflexivity;
    unfold run_git; cbn [fst snd git_runs];
    rewrite (proj1 (Hw _)); cbn [fst snd git_runs];
    rewrite (proj1 (proj2 (Hw _))); cbn [fst snd git_runs];
    rewrite (proj2 (proj2 (Hw _))); reflexivity.
Qed.

(** The turn of an entry the outside world lets through: it is counted as
    done and its result is in place. *)
Lemma visit_sound w out c st d c' st' :
  sound w out d -> visit w out (c, st) d = (c', st') ->
  c' = tally d c /\ kept out d st'.
Proof.
  intros [Hfile Hgit] H.
  assert (E : fail_count c' = fail_count c).
  { destruct (visit_cases w out c st d)
      as [(Hg & Hd & ok & s' & Hc & Hv) | [(Hg & Hs & Hv)
         | [(Hg & Hd & ok & s' & Hc & Hv) | (Hg & Hd & _ & _ & Hv)]]];
      rewrite Hv in H; injection H as <- _; try reflexivity.
    - pose proof (clone_git_repo_sound w (default [] (url d)) (default [] (commit d))
                    (git_dest out d) st (proj2 (proj2 (Hgit Hg)))) as Hok.
      rewrite Hc in Hok. cbn [fst] in Hok. subst ok. reflexivity.
    - pose proof (download_file_sound w (default [] (url d)) (file_dest out d)
                    (sha256 d) st (Hfile Hd)) as Hok.
      rewrite Hc in Hok. cbn [fst] in Hok. subst ok. reflexivity. }
  split; [|exact (visit_leaves_kept _ _ _ _ _ _ _ H E)].
  pose proof (proj2 (proj2 (proj2 (proj2 (visit_counts w out c st d))))) as T.
  rewrite H in T. exact (T E).
Qed.

(** X15.  With a network that answers, the pass succeeds from any state it
    fits in.  On destinations that keep out of each other's way, if the
    outside world lets every entry through, the pass returns [True] and
    leaves every entry in place, also when it starts on stale files, partial
    clones or the remains of a failed pass. *)
Theorem sound_network_makes_the_pass_succeed
    (w : net) (sources : list source) (output_dir : path) (st : state) :
  separate output_dir sources = true ->
  fits output_dir sources st = true ->
  (forall d, d ∈ sources -> sound w output_dir d) ->
  fst (fst (download_dependencies w sources output_dir st)) = true
  /\ Forall (fun d => kept output_dir d
                       (snd (download_dependencies w sources output_dir st))) sources.
Proof.
  intros Hsep _ Hsound. unfold download_dependencies.
  assert (H : forall l c s, (forall d, d ∈ l -> d ∈ sources) ->
               fail_count (fst (visit_all w output_dir l (c, s))) = fail_count c).
  { induction l as [|d l IH]; intros c s Hsub; [reflexivity|].
    rewrite visit_all_cons.
    destruct (visit w output_dir (c, s) d) as [c1 s1] eqn:Hv.
    destruct (visit_sound _ _ _ _ _ _ _
                (Hsound d (Hsub d (list_elem_of_here _ _))) Hv) as [-> _].
    rewrite IH; [exact (proj2 (proj2 (proj2 (tally_counts d c))))|].
    intros d' Hin. apply Hsub, list_elem_of_further, Hin. }
  specialize (H sources no_counts st (fun d Hd => Hd)).
  destruct (visit_all w output_dir sources (no_counts, st)) as [c st'] eqn:Hall.
  cbn [fst snd] in *. rewrite H. split; [reflexivity|].
  exact (proj1 (visit_all_leaves_kept _ _ _ _ _ _ _ _ Hsep (fun d Hd => Hd) Hall H)).
Qed.


End FetchFactsProperties.

(** ** Release numbers *)

Section ReleaseProperties.
Import Re SpecFile SpecFacts Copr.

Lemma forallb_skip (q p : N -> bool) (s : str) :
  forallb q s = true -> forallb q (skip p s) = true.
Proof.
  induction s as [|c t IH]; simpl; [reflexivity|].
  intros H. destruct (p c); [apply IH; apply andb_true_iff in H; tauto | exact H].
Qed.

Lemma forallb_rev (q : N -> bool) (s : str) :
  forallb q s = true -> forallb q (rev s) = true.
Proof.
  rewrite !forallb_forall. intros H x Hx. apply H, in_rev, Hx.
Qed.

Lemma forallb_py_strip (q : N -> bool) (s : str) :
  forallb q s = true -> forallb q (py_strip s) = true.
Proof.
  intros H. unfold py_strip.
  apply forallb_rev, forallb_skip, forallb_rev, forallb_skip, H.
Qed.

Lemma search_from_found (m : str -> option str) bol s g :
  search_from m bol s = Some g -> exists x, m x = Some g.
Proof.
  revert bol. induction s as [|c t IH]; intros bol; simpl; [discriminate|].
  destruct bol.
  - destruct (m (c :: t)) as [g'|] eqn:Hm.
    + intros H. injection H as <-. eauto.
    + apply IH.
  - apply IH.
Qed.

Lemma field_digits_are_digits key s g :
  field_digits key s = Some g -> forallb is_digit g = true.
Proof.
  unfold field_digits. destruct (key_ws key s) as [[ws r]|]; [|discriminate].
  pose proof (take_while_forallb is_digit r) as H.
  destruct (take_while is_digit r); [discriminate|].
  intros E. injection E as <-. exact H.
Qed.

(** [int] of decimal digits is not negative. *)
Lemma py_int_of_digits s z :
  forallb is_digit s = true -> py_int s = Ok z -> (0 <= z)%Z.
Proof.
  intros Hd. apply (forallb_py_strip is_digit) in Hd. unfold py_int.
  destruct (py_strip s) as [|c t].
  - simpl. discriminate.
  - destruct (c =? 45) eqn:E45.
    { apply N.eqb_eq in E45. subst c. simpl in Hd. discriminate Hd. }
    assert (Hgen : forall ds,
              (try! r <- int_digits 0 0 false ds in
               let '(n, count) := r in
               if (int_max_str_digits <? count)%nat then Raise ValueError
               else Ok (Z.of_N n)) = Ok z -> (0 <= z)%Z).
    { intros ds. destruct (int_digits 0 0 false ds) as [[n count]|e]; simpl;
        [|discriminate].
      destruct (int_max_str_digits <? count)%nat; [discriminate|].
      intros E. injection E as <-. lia. }
    destruct (c =? 43); apply Hgen.
Qed.

(** X16.  The release number is always there and never below 1: the resolver
    raises nothing, and no spec file that dist-git may serve, however
    malformed, makes it return zero or a negative number. *)
Theorem release_number_is_at_least_one (w : distgit) (version : str) :
  exists n, get_copr_release_number w version = Ok n /\ (1 <= n)%Z.
Proof.
  unfold get_copr_release_number.
  destruct (fetch_spec w) as [content|e] eqn:Hf.
  - rewrite (resolve_after_fetch _ _ _ Hf).
    destruct (version_match content) as [vm|]; [|exists 1%Z; split; [reflexivity | lia]].
    destruct (release_match content) as [rm|] eqn:Hr;
      [|exists 1%Z; split; [reflexivity | lia]].
    unfold release_match, search in Hr.
    apply search_from_found in Hr as [x Hx].
    apply field_digits_are_digits in Hx.
    destruct (py_int rm) as [r|e] eqn:Hi; cbn [bind].
    + pose proof (py_int_of_digits _ _ Hx Hi) as Hpos.
      unfold py_str.
      destruct (beyond_str_digits r); cbn [bind];
        [exists 1%Z; split; [reflexivity | lia]|].
      destruct (decide (py_strip vm = version)).
      * destruct (beyond_str_digits (r + 1)); cbn [bind].
        -- exists 1%Z. split; [reflexivity | lia].
        -- exists (r + 1)%Z. split; [reflexivity | lia].
      * destruct (beyond_str_digits 1); cbn [bind];
          exists 1%Z; (split; [reflexivity | lia]).
    + exists 1%Z. split; [reflexivity | lia].
  - rewrite (resolve_fetch_raises _ _ _ Hf). exists 1%Z. split; [reflexivity | lia].
Qed.


(** *** From the updater to the resolver *)

Lemma not_space_skip s : forallb not_space s = true -> skip is_space s = s.
Proof.
  destruct s as [|c t]; [reflexivity|]. simpl. unfold not_space at 1.
  destruct (is_space c); [discriminate | reflexivity].
Qed.

Lemma not_space_strip s : forallb not_space s = true -> py_strip s = s.
Proof.
  intros H. unfold py_strip.
  rewrite (not_space_skip s H), (not_space_skip (rev s) (forallb_rev _ _ H)).
  apply rev_involutive.
Qed.

(** In a text where every line the pattern of [key] matches is [line], a
    search that needs such a line and gives [o] on [line] gives [o] or
    nothing. *)
Lemma search_settled (m : str -> option str) key line o bol s :
  (forall x, starts key x = false -> m x = None) ->
  (forall x, fits line x -> m x = o) ->
  settled key line bol s ->
  search_from m bol s = None \/ search_from m bol s = o.
Proof.
  intros Hno Hline. revert bol. induction s as [|c t IH]; intros bol Hs;
    [left; reflexivity|].
  destruct Hs as [Hhere Hrest]. cbn [search_from].
  destruct bol; [|apply IH, Hrest].
  destruct (starts key (c :: t)) eqn:Hst.
  - rewrite (Hline _ (Hhere eq_refl eq_refl)).
    destruct o; [right; reflexivity | apply IH, Hrest].
  - rewrite (Hno _ Hst). apply IH, Hrest.
Qed.

Lemma key_ws_needs_start key x : starts key x = false -> key_ws key x = None.
Proof.
  rewrite starts_strip. unfold key_ws.
  destruct (strip_prefix key x) as [[|c t]|]; try reflexivity.
  intros ->. reflexivity.
Qed.

Lemma field_word_needs_start key x : starts key x = false -> field_word key x = None.
Proof. intros H. unfold field_word. rewrite (key_ws_needs_start _ _ H). reflexivity. Qed.

Lemma field_digits_needs_start key x :
  starts key x = false -> field_digits key x = None.
Proof. intros H. unfold field_digits. rewrite (key_ws_needs_start _ _ H). reflexivity. Qed.

(** The line [key pad value] read back with [key\s+...]. *)
Lemma key_ws_of_line key pad c v :
  pad <> [] -> forallb is_space pad = true -> is_space c = false ->
  key_ws key (key ++ pad ++ c :: v) = Some (pad, c :: v).
Proof.
  intros Hne Hp Hc. unfold key_ws. rewrite strip_prefix_app.
  destruct pad as [|p0 pad]; [congruence|].
  pose proof Hp as Hp'. simpl in Hp'. apply andb_true_iff in Hp' as [Hp0 _].
  change ((p0 :: pad) ++ c :: v) with (p0 :: (pad ++ c :: v)).
  cbv beta iota. rewrite Hp0.
  change (p0 :: (pad ++ c :: v)) with ((p0 :: pad) ++ c :: v).
  rewrite (take_while_all _ _ _ Hp), (skip_all _ _ _ Hp).
  rewrite (take_while_stop _ _ _ Hc), (skip_stop _ _ _ Hc), app_nil_r.
  reflexivity.
Qed.

Lemma line_end_stops (p : N -> bool) rest :
  p nl = false -> (rest = [] \/ exists r, rest = nl :: r) -> take_while p rest = [].
Proof.
  intros Hp [->|[r ->]]; [reflexivity | apply take_while_stop, Hp].
Qed.

Lemma field_word_of_line key pad v x :
  pad <> [] -> forallb is_space pad = true ->
  v <> [] -> forallb not_space v = true ->
  fits (key ++ pad ++ v) x -> field_word key x = Some v.
Proof.
  intros Hne Hp Hv Hns (rest & -> & Hrest).
  destruct v as [|c v]; [congruence|].
  pose proof Hns as Hc. simpl in Hc. apply andb_true_iff in Hc as [Hc _].
  unfold not_space in Hc. apply negb_true_iff in Hc.
  unfold field_word.
  replace ((key ++ pad ++ c :: v) ++ rest) with (key ++ pad ++ c :: (v ++ rest))
    by (rewrite <- !app_assoc; reflexivity).
  rewrite (key_ws_of_line key pad c (v ++ rest) Hne Hp Hc).
  change (c :: v ++ rest) with ((c :: v) ++ rest).
  rewrite (take_while_all _ _ _ Hns), (line_end_stops not_space rest eq_refl Hrest).
  rewrite app_nil_r. reflexivity.
Qed.

Lemma field_digits_of_line key pad ds e tail x :
  pad <> [] -> forallb is_space pad = true ->
  ds <> [] -> forallb is_digit ds = true -> forallb not_space ds = true ->
  is_digit e = false ->
  fits (key ++ pad ++ ds ++ e :: tail) x -> field_digits key x = Some ds.
Proof.
  intros Hne Hp Hd Hdig Hns He (rest & -> & _).
  destruct ds as [|c ds]; [congruence|].
  pose proof Hns as Hc. simpl in Hc. apply andb_true_iff in Hc as [Hc _].
  unfold not_space in Hc. apply negb_true_iff in Hc.
  unfold field_digits.
  replace ((key ++ pad ++ (c :: ds) ++ e :: tail) ++ rest)
    with (key ++ pad ++ c :: (ds ++ e :: tail ++ rest))
    by (rewrite <- !app_assoc; reflexivity).
  rewrite (key_ws_of_line key pad c _ Hne Hp Hc).
  change (c :: ds ++ e :: tail ++ rest) with ((c :: ds) ++ e :: tail ++ rest).
  rewrite (take_while_all _ _ _ Hdig), (take_while_stop _ _ _ He), app_nil_r.
  reflexivity.
Qed.

(** [str] and [int] on numbers that are not negative. *)
Lemma ascii_digit_facts c :
  is_ascii_digit c = true ->
  decimal_value c = Some (c - 48) /\ is_space c = false /\ (c =? 95) = false
  /\ (c =? 45) = false /\ (c =? 43) = false.
Proof.
  unfold is_ascii_digit. rewrite andb_true_iff, !N.leb_le. intros [H1 H2].
  assert (H : c = 48 \/ c = 49 \/ c = 50 \/ c = 51 \/ c = 52 \/ c = 53 \/ c = 54
              \/ c = 55 \/ c = 56 \/ c = 57) by lia.
  repeat (destruct H as [->|H]; [repeat split; reflexivity|]).
  subst c. repeat split; reflexivity.
Qed.

Lemma digits_of_uint_ascii d : forallb is_ascii_digit (digits_of_uint d) = true.
Proof. induction d; simpl; auto. Qed.

Lemma ascii_digits_facts s :
  forallb is_ascii_digit s = true ->
  forallb is_digit s = true /\ forallb not_space s = true.
Proof.
  induction s as [|c t IH]; simpl; [tauto|].
  rewrite andb_true_iff. intros [Hc Ht].
  destruct (ascii_digit_facts c Hc) as (Hv & Hs & _).
  destruct (IH Ht) as [-> ->]. unfold is_digit, not_space. rewrite Hv, Hs.
  split; reflexivity.
Qed.

Lemma next_acc a k :
  10 * N.pos a + k = N.pos (match k with 0 => 10 * a | N.pos p => p + 10 * a end).
Proof. destruct k; lia. Qed.

Lemma int_digits_of_uint d acc count :
  int_digits acc count true (digits_of_uint d) =
    Ok (match acc with
        | 0 => Pos.of_uint d
        | N.pos a => N.pos (Pos.of_uint_acc d a)
        end, (count + length (digits_of_uint d))%nat).
Proof.
  revert acc count.
  induction d as [|d IH|d IH|d IH|d IH|d IH|d IH|d IH|d IH|d IH|d IH];
    intros acc count.
  { simpl. rewrite Nat.add_0_r. destruct acc; reflexivity. }
  all: cbn [digits_of_uint int_digits length];
    match goal with
    | |- context [decimal_value ?c] =>
        change (c =? 95) with false;
        change (decimal_value c) with (Some (c - 48))
    end;
    cbv beta iota; rewrite IH, Nat.add_succ_r;
    destruct acc as [|a]; [reflexivity | rewrite next_acc; reflexivity].
Qed.

Lemma digits_of_uint_nil d : digits_of_uint d = [] -> d = Decimal.Nil.
Proof. destruct d; simpl; intros H; try discriminate H; reflexivity. Qed.

(** [int(str(n))] is [n], within the digit limit. *)
Lemma py_int_str_of_int n :
  (0 <= n)%Z -> (length (str_of_int n) <= int_max_str_digits)%nat ->
  py_int (str_of_int n) = Ok n.
Proof.
  intros Hn Hlen. destruct n as [|p|p]; [reflexivity | | lia].
  unfold str_of_int in *.
  pose proof (digits_of_uint_ascii (Pos.to_uint p)) as Ha.
  pose proof (DecimalPos.Unsigned.of_to p) as Hv.
  destruct (ascii_digits_facts _ Ha) as [_ Hns].
  unfold py_int. rewrite (not_space_strip _ Hns).
  destruct (digits_of_uint (Pos.to_uint p)) as [|c t] eqn:Hd.
  { apply digits_of_uint_nil in Hd. rewrite Hd in Hv. discriminate Hv. }
  pose proof Ha as Hc. simpl in Hc. apply andb_true_iff in Hc as [Hc _].
  destruct (ascii_digit_facts c Hc) as (Hval & _ & H95 & H45 & H43).
  rewrite H45, H43.
  assert (Hsame : int_digits 0 0 false (c :: t) = int_digits 0 0 true (c :: t)).
  { cbn [int_digits]. rewrite H95. reflexivity. }
  rewrite Hsame, <- Hd, int_digits_of_uint, Hv. cbn [bind].
  rewrite Hd. simpl Nat.add.
  destruct (int_max_str_digits <? length (c :: t))%nat eqn:E.
  - apply Nat.ltb_lt in E. lia.
  - cbn [length] in E. rewrite E. reflexivity.
Qed.


Lemma str_of_int_digits n :
  (0 <= n)%Z ->
  forallb is_ascii_digit (str_of_int n) = true /\ str_of_int n <> [].
Proof.
  intros Hn. destruct n as [|p|p]; [split; [reflexivity | discriminate] | | lia].
  unfold str_of_int. split; [apply digits_of_uint_ascii|].
  intros Hd. apply digits_of_uint_nil in Hd.
  pose proof (DecimalPos.Unsigned.of_to p) as Hv. rewrite Hd in Hv. discriminate Hv.
Qed.

Lemma stages_head version tv ev r :
  exists l,
    stages version tv ev (Some r) =
      (lit "Version:", lit "Version:        " ++ version)
      :: (lit "Release:", lit "Release:        " ++ str_of_int r ++ lit "%{?dist}")
      :: l.
Proof. eexists. unfold stages. reflexivity. Qed.

(** What the updater leaves is a fixed point of its scans. *)
Lemma update_spec_file_leaves_settled on_disk version tv ev release after changed :
  plain version = true -> plain_if_used tv = true -> plain_if_used ev = true ->
  free_of cr on_disk = true ->
  update_spec_file (Some on_disk) version tv ev release = (Some after, Ok changed) ->
  Forall (fun st => settled (fst st) (snd st) true after)
         (stages version tv ev release).
Proof.
  intros Hv Htv Hev Hcr Hup.
  destruct (stages_ok version tv ev release Hv Htv Hev) as [Hapart _].
  pose proof (scan_stages_settle _ on_disk Hapart) as Hset.
  assert (Hread : read_text on_disk = on_disk) by (apply universal_newlines_id, Hcr).
  unfold update_spec_file in Hup. rewrite Hread in Hup.
  rewrite (update_content_plain _ _ _ _ _ Hv Htv Hev) in Hup.
  destruct (within_str_digits release); [|discriminate Hup].
  destruct (decide (scan_stages (stages version tv ev release) on_disk = on_disk))
    as [E|E].
  - injection Hup as <- _. rewrite E in Hset. exact Hset.
  - destruct (negb (encodable _)); [discriminate Hup|].
    injection Hup as <- _. exact Hset.
Qed.

(** X17.  The updater and the resolver agree.  Take a spec file without
    carriage returns, updated for a version without white space and a release
    [r] that is not negative and whose successor is within the digit limit
    of [int], and let dist-git serve the result.  For the same version the
    resolver then answers [r + 1] when the file has both fields, and 1 when
    it lacks one: successive COPR builds of one version get successive
    release numbers. *)
Theorem next_release_follows_the_written_one
    (w : distgit) (on_disk after version : str) (tv ev : option str) (r : Z)
    (changed : bool) :
  plain version = true ->
  forallb not_space version = true ->
  plain_if_used tv = true ->
  plain_if_used ev = true ->
  (0 <= r)%Z ->
  (length (str_of_int r) <= int_max_str_digits)%nat ->
  beyond_str_digits (r + 1) = false ->
  free_of cr on_disk = true ->
  update_spec_file (Some on_disk) version tv ev (Some r) = (Some after, Ok changed) ->
  fetch_spec w = Ok after ->
  get_copr_release_number w version =
    Ok (match version_match after, release_match after with
        | Some _, Some _ => (r + 1)%Z
        | _, _ => 1%Z
        end).
Proof.
  intros Hv Hns Htv Hev Hr Hlen Hnext Hcr Hup Hfetch.
  pose proof (update_spec_file_leaves_settled _ _ _ _ _ _ _ Hv Htv Hev Hcr Hup) as Hset.
  destruct (stages_head version tv ev r) as [l Hl]. rewrite Hl in Hset.
  apply Forall_cons in Hset as [HsV Hset]. apply Forall_cons in Hset as [HsR _].
  cbn [fst snd] in HsV, HsR.
  destruct (plain_parts _ Hv) as (_ & _ & _ & Hex).
  assert (Hne : version <> []) by (intros ->; discriminate Hex).
  destruct (str_of_int_digits r Hr) as [Hascii Hdne].
  destruct (ascii_digits_facts _ Hascii) as [Hdig Hdns].
  assert (HV : version_match after = None \/ version_match after = Some version).
  { apply (search_settled _ _ _ _ _ _ (field_word_needs_start _)
             (fun x => field_word_of_line (lit "Version:") (lit "        ") version x
                         ltac:(discriminate) eq_refl Hne Hns) HsV). }
  assert (HR : release_match after = None
               \/ release_match after = Some (str_of_int r)).
  { apply (search_settled _ _ _ _ _ _ (field_digits_needs_start _)
             (fun x => field_digits_of_line (lit "Release:") (lit "        ")
                         (str_of_int r) 37 (lit "{?dist}") x
                         ltac:(discriminate) eq_refl Hdne Hdig Hdns eq_refl) HsR). }
  unfold get_copr_release_number. rewrite (resolve_after_fetch _ _ _ Hfetch).
  destruct HV as [-> | ->]; [reflexivity|].
  destruct HR as [-> | ->]; [reflexivity|].
  rewrite (py_int_str_of_int r Hr Hlen). cbn [bind].
  rewrite (not_space_strip _ Hns).
  unfold py_str.
  rewrite (py_int_within _ _ (py_int_str_of_int r Hr Hlen)). cbn [bind].
  destruct (decide (version = version)); [|congruence].
  rewrite Hnext. reflexivity.
Qed.

End ReleaseProperties.

(** ** More on the spec-file updater *)

Section SpecFactsProperties.
Import Re SpecFile SpecFacts.

Lemma sub_from_nothing key t bol s :
  mentions key bol s = false -> sub_from key t bol s = s.
Proof.
  revert bol. induction s as [|c s' IH]; intros bol H.
  - rewrite sub_from_equation_1. reflexivity.
  - cbn [mentions] in H. apply orb_false_iff in H as [Hhere Hrest].
    rewrite sub_from_cons.
    destruct bol.
    + simpl in Hhere. apply line_match_starts in Hhere. rewrite Hhere.
      rewrite (IH _ Hrest). reflexivity.
    + rewrite (IH _ Hrest). reflexivity.
Qed.

Lemma re_sub_nothing key repl s r :
  mentions key true s = false -> re_sub key repl s = Ok r -> r = s.
Proof.
  intros Hm. unfold re_sub.
  destruct (parse_template (length repl) repl) as [t|e]; [|discriminate].
  cbn [bind]. rewrite (sub_from_nothing _ _ _ _ Hm). congruence.
Qed.

Lemma update_content_nothing content version tv ev release r :
  has_no_field content = true ->
  update_content content version tv ev release = Ok r -> r = content.
Proof.
  unfold has_no_field, keys. cbn [forallb]. rewrite !andb_true_iff, !negb_true_iff.
  intros (H1 & H2 & H3 & H4 & _).
  unfold update_content.
  destruct (re_sub (lit "Version:") _ _) as [c1|] eqn:E1; [|discriminate].
  apply (re_sub_nothing _ _ _ _ H1) in E1. subst c1. cbn [bind].
  assert (E2 : forall r, match release with
                 | Some n =>
                     try! digits <- py_str n in
                     re_sub (lit "Release:")
                       (lit "Release:        " ++ digits ++ lit "%{?dist}") content
                 | None => Ok content
                 end = Ok r -> r = content).
  { intros r'. destruct release as [n|]; [|congruence].
    destruct (py_str n); cbn [bind]; [apply (re_sub_nothing _ _ _ _ H2) | discriminate]. }
  destruct (match release with Some _ => _ | None => _ end) as [c2|]; [|discriminate].
  rewrite (E2 c2 eq_refl). cbn [bind].
  assert (E3 : forall r, (if truthy_opt tv
                 then re_sub (lit "%global theia_version")
                        (lit "%global theia_version " ++ default [] tv) content
                 else Ok content) = Ok r -> r = content).
  { intros r'. destruct (truthy_opt tv); [apply (re_sub_nothing _ _ _ _ H3) | congruence]. }
  destruct (if truthy_opt tv then _ else _) as [c3|]; [|discriminate].
  rewrite (E3 c3 eq_refl). cbn [bind].
  destruct (truthy_opt ev); [apply (re_sub_nothing _ _ _ _ H4) | congruence].
Qed.

(** X18.  A spec file in which no line begins with one of the four fields is
    never written, whatever the versions are: when the call returns, it
    returns [False] and the file is byte for byte what it was, and when it
    raises it has written nothing either. *)
Theorem spec_without_fields_is_left_alone
    (on_disk version : str) (tv ev : option str) (release : option Z) :
  has_no_field (read_text on_disk) = true ->
  match update_spec_file (Some on_disk) version tv ev release with
  | (disk, Ok changed) => disk = Some on_disk /\ changed = false
  | (disk, Raise _) => disk = Some on_disk
  end.
Proof.
  intros H. unfold update_spec_file.
  destruct (update_content (read_text on_disk) version tv ev release) as [c|e] eqn:E;
    [|reflexivity].
  apply (update_content_nothing _ _ _ _ _ _ H) in E. subst c.
  destruct (decide (read_text on_disk = read_text on_disk)); [|congruence].
  split; reflexivity.
Qed.

(** X19.  Line ends are rewritten only together with a field.  With plain
    versions the updater either leaves the file byte for byte, carriage
    returns included, or writes a file with no carriage return at all: the
    result never mixes the two line-end styles of its own doing. *)
Theorem written_spec_has_no_carriage_return
    (on_disk version after : str) (tv ev : option str) (release : option Z)
    (changed : bool) :
  plain version = true ->
  plain_if_used tv = true ->
  plain_if_used ev = true ->
  update_spec_file (Some on_disk) version tv ev release = (Some after, Ok changed) ->
  (changed = false /\ after = on_disk)
  \/ (changed = true /\ free_of cr after = true /\ after <> read_text on_disk).
Proof.
  intros Hv Htv Hev Hup.
  destruct (stages_ok version tv ev release Hv Htv Hev) as [_ Hfree].
  unfold update_spec_file in Hup.
  rewrite (update_content_plain _ _ _ _ _ Hv Htv Hev) in Hup.
  destruct (within_str_digits release); [|discriminate Hup].
  destruct (decide (scan_stages (stages version tv ev release) (read_text on_disk)
                    = read_text on_disk)) as [E|E].
  - injection Hup as <- <-. left. split; reflexivity.
  - destruct (negb (encodable _)); [discriminate Hup|].
    destruct (encodable version && encodable_if_used tv && encodable_if_used ev);
      [|discriminate Hup].
    injection Hup as <- <-.
    right. split; [reflexivity|]. split; [|exact E].
    apply (scan_stages_free_of cr (stages version tv ev release) (read_text on_disk));
      [|apply universal_newlines_free].
    eapply Forall_impl; [exact Hfree|]. intros st H. apply H.
Qed.

Lemma parse_template_dangling a n :
  free_of backslash a = true -> (length a < n)%nat ->
  parse_template n (a ++ [backslash]) = Raise TemplateError.
Proof.
  revert n. induction a as [|c a IH]; intros n Hf Hn.
  - destruct n; [simpl in Hn; lia|]. reflexivity.
  - destruct n; [simpl in Hn; lia|].
    simpl in Hf. apply andb_true_iff in Hf as [Hc Hf].
    cbn [app parse_template]. rewrite Hc.
    rewrite (IH n Hf ltac:(simpl in Hn; lia)). reflexivity.
Qed.

(** X20.  A version that ends in a backslash is no template: the first
    substitution raises before anything is matched, whatever the file holds,
    and the exception leaves [update_spec_file]; nothing is written. *)
Theorem version_ending_in_backslash_raises
    (on_disk v : str) (tv ev : option str) (release : option Z) :
  free_of backslash v = true ->
  update_spec_file (Some on_disk) (v ++ [backslash]) tv ev release
  = (Some on_disk, Raise TemplateError).
Proof.
  intros Hv. unfold update_spec_file, update_content, re_sub.
  rewrite (app_assoc (lit "Version:        ") v [backslash]).
  rewrite parse_template_dangling;
    [reflexivity | | rewrite !length_app; cbn [length]; lia].
  rewrite free_of_app, Hv. reflexivity.
Qed.


(** *** Line by line *)

Lemma text_cons l ls tail : text (l :: ls) tail = l ++ nl :: text ls tail.
Proof. unfold text. cbn [flat_map]. rewrite <- !app_assoc. reflexivity. Qed.

Lemma starts_line key l rest :
  forallb dot key = true -> bare key l = false ->
  starts key (l ++ nl :: rest) = starts key l.
Proof.
  revert l. induction key as [|a k IH]; intros l Hk Hb.
  - destruct l as [|c l]; [discriminate Hb | reflexivity].
  - simpl in Hk. apply andb_true_iff in Hk as [Ha Hk].
    destruct l as [|c l].
    + simpl. rewrite (dot_true_eqb _ Ha). reflexivity.
    + unfold bare in Hb. simpl in *. destruct (a =? c); [|reflexivity].
      simpl. apply IH; assumption.
Qed.

Lemma not_all_space v : forallb is_space v = false -> existsb not_space v = true.
Proof.
  induction v as [|c v IH]; simpl; [discriminate|].
  unfold not_space at 1. destruct (is_space c); simpl; [exact IH | reflexivity].
Qed.

Lemma line_match_line key l rest :
  forallb dot key = true -> forallb dot l = true -> bare key l = false ->
  starts key l = true ->
  (rest = [] \/ exists r, rest = nl :: r) ->
  line_match key (l ++ rest) = Some (l, rest).
Proof.
  intros Hk Hl Hb Hs Hrest. rewrite starts_strip in Hs. unfold bare in Hb.
  destruct (strip_prefix key l) as [[|c t]|] eqn:Hp; try discriminate Hs.
  apply strip_prefix_inv in Hp. subst l.
  apply not_all_space, first_not_space in Hb as (v1 & x & v2 & Hv & Hv1 & Hx).
  assert (Hne : v1 <> []).
  { intros ->. simpl in Hv. injection Hv as -> _. congruence. }
  rewrite Hv in *. rewrite !forallb_app in Hl.
  apply andb_true_iff in Hl as [_ Hl]. apply andb_true_iff in Hl as [Hd1 Hd2].
  apply (well_shaped_intro key v1 (x :: v2) Hk Hne Hv1 Hd1 Hd2).
  - simpl. unfold not_space at 1. rewrite Hx. reflexivity.
  - exact Hrest.
Qed.

Lemma sub_from_last_line key t l :
  forallb dot key = true -> forallb dot l = true -> bare key l = false ->
  sub_from key t true l = if starts key l then expand t l else l.
Proof.
  intros Hk Hl Hb.
  destruct l as [|c l']; [rewrite sub_from_equation_1; destruct key; reflexivity|].
  destruct (starts key (c :: l')) eqn:Hs.
  - pose proof (line_match_line key (c :: l') [] Hk Hl Hb Hs (or_introl eq_refl)) as Hm.
    rewrite app_nil_r in Hm. rewrite (sub_from_match _ _ _ _ _ _ Hm).
    rewrite sub_from_equation_1, app_nil_r. reflexivity.
  - rewrite (sub_from_no_match _ _ _ _ Hs).
    simpl in Hl. apply andb_true_iff in Hl as [Hc Hl].
    rewrite (dot_true_eqb _ Hc).
    pose proof (sub_from_within key t l' [] Hl) as Hw.
    rewrite app_nil_r, sub_from_equation_1, app_nil_r in Hw. rewrite Hw. reflexivity.
Qed.

(** One substitution on a text of clean lines works line by line. *)
Lemma sub_from_lines key t ls tail :
  forallb dot key = true ->
  Forall (fun l => forallb dot l = true /\ bare key l = false) (ls ++ [tail]) ->
  sub_from key t true (text ls tail) =
    text (map (fun l => if starts key l then expand t l else l) ls)
         (if starts key tail then expand t tail else tail).
Proof.
  intros Hk. induction ls as [|l ls IH]; intros Hall.
  - apply Forall_cons in Hall as [[Hl Hb] _]. apply sub_from_last_line; assumption.
  - cbn [app] in Hall. apply Forall_cons in Hall as [[Hl Hb] Hall].
    specialize (IH Hall). cbn [map]. rewrite !text_cons.
    assert (Hnl : sub_from key t false (nl :: text ls tail)
                  = nl :: sub_from key t true (text ls tail)).
    { rewrite sub_from_keep. reflexivity. }
    destruct (starts key l) eqn:Hs.
    + pose proof (line_match_line key l (nl :: text ls tail) Hk Hl Hb Hs
                    (or_intror (ex_intro _ _ eq_refl))) as Hm.
      destruct l as [|c l']; [destruct key; discriminate Hs|].
      change ((c :: l') ++ nl :: text ls tail)
        with (c :: (l' ++ nl :: text ls tail)) in *.
      rewrite (sub_from_match _ _ _ _ _ _ Hm), (ends_line_false _ Hl), Hnl, IH.
      reflexivity.
    + pose proof (starts_line key l (text ls tail) Hk Hb) as Hs'. rewrite Hs in Hs'.
      destruct l as [|c l'].
      * cbn [app] in *. rewrite (sub_from_no_match _ _ _ _ Hs').
        change (nl =? nl) with true. rewrite IH. reflexivity.
      * change ((c :: l') ++ nl :: text ls tail)
          with (c :: (l' ++ nl :: text ls tail)) in *.
        rewrite (sub_from_no_match _ _ _ _ Hs').
        simpl in Hl. apply andb_true_iff in Hl as [Hc Hl].
        rewrite (dot_true_eqb _ Hc), (sub_from_within _ _ _ _ Hl), Hnl, IH.
        reflexivity.
Qed.


Lemma strip_prefix_differ k a v : differ k a = true -> strip_prefix k (a ++ v) = None.
Proof.
  revert a. induction k as [|x k IH]; intros [|y a] H; try discriminate H.
  simpl in *. destruct (x =? y); [apply IH, H | reflexivity].
Qed.

Lemma starts_differ k a v : differ k a = true -> starts k (a ++ v) = false.
Proof. intros H. rewrite starts_strip, (strip_prefix_differ _ _ _ H). reflexivity. Qed.

Lemma bare_differ k a v : differ k a = true -> bare k (a ++ v) = false.
Proof. intros H. unfold bare. rewrite (strip_prefix_differ _ _ _ H). reflexivity. Qed.

Lemma some_not_space v : existsb not_space v = true -> forallb is_space v = false.
Proof.
  induction v as [|c v IH]; simpl; [discriminate|].
  unfold not_space at 1. destruct (is_space c); simpl; [exact IH | reflexivity].
Qed.

(** A line the updater writes is clean. *)
Lemma clean_line key pad v :
  forallb (fun k => bool_decide (k = key) || differ k (key ++ pad)) keys = true ->
  forallb dot key = true -> forallb dot pad = true ->
  forallb dot v = true /\ free_of cr v = true /\ free_of backslash v = true
  /\ existsb not_space v = true ->
  clean (key ++ pad ++ v) = true.
Proof.
  intros Hkeys Hk Hp (Hv & _ & _ & Hex). unfold clean.
  rewrite !forallb_app, Hk, Hp, Hv. cbn [andb].
  apply forallb_forall. intros k Hin.
  rewrite forallb_forall in Hkeys. specialize (Hkeys k Hin).
  apply orb_true_iff in Hkeys as [Heq|Hd].
  - apply bool_decide_eq_true in Heq. subst k.
    unfold bare. rewrite strip_prefix_app, forallb_app, (some_not_space _ Hex).
    rewrite andb_false_r. reflexivity.
  - rewrite app_assoc, (bare_differ _ _ _ Hd). reflexivity.
Qed.

Lemma clean_parts key l :
  In key keys -> clean l = true -> forallb dot l = true /\ bare key l = false.
Proof.
  unfold clean. rewrite andb_true_iff. intros Hin [Hd Hb].
  split; [exact Hd|]. rewrite forallb_forall in Hb. apply negb_true_iff, Hb, Hin.
Qed.

Lemma step_clean l key line :
  clean l = true -> clean line = true -> clean (step l (key, line)) = true.
Proof. intros Hl Hline. unfold step. cbn [fst snd]. destruct (starts key l); assumption. Qed.

(** The substitutions, one after the other, on a text of clean lines. *)
Lemma scan_stages_lines l ls tail :
  Forall (fun st => forallb dot (fst st) = true /\ In (fst st) keys
                    /\ clean (snd st) = true) l ->
  Forall (fun x => clean x = true) (ls ++ [tail]) ->
  scan_stages l (text ls tail) =
    text (map (fun x => fold_left step l x) ls) (fold_left step l tail).
Proof.
  revert ls tail. induction l as [|[key line] l IH]; intros ls tail Hl Hc.
  - cbn [scan_stages fold_left]. rewrite map_id. reflexivity.
  - apply Forall_cons in Hl as [(Hk & Hin & Hline) Hl]. cbn [fst snd] in *.
    cbn [scan_stages fold_left].
    rewrite (sub_from_lines key (map Literal line) ls tail Hk).
    + assert (Hstep : forall x, (if starts key x then expand (map Literal line) x else x)
                                = step x (key, line)).
      { intros x. unfold step. cbn [fst snd]. rewrite expand_literal. reflexivity. }
      rewrite Hstep. rewrite (map_ext _ _ Hstep).
      rewrite (IH (map (fun x => step x (key, line)) ls) (step tail (key, line)) Hl).
      * rewrite map_map. reflexivity.
      * apply Forall_app in Hc as [Hls Htail]. apply Forall_app. split.
        -- apply Forall_map. eapply Forall_impl; [exact Hls|].
           intros x Hx. exact (step_clean x key line Hx Hline).
        -- apply Forall_cons in Htail as [Htail _].
           constructor; [exact (step_clean tail key line Htail Hline) | constructor].
    + eapply Forall_impl; [exact Hc|]. intros x Hx. exact (clean_parts key x Hin Hx).
Qed.

Lemma stages_clean version tv ev release :
  plain version = true -> plain_if_used tv = true -> plain_if_used ev = true ->
  Forall (fun st => forallb dot (fst st) = true /\ In (fst st) keys
                    /\ clean (snd st) = true)
         (stages version tv ev release).
Proof.
  intros Hv Htv Hev. unfold stages.
  repeat apply Forall_app_2.
  - constructor; [|constructor].
    split; [reflexivity|]. split; [unfold keys; cbn [In]; auto|].
    exact (clean_line (lit "Version:") (lit "        ") version
             eq_refl eq_refl eq_refl (plain_parts _ Hv)).
  - destruct release as [r|]; [|constructor].
    constructor; [|constructor].
    split; [reflexivity|]. split; [unfold keys; cbn [In]; auto|].
    exact (clean_line (lit "Release:") (lit "        ") _
             eq_refl eq_refl eq_refl (release_value_parts r)).
  - destruct (truthy_opt tv) eqn:Ht; [|constructor].
    constructor; [|constructor].
    split; [reflexivity|]. split; [unfold keys; cbn [In]; auto|].
    exact (clean_line (lit "%global theia_version") (lit " ") _
             eq_refl eq_refl eq_refl (plain_parts _ (used_plain _ Htv Ht))).
  - destruct (truthy_opt ev) eqn:Ht; [|constructor].
    constructor; [|constructor].
    split; [reflexivity|]. split; [unfold keys; cbn [In]; auto|].
    exact (clean_line (lit "%global electron_version") (lit " ") _
             eq_refl eq_refl eq_refl (plain_parts _ (used_plain _ Hev Ht))).
Qed.


(** A line once rewritten is not rewritten again by a later substitution. *)
Lemma stages_line_by_line version tv ev release x :
  fold_left step (stages version tv ev release) x = new_line version tv ev release x.
Proof.
  unfold stages, new_line.
  destruct release as [r|], (truthy_opt tv), (truthy_opt ev);
    cbn [app fold_left andb]; unfold step; cbn [fst snd];
    repeat match goal with
           | |- context [starts ?k (?a ++ ?v)] =>
               rewrite (starts_differ k a v eq_refl)
           | |- context [starts ?k x] => destruct (starts k x)
           end;
    reflexivity.
Qed.

(** X21.  On a spec file of clean lines (no field left without a value) and
    with plain versions, the updater works line by line: a line that begins
    with one of the fields in use, followed by white space, is replaced as a
    whole by the line of that field; every other line is kept as it is, in
    its place.  That is for a release number within the digit limit of
    [int]; beyond it the substitutions raise [ValueError]. *)
Theorem update_works_line_by_line
    (ls : list str) (tail version : str) (tv ev : option str) (release : option Z) :
  plain version = true ->
  plain_if_used tv = true ->
  plain_if_used ev = true ->
  forallb clean (ls ++ [tail]) = true ->
  update_content (text ls tail) version tv ev release =
    if within_str_digits release
    then Ok (text (map (new_line version tv ev release) ls)
                  (new_line version tv ev release tail))
    else Raise ValueError.
Proof.
  intros Hv Htv Hev Hc.
  rewrite (update_content_plain _ _ _ _ _ Hv Htv Hev).
  destruct (within_str_digits release); [|reflexivity].
  rewrite (scan_stages_lines _ ls tail (stages_clean _ _ _ release Hv Htv Hev)).
  - rewrite (map_ext _ _ (stages_line_by_line version tv ev release)).
    rewrite stages_line_by_line. reflexivity.
  - apply Forall_forall. rewrite forallb_forall in Hc.
    intros x Hx. apply Hc, list_elem_of_In, Hx.
Qed.

End SpecFactsProperties.

(** ** The driver, further *)

Section DriverFacts.
Import Re Driver.

(** X22.  Past the choice of the version, the version is never empty,
    whichever source it came from: the file names built from it always carry
    one. *)
Theorem resolved_version_is_not_empty (a : args) (w : world) :
  match resolve_version a w with
  | Goes_on v => truthy v = true
  | Sys_exit status => status = 1
  end.
Proof.
  unfold resolve_version.
  destruct (truthy_opt (py_or (version_opt a) (version a))) eqn:Hv; cbn [negb].
  - destruct (py_or (version_opt a) (version a)) as [v|]; [exact Hv | discriminate Hv].
  - assert (H : forall found, match or_exit found with
                              | Goes_on v => truthy v = true
                              | Sys_exit status => status = 1
                              end).
    { intros [v|]; simpl; [|reflexivity]. destruct (truthy v) eqn:E; [exact E | reflexivity]. }
    destruct (github_latest a); apply H.
Qed.

Lemma all_the_same (x : N) (s : str) :
  forallb (N.eqb x) s = true -> s = repeat x (length s).
Proof.
  induction s as [|c s IH]; simpl; [reflexivity|].
  rewrite andb_true_iff, N.eqb_eq. intros [<- H]. rewrite <- (IH H). reflexivity.
Qed.

(** X23.  The version taken from GitHub is the name of the first tag without
    its leading [v]s, all of them: it never begins with a [v], and the tag is
    that version behind some number of [v]s. *)
Theorem github_version_has_no_leading_v (w : world) :
  match get_latest_github_version w with
  | Some v =>
      startswith v (lit "v") = false
      /\ exists first rest k,
           github_tags w = Tags (first :: rest)
           /\ default [] first = repeat 118 k ++ v
  | None => True
  end.
Proof.
  unfold get_latest_github_version.
  destruct (github_tags w) as [|[|first rest]]; try exact I.
  destruct (truthy (default [] first)); [|exact I].
  unfold lstrip_v. split.
  - destruct (skip_head (N.eqb 118) (default [] first)) as [-> | (c & t & -> & Hc)];
      [reflexivity|].
    unfold startswith. change (lit "v") with [118]. cbn [strip_prefix].
    rewrite Hc. reflexivity.
  - exists first, rest, (length (take_while (N.eqb 118) (default [] first))).
    split; [reflexivity|].
    rewrite <- (all_the_same 118 _ (take_while_forallb _ _)).
    symmetry. apply take_skip.
Qed.

End DriverFacts.

(** ** Versions from the manifests *)

Section PackageJsonProperties.
Import Re PackageJson PackageFacts.

Lemma lstrip_range_unprefixed s : unprefixed (Some (lstrip_range s)) = true.
Proof.
  unfold lstrip_range, unprefixed.
  destruct (skip_head in_range_prefix s) as [-> | (c & t & -> & Hc)];
    [reflexivity | rewrite Hc; reflexivity].
Qed.

Lemma lstrip_value_unprefixed v s : lstrip_value v = Ok s -> unprefixed (Some s) = true.
Proof.
  destruct v; simpl; intros H; try discriminate H.
  injection H as <-. apply lstrip_range_unprefixed.
Qed.

Lemma theia_of_unprefixed items o : theia_of items = Ok o -> unprefixed o = true.
Proof.
  unfold theia_of. destruct (find is_theia items) as [kv|].
  - destruct (lstrip_value (snd kv)) as [s|] eqn:E; simpl; intros H; [|discriminate H].
    injection H as <-. exact (lstrip_value_unprefixed _ _ E).
  - intros H. injection H as <-. reflexivity.
Qed.

Lemma electron_of_unprefixed a b o : electron_of a b = Ok o -> unprefixed o = true.
Proof.
  unfold electron_of.
  destruct (dict_get a (lit "electron") JNone) as [fallback|]; [|discriminate].
  cbn [bind].
  destruct (dict_get b (lit "electron") fallback) as [dep|]; [|discriminate].
  cbn [bind]. destruct (truth dep).
  - destruct (lstrip_value dep) as [s|] eqn:E; simpl; intros H; [|discriminate H].
    injection H as <-. exact (lstrip_value_unprefixed _ _ E).
  - intros H. injection H as <-. reflexivity.
Qed.

Lemma root_versions_unprefixed data t e :
  root_versions data = Ok (t, e) -> unprefixed t = true /\ unprefixed e = true.
Proof.
  unfold root_versions.
  destruct (dict_get data (lit "dependencies") (JObj [])) as [deps|]; [|discriminate].
  cbn [bind].
  destruct (dict_get data (lit "devDependencies") (JObj [])) as [dev|]; [|discriminate].
  cbn [bind]. destruct (merged deps dev) as [items|]; [|discriminate]. cbn [bind].
  destruct (theia_of items) as [t'|] eqn:Ht; [|discriminate]. cbn [bind].
  destruct (electron_of deps dev) as [e'|] eqn:He; [|discriminate]. cbn [bind].
  intros H. injection H as <- <-.
  split; [exact (theia_of_unprefixed _ _ Ht) | exact (electron_of_unprefixed _ _ _ He)].
Qed.

Lemma nested_electron_unprefixed f o : nested_electron f = Ok o -> unprefixed o = true.
Proof.
  destruct f as [| |data]; try discriminate. unfold nested_electron.
  destruct (dict_get data (lit "dependencies") (JObj [])) as [deps|]; [|discriminate].
  cbn [bind].
  destruct (dict_get data (lit "devDependencies") (JObj [])) as [dev|]; [|discriminate].
  cbn [bind]. apply electron_of_unprefixed.
Qed.

(** X24.  Whatever the two manifests hold, a version that
    [get_versions_from_package_json] returns does not begin with [^] or [~]:
    the range prefix is gone on every path, the fallback to the nested
    manifest included. *)
Theorem versions_carry_no_range_prefix (package_json electron_pkg : manifest_file) :
  let '(theia_version, electron_version) :=
    get_versions_from_package_json package_json electron_pkg in
  unprefixed theia_version = true /\ unprefixed electron_version = true.
Proof.
  unfold get_versions_from_package_json.
  destruct package_json as [| |data]; try (split; reflexivity).
  destruct (root_versions data) as [[t e]|] eqn:Hr; [|split; reflexivity].
  destruct (root_versions_unprefixed _ _ _ Hr) as [Ht He].
  destruct (negb (truthy_opt e)); [|split; assumption].
  destruct electron_pkg as [| |nested]; try (split; assumption);
    destruct (nested_electron _) as [[v|]|] eqn:Hn; try (split; assumption);
    (split; [exact Ht | exact (nested_electron_unprefixed _ _ Hn)]).
Qed.

(** X25.  The manifest at [applications/electron/package.json] is a fallback
    and nothing more: it never changes the theia version, and when the root
    manifest gives a non-empty electron version it is not looked at. *)
Theorem nested_manifest_is_only_a_fallback
    (package_json electron_pkg electron_pkg' : manifest_file) :
  fst (get_versions_from_package_json package_json electron_pkg)
  = fst (get_versions_from_package_json package_json electron_pkg')
  /\ (truthy_opt (snd (get_versions_from_package_json package_json Missing)) = true ->
      get_versions_from_package_json package_json electron_pkg
      = get_versions_from_package_json package_json Missing).
Proof.
  unfold get_versions_from_package_json.
  destruct package_json as [| |data]; try (split; reflexivity).
  destruct (root_versions data) as [[t e]|]; [|split; reflexivity].
  destruct (truthy_opt e) eqn:He; cbn [negb].
  - split; reflexivity.
  - split.
    + destruct electron_pkg as [| |n], electron_pkg' as [| |n']; cbn [fst];
        repeat match goal with
               | |- context [nested_electron ?f] => destruct (nested_electron f) as [[?|]|]
               end; reflexivity.
    + cbn [snd]. rewrite He. discriminate.
Qed.


(** *** Where the theia version comes from *)

Lemma find_put (pk : str -> bool) k v m :
  find (fun kv => pk (fst kv)) (put k v m) =
    match find (fun kv => pk (fst kv)) m with
    | Some (k', x) => Some (k', if bool_decide (k' = k) then v else x)
    | None => if pk k then Some (k, v) else None
    end.
Proof.
  induction m as [|[k0 x0] m IH]; [reflexivity|].
  cbn [put find fst]. case_bool_decide as E.
  - subst k0. cbn [find fst]. destruct (pk k) eqn:Hk.
    + rewrite bool_decide_eq_true_2 by reflexivity. reflexivity.
    + destruct (find (fun kv => pk (fst kv)) m) as [[k' x]|] eqn:Hf; [|reflexivity].
      apply find_some in Hf as [_ Hk']. cbn [fst] in Hk'.
      rewrite bool_decide_eq_false_2 by congruence. reflexivity.
  - cbn [find fst]. destruct (pk k0).
    + rewrite bool_decide_eq_false_2 by exact E. reflexivity.
    + exact IH.
Qed.

Lemma get_cons key k v m :
  get key ((k, v) :: m) = if bool_decide (k = key) then Some v else get key m.
Proof. unfold get. cbn [find fst]. destruct (bool_decide (k = key)); reflexivity. Qed.

Lemma get_absent key m : ~ In key (map fst m) -> get key m = None.
Proof.
  induction m as [|[k v] m IH]; [reflexivity|].
  cbn [map fst In]. intros H. rewrite get_cons.
  rewrite bool_decide_eq_false_2 by tauto. apply IH. tauto.
Qed.

(** In [{**a, **b}] the names keep the places they have in [a], with the
    values [b] gives them. *)
Lemma find_merged (pk : str -> bool) ma mb k x :
  NoDup (map fst mb) ->
  find (fun kv => pk (fst kv)) ma = Some (k, x) ->
  find (fun kv => pk (fst kv))
       (fold_left (fun acc kv => put (fst kv) (snd kv) acc) mb ma)
  = Some (k, default x (get k mb)).
Proof.
  revert ma x. induction mb as [|[k1 v1] mb IH]; intros ma x Hnd Hf; [exact Hf|].
  cbn [map fst] in Hnd. apply NoDup_cons in Hnd as [Hfresh Hnd].
  cbn [fold_left fst snd]. rewrite get_cons.
  rewrite (IH (put k1 v1 ma) (if bool_decide (k = k1) then v1 else x) Hnd).
  - case_bool_decide as E.
    + subst k1. rewrite bool_decide_eq_true_2 by reflexivity.
      rewrite get_absent; [reflexivity|].
      intros Hin. apply Hfresh, list_elem_of_In, Hin.
    + rewrite bool_decide_eq_false_2 by congruence. reflexivity.
  - rewrite find_put, Hf. reflexivity.
Qed.

Lemma theia_version_of_root data electron_pkg t :
  fst (get_versions_from_package_json (Loaded data) electron_pkg) = Some t ->
  exists e, root_versions data = Ok (Some t, e).
Proof.
  unfold get_versions_from_package_json.
  destruct (root_versions data) as [[t' e]|]; [|discriminate].
  intros H. exists e.
  assert (Ht : t' = Some t); [|rewrite Ht; reflexivity].
  destruct (negb (truthy_opt e)); [|exact H].
  destruct electron_pkg as [| |n]; [exact H | |];
    destruct (nested_electron _) as [[v|]|]; exact H.
Qed.

(** X26.  The theia version is that of the first [@theia/] name of
    [dependencies], with the value [devDependencies] gives that name when
    it declares it too: the names are looked at in the order of
    [dependencies], the values are those of [devDependencies] first. *)
Theorem theia_version_source
    (members md mdev : list (str * json)) (k : str) (x : json)
    (electron_pkg : manifest_file) (t : str) :
  get (lit "dependencies") members = Some (JObj md) ->
  default (JObj []) (get (lit "devDependencies") members) = JObj mdev ->
  NoDup (map fst mdev) ->
  find is_theia md = Some (k, x) ->
  fst (get_versions_from_package_json (Loaded (JObj members)) electron_pkg) = Some t ->
  exists s, default x (get k mdev) = JStr s /\ t = lstrip_range s.
Proof.
  intros Hd Hdev Hnd Hf Hres.
  apply theia_version_of_root in Hres as [e Hroot].
  assert (Hr : root_versions (JObj members) =
                try! theia_version <-
                  theia_of (fold_left (fun acc kv => put (fst kv) (snd kv) acc) mdev md) in
                try! electron_version <- electron_of (JObj md) (JObj mdev) in
                Ok (theia_version, electron_version)).
  { unfold root_versions, dict_get. rewrite Hd, Hdev. reflexivity. }
  rewrite Hr in Hroot. clear Hr. unfold theia_of in Hroot.
  change is_theia with (fun kv : str * json => startswith (fst kv) (lit "@theia/"))
    in Hf, Hroot.
  rewrite (find_merged (fun key => startswith key (lit "@theia/")) md mdev k x Hnd Hf)
    in Hroot.
  cbn [snd] in Hroot.
  destruct (default x (get k mdev)) as [s| |]; try discriminate Hroot.
  exists s. split; [reflexivity|].
  cbn [lstrip_value bind] in Hroot.
  destruct (electron_of (JObj md) (JObj mdev)); [|discriminate Hroot].
  cbn [bind] in Hroot. congruence.
Qed.

End PackageJsonProperties.

(** * More concrete runs *)

Section MoreRuns.
Import Scenarios Cases.

(** ** Downloads *)

Lemma checksum_is_64_lower_hex_witness :
  length sha_of_good = 64%nat /\ forallb FetchFacts.is_lower_hex sha_of_good = true.
Proof.
  apply (checksum_is_64_lower_hex good sha_of_good). vm_compute. reflexivity.
Defined.

(** [a.tgz] once downloaded, the server may go away. *)
Lemma download_file_again_is_a_no_op_witness :
  Fetch.download_file offline (lit "https://registry.example/a.tgz")
    (Fetch.file_dest deps a_tgz) (Some sha_of_good) a_downloaded
  = (true, a_downloaded).
Proof.
  apply (download_file_again_is_a_no_op one_corrupt
           (lit "https://registry.example/a.tgz") (Fetch.file_dest deps a_tgz)
           (Some sha_of_good) nothing_yet a_downloaded).
  vm_cast_no_check (@eq_refl _ (true, a_downloaded)).
Defined.

(** The directory of a partial clone is gone after a clone that fails. *)
Lemma failed_clone_leaves_no_tree_witness :
  Fetch.trees partial_clone !! Fetch.git_dest deps git_entry = Some false
  /\ Fetch.trees clone_failed_once !! Fetch.git_dest deps git_entry = None.
Proof.
  split; [vm_compute; reflexivity|].
  apply (failed_clone_leaves_no_tree offline (lit "https://git.example/repo.git")
           (lit "0123456789abcdef0123456789abcdef01234567")
           (Fetch.git_dest deps git_entry) partial_clone clone_failed_once).
  - intros n cmd. vm_compute. discriminate.
  - vm_compute. reflexivity.
Defined.

Lemma clone_cut_short_is_taken_for_complete_witness :
  exists st',
    Fetch.clone_git_repo git_gone_after_clone (lit "https://git.example/repo.git")
      (lit "0123456789abcdef0123456789abcdef01234567")
      (Fetch.git_dest deps git_entry) nothing_yet = (false, st')
    /\ Fetch.git_runs st' =
         [Fetch.GitFetch (Fetch.git_dest deps git_entry)
            (lit "0123456789abcdef0123456789abcdef01234567");
          Fetch.GitClone (lit "https://git.example/repo.git")
            (Fetch.git_dest deps git_entry)]
    /\ forall w' url' commit',
         Fetch.clone_git_repo w' url' commit' (Fetch.git_dest deps git_entry) st'
         = (true, st').
Proof.
  apply (clone_cut_short_is_taken_for_complete git_gone_after_clone
           (lit "https://git.example/repo.git")
           (lit "0123456789abcdef0123456789abcdef01234567")
           (Fetch.git_dest deps git_entry) nothing_yet).
  - vm_compute. discriminate.
  - reflexivity.
  - reflexivity.
Defined.

(** A clone over what an earlier one left, with git failing: the file below
    the destination goes, [a.tgz] next to it stays. *)
Lemma clone_git_repo_outcome_witness :
  FetchFacts.clear_for_clone (Fetch.git_dest vendor_dir git_entry) leftovers = true
  /\ (let '(ok, st') :=
        Fetch.clone_git_repo offline (lit "https://git.example/repo.git")
          (lit "0123456789abcdef0123456789abcdef01234567")
          (Fetch.git_dest vendor_dir git_entry) leftovers in
      (ok = true -> Fetch.trees st' !! Fetch.git_dest vendor_dir git_entry = Some true)
      /\ Fetch.requests st' = Fetch.requests leftovers
      /\ (forall p, ~ Fetch.git_dest vendor_dir git_entry `prefix_of` p ->
            Fetch.files st' !! p = Fetch.files leftovers !! p
            /\ Fetch.trees st' !! p = Fetch.trees leftovers !! p)
      /\ (Fetch.trees leftovers !! Fetch.git_dest vendor_dir git_entry <> Some true ->
          Fetch.trees st' !! Fetch.git_dest vendor_dir git_entry = None ->
          forall p, Fetch.git_dest vendor_dir git_entry `prefix_of` p ->
            Fetch.files st' !! p = None /\ Fetch.trees st' !! p = None)).
Proof.
  split; [vm_compute; reflexivity|].
  apply (clone_git_repo_outcome offline (lit "https://git.example/repo.git")
           (lit "0123456789abcdef0123456789abcdef01234567")
           (Fetch.git_dest vendor_dir git_entry) leftovers).
  vm_compute. reflexivity.
Defined.

Example clone_over_leftovers :
  let '(ok, st') :=
    Fetch.clone_git_repo offline (lit "https://git.example/repo.git")
      (lit "0123456789abcdef0123456789abcdef01234567")
      (Fetch.git_dest vendor_dir git_entry) leftovers in
  ok = false
  /\ Fetch.files leftovers !! readme = Some bad
  /\ Fetch.files st' !! readme = None
  /\ Fetch.files st' !! Fetch.file_dest vendor_dir a_tgz = Some good.
Proof. vm_compute. split; [|split; [|split]]; reflexivity. Qed.

(** While the pass downloads and clones, a file that is no destination of
    the list stays as it is. *)
Lemma pass_touches_only_its_destinations_witness :
  Fetch.files (snd (Fetch.download_dependencies one_corrupt [b_tgz; git_entry; c_tgz]
                      vendor_dir a_in_place))
    !! Fetch.file_dest vendor_dir a_tgz
  = Fetch.files a_in_place !! Fetch.file_dest vendor_dir a_tgz.
Proof.
  refine (proj1 (pass_touches_only_its_destinations one_corrupt
                   [b_tgz; git_entry; c_tgz] vendor_dir a_in_place _ _)
            (Fetch.file_dest vendor_dir a_tgz) _ _).
  - vm_compute. reflexivity.
  - vm_compute. reflexivity.
  - refine (bool_decide_unpack _ _). vm_compute. exact I.
  - intros g Hg. refine (bool_decide_unpack _ _).
    unfold FetchFacts.git_dests in Hg. cbn [List.filter map] in Hg.
    vm_compute in Hg. apply elem_of_cons in Hg as [->|Hg]; [|inversion Hg].
    vm_compute. exact I.
Defined.

Lemma successful_pass_again_is_a_no_op_witness :
  Fetch.download_dependencies offline sound_entries vendor_dir after_sound_entries
  = (true, sound_counts, after_sound_entries).
Proof.
  apply (successful_pass_again_is_a_no_op one_corrupt sound_entries vendor_dir
           nothing_yet after_sound_entries sound_counts).
  - vm_compute. reflexivity.
  - vm_compute. reflexivity.
  - vm_cast_no_check (@eq_refl _ (true, sound_counts, after_sound_entries)).
Defined.

Lemma success_means_everything_is_in_place_witness :
  Forall (fun d => FetchFacts.kept vendor_dir d after_sound_entries) sound_entries.
Proof.
  apply (success_means_everything_is_in_place one_corrupt sound_entries vendor_dir
           nothing_yet after_sound_entries sound_counts).
  - vm_compute. reflexivity.
  - vm_compute. reflexivity.
  - vm_cast_no_check (@eq_refl _ (true, sound_counts, after_sound_entries)).
Defined.

(** [a.tgz] is in place and stays there while [b.tgz] fails. *)
Lemma what_is_in_place_stays_witness :
  FetchFacts.kept vendor_dir a_tgz
    (snd (Fetch.download_dependencies offline [a_tgz; b_tgz] vendor_dir a_in_place)).
Proof.
  apply (what_is_in_place_stays offline [a_tgz; b_tgz] vendor_dir a_in_place a_tgz).
  - vm_compute. reflexivity.
  - vm_compute. reflexivity.
  - apply list_elem_of_here.
  - split.
    + intros H. vm_compute in H. discriminate H.
    + intros _. exists good. split; [vm_compute; reflexivity|].
      intros _. vm_compute. reflexivity.
Defined.

(** [one_corrupt] lets [a.tgz], [c.tgz] and the repository through. *)
Lemma one_corrupt_sound d :
  d ∈ sound_entries -> FetchFacts.sound one_corrupt vendor_dir d.
Proof.
  intros Hd. unfold sound_entries in Hd.
  repeat (apply elem_of_cons in Hd as [->|Hd]); [| | | |inversion Hd].
  - split; [intros _ n | intros H; vm_compute in H; discriminate H].
    exists good. split; [vm_compute; reflexivity|]. intros _. vm_compute. reflexivity.
  - split; [intros H; vm_compute in H; discriminate H | intros _].
    split; [vm_compute; reflexivity|]. split; [vm_compute; reflexivity|].
    intros n. split; [|split]; reflexivity.
  - split; intros H; vm_compute in H; discriminate H.
  - split; [intros _ n | intros H; vm_compute in H; discriminate H].
    exists good. split; [vm_compute; reflexivity|]. intros _. vm_compute. reflexivity.
Qed.

(** Starting on a stale [a.tgz], with a server that has all the files. *)
Lemma sound_network_makes_the_pass_succeed_witness :
  fst (fst (Fetch.download_dependencies one_corrupt sound_entries vendor_dir a_stale))
  = true
  /\ Forall (fun d => FetchFacts.kept vendor_dir d
                (snd (Fetch.download_dependencies one_corrupt sound_entries
                        vendor_dir a_stale))) sound_entries.
Proof.
  apply (sound_network_makes_the_pass_succeed one_corrupt sound_entries vendor_dir
           a_stale).
  - vm_compute. reflexivity.
  - vm_compute. reflexivity.
  - exact one_corrupt_sound.
Defined.


(** ** Release numbers and the spec file *)

(** The spec file written for release 4 makes the next release 5. *)
Lemma next_release_follows_the_written_one_witness :
  Copr.get_copr_release_number (serves theia_spec_updated) (lit "1.67.100")
  = Ok (match Copr.version_match theia_spec_updated,
              Copr.release_match theia_spec_updated with
        | Some _, Some _ => (4 + 1)%Z
        | _, _ => 1%Z
        end).
Proof.
  apply (next_release_follows_the_written_one (serves theia_spec_updated)
           theia_spec theia_spec_updated (lit "1.67.100")
           (Some (lit "1.67.0")) (Some (lit "38.4.0")) 4 true).
  - vm_compute. reflexivity.
  - vm_compute. reflexivity.
  - vm_compute. reflexivity.
  - vm_compute. reflexivity.
  - lia.
  - apply Nat.leb_le. vm_compute. reflexivity.
  - vm_compute. reflexivity.
  - vm_compute. reflexivity.
  - vm_compute. reflexivity.
  - vm_compute. reflexivity.
Defined.

Lemma spec_without_fields_is_left_alone_witness :
  match SpecFile.update_spec_file (Some spec_without_fields) (lit "1.67.100")
          (Some (lit "1.67.0")) (Some (lit "38.4.0")) (Some 4%Z) with
  | (disk, Ok changed) => disk = Some spec_without_fields /\ changed = false
  | (disk, Raise _) => disk = Some spec_without_fields
  end.
Proof.
  apply (spec_without_fields_is_left_alone spec_without_fields).
  vm_compute. reflexivity.
Defined.

(** A DOS file whose version changes comes out with Unix line ends. *)
Lemma written_spec_has_no_carriage_return_witness :
  (true = false /\ dos_spec_updated = dos_spec)
  \/ (true = true /\ SpecFile.free_of cr dos_spec_updated = true
      /\ dos_spec_updated <> SpecFile.read_text dos_spec).
Proof.
  apply (written_spec_has_no_carriage_return dos_spec (lit "2") dos_spec_updated
           None None None true).
  - vm_compute. reflexivity.
  - reflexivity.
  - reflexivity.
  - vm_compute. reflexivity.
Defined.

Lemma version_ending_in_backslash_raises_witness :
  SpecFile.update_spec_file (Some theia_spec) (lit "1.67.100" ++ [backslash])
    None None None = (Some theia_spec, Raise TemplateError).
Proof.
  apply (version_ending_in_backslash_raises theia_spec (lit "1.67.100")).
  vm_compute. reflexivity.
Defined.

Lemma update_works_line_by_line_witness :
  SpecFile.update_content (SpecFacts.text theia_spec_lines []) (lit "1.67.100")
    (Some (lit "1.67.0")) (Some (lit "38.4.0")) (Some 4%Z)
  = if SpecFile.within_str_digits (Some 4%Z)
    then Ok (SpecFacts.text
               (map (SpecFacts.new_line (lit "1.67.100") (Some (lit "1.67.0"))
                       (Some (lit "38.4.0")) (Some 4%Z)) theia_spec_lines)
               (SpecFacts.new_line (lit "1.67.100") (Some (lit "1.67.0"))
                  (Some (lit "38.4.0")) (Some 4%Z) []))
    else Raise ValueError.
Proof.
  apply (update_works_line_by_line theia_spec_lines []); vm_compute; reflexivity.
Defined.

(** The text of [theia_spec] is its lines, and what the line-by-line form
    gives for it is [theia_spec_updated]. *)
Example theia_spec_by_lines :
  SpecFacts.text theia_spec_lines [] = theia_spec
  /\ SpecFacts.text
       (map (SpecFacts.new_line (lit "1.67.100") (Some (lit "1.67.0"))
               (Some (lit "38.4.0")) (Some 4%Z)) theia_spec_lines) []
     = theia_spec_updated.
Proof. vm_compute. split; reflexivity. Qed.

(** ** The manifests *)

(** [@theia/core] stands first in [dependencies] and gets its value from
    [devDependencies]. *)
Lemma theia_version_source_witness :
  exists s,
    default (PackageJson.JStr (lit "^1.66.0"))
      (PackageJson.get (lit "@theia/core") build_deps) = PackageJson.JStr s
    /\ lit "1.67.0" = PackageJson.lstrip_range s.
Proof.
  apply (theia_version_source root_manifest runtime_deps build_deps
           (lit "@theia/core") (PackageJson.JStr (lit "^1.66.0"))
           PackageJson.Missing (lit "1.67.0")).
  - vm_compute. reflexivity.
  - vm_compute. reflexivity.
  - refine (bool_decide_unpack _ _). vm_compute. exact I.
  - vm_compute. reflexivity.
  - vm_compute. reflexivity.
Defined.

Example versions_of_root_manifest :
  PackageJson.get_versions_from_package_json
    (PackageJson.Loaded (PackageJson.JObj root_manifest)) PackageJson.Missing
  = (Some (lit "1.67.0"), Some (lit "37.2.1")).
Proof. vm_compute. reflexivity. Qed.

End MoreRuns.
